(** * Neovim: do_cmdline flags, the LSP client glue and its helpers

    A shallow embedding of the parts of the repository that the
    properties proved below are about:

    - [Docmd]:    the [DOCMD_*] flag constants of [src/nvim/ex_docmd.h];
    - [Util]:     [util.split] of the Lua helper module;
    - [Job]:      the Vim script wrapper [lsp#job#start];
    - [Lua]:      results, errors and state of Lua calls, [pcall];
    - [CmdParts]: [lsp._cmd_parts] of [runtime/lua/vim/lsp.lua], on a
                  store of tables;
    - [Lsp]:      the rest of [runtime/lua/vim/lsp.lua] that is needed:
                  [next_client_id], the handlers [server_request],
                  [on_error] and [on_exit] of a client, [client.request],
                  [client.cancel_request], [for_each_buffer_client],
                  [lsp.buf_request] and [lsp.buf_request_sync].

    The definitions come first, the lemmas about them after, in modules
    named [...Facts].

    Lua numbers that serve as counters and identifiers are integer-valued
    (and exact far beyond any count that can be reached); they are
    modelled in [Z].  Lua strings are [string]s, or lists of bytes where
    the code works on positions.  Tables used as maps are [gmap]s, tables
    used as sets of keys are [gset]s, tables used as arrays are [list]s.
    Calls of [log.*] and of [validate] on arguments whose type is fixed
    here have no bearing on what is proved and are left out. *)

From Stdlib Require Import ZArith List Ascii String Lia Bool Sorted.
From stdpp Require Import base option gmap strings list fin_maps pretty.
Import ListNotations.

Local Open Scope Z_scope.

(* ===================================================================== *)
(** ** [src/nvim/ex_docmd.h]: flags for [do_cmdline()]                    *)
(* ===================================================================== *)

Module Docmd.

(** The six [#define]s, with the values of the header. *)
Definition DOCMD_VERBOSE  : Z := 0x01.
Definition DOCMD_NOWAIT   : Z := 0x02.
Definition DOCMD_REPEAT   : Z := 0x04.
Definition DOCMD_KEYTYPED : Z := 0x08.
Definition DOCMD_EXCRESET : Z := 0x10.
Definition DOCMD_KEEPLINE : Z := 0x20.

(** Names for the six flags, to quantify over them. *)
Inductive docmd_flag : Type :=
| Verbose | Nowait | Repeat | Keytyped | Excreset | Keepline.

#[global] Instance docmd_flag_eq_dec : EqDecision docmd_flag.
Proof. solve_decision. Defined.

Definition flag_value (f : docmd_flag) : Z :=
  match f with
  | Verbose  => DOCMD_VERBOSE
  | Nowait   => DOCMD_NOWAIT
  | Repeat   => DOCMD_REPEAT
  | Keytyped => DOCMD_KEYTYPED
  | Excreset => DOCMD_EXCRESET
  | Keepline => DOCMD_KEEPLINE
  end.

(** Position of the bit of each flag. *)
Definition flag_bit (f : docmd_flag) : Z :=
  match f with
  | Verbose  => 0
  | Nowait   => 1
  | Repeat   => 2
  | Keytyped => 3
  | Excreset => 4
  | Keepline => 5
  end.

(** The C idioms on an [int flags]: [flags | F], [flags & ~F] and
    [(flags & F) != 0]. *)
Definition set_flag (flags : Z) (f : docmd_flag) : Z :=
  Z.lor flags (flag_value f).
Definition clear_flag (flags : Z) (f : docmd_flag) : Z :=
  Z.land flags (Z.lnot (flag_value f)).
Definition has_flag (flags : Z) (f : docmd_flag) : bool :=
  negb (Z.land flags (flag_value f) =? 0).


(** The [flags] word of a call of [do_cmdline()] that asks for the given
    flags: their values, or-ed together. *)
Definition flags_of (fs : list docmd_flag) : Z := foldl set_flag 0 fs.

End Docmd.

(* ===================================================================== *)
(** ** The Lua helper module [util]: [util.split]                         *)
(* ===================================================================== *)

Module Util.

Local Open Scope nat_scope.

(** A Lua string is a sequence of bytes. *)
Abbreviation lua_string := (list ascii).

(** What a call can do: return, fail an [assert], or (for the fuelled
    loop only) still be running when the fuel is used up. *)
Inductive result (A : Type) : Type :=
| Returns (a : A)
| AssertionFailed
| OutOfFuel.
Arguments Returns {A} a.
Arguments AssertionFailed {A}.
Arguments OutOfFuel {A}.

(** [starts_with p s]: the bytes of [p] are the first bytes of [s]. *)
Fixpoint starts_with (p s : lua_string) : bool :=
  match p, s with
  | [], _ => true
  | _ :: _, [] => false
  | a :: p', b :: s' => Ascii.eqb a b && starts_with p' s'
  end.

(** [lmemfind s sep]: offset of the first occurrence of [sep] in [s]
    (the search of Lua's [string.find] with [plain] set). *)
Fixpoint lmemfind (s sep : lua_string) : option nat :=
  if starts_with sep s then Some 0
  else match s with
       | [] => None
       | _ :: s' => S <$> lmemfind s' sep
       end.

(** [s:find(sep, init, true)] for [init >= 1]: the search starts at the
    1-based position [init] (clamped to the end of [s]) and returns the
    1-based positions of the first and last byte of the match. *)
Definition find (s sep : lua_string) (init : nat) : option (nat * nat) :=
  let off := Nat.min (init - 1) (length s) in
  match lmemfind (drop off s) sep with
  | Some m => Some (off + m + 1, off + m + length sep)
  | None => None
  end.

(** [s:sub(i, j)] for [i >= 0] and [j >= 0]: the bytes at the 1-based
    positions [i..j], with [i] raised to 1 and [j] lowered to [#s]. *)
Definition sub (s : lua_string) (i j : nat) : lua_string :=
  let i' := Nat.max i 1 in
  let j' := Nat.min j (length s) in
  if j' <? i' then [] else take (j' - (i' - 1)) (drop (i' - 1) s).

(** [s:sub(i)]: [j] defaults to [-1], the last byte. *)
Definition sub_from (s : lua_string) (i : nat) : lua_string :=
  sub s i (length s).

(** [aRecord[nField] = v] on a Lua array holding [1..#aRecord]: storing
    at [#aRecord + 1] appends, storing at a smaller index overwrites. *)
Definition array_set (aRecord : list lua_string) (nField : nat)
           (v : lua_string) : list lua_string :=
  if nField =? S (length aRecord) then aRecord ++ [v]
  else <[pred nField := v]> aRecord.

(** The [while nFirst and nMax ~= 0 do ... end] loop.  [fnd] holds the
    pair [nFirst, nLast] of the last [s:find] ([None] for [nil]); the
    loop returns the locals [aRecord], [nField] and [nStart] it ends
    with. *)
Fixpoint split_loop (fuel : nat) (s sep : lua_string)
         (aRecord : list lua_string) (nField nStart : nat)
         (fnd : option (nat * nat)) (nMax : Z)
  : result (list lua_string * nat * nat) :=
  match fnd with
  | None => Returns (aRecord, nField, nStart)
  | Some (nFirst, nLast) =>
      if (nMax =? 0)%Z then Returns (aRecord, nField, nStart)
      else match fuel with
           | O => OutOfFuel
           | S fuel' =>
               let aRecord := array_set aRecord nField (sub s nStart (nFirst - 1)) in
               let nField := nField + 1 in
               let nStart := nLast + 1 in
               split_loop fuel' s sep aRecord nField nStart
                          (find s sep nStart) (nMax - 1)%Z
           end
  end.

(** [util.split(s, sep, nMax)] with [bRegexp] absent or false, so that
    [bPlain] is true.  [nMax = None] stands for [nil].  Every round of
    the loop moves [nStart] forward, so [#s + 1] rounds of fuel are
    enough whenever the first assertion holds (see [split_loop_fuel]). *)
Definition split (s sep : lua_string) (nMax : option Z)
  : result (list lua_string) :=
  if bool_decide (sep = []) then AssertionFailed
  else if negb (match nMax with None => true | Some n => (1 <=? n)%Z end)
  then AssertionFailed
  else
    let aRecord := [] in
    if 0 <? length s then
      let nMax := match nMax with Some n => n | None => (-1)%Z end in
      let nField := 1 in
      let nStart := 1 in
      match split_loop (S (length s)) s sep aRecord nField nStart
                       (find s sep nStart) nMax with
      | Returns (aRecord, nField, nStart) =>
          Returns (array_set aRecord nField (sub_from s nStart))
      | AssertionFailed => AssertionFailed
      | OutOfFuel => OutOfFuel
      end
    else Returns aRecord.

(** [table.concat(fields, sep)]. *)
Fixpoint concat (fields : list lua_string) (sep : lua_string) : lua_string :=
  match fields with
  | [] => []
  | [x] => x
  | x :: rest => x ++ sep ++ concat rest sep
  end.

Definition str (s : string) : lua_string := list_ascii_of_string s.

(** The fields stored so far, each followed by the separator. *)
Fixpoint fields_then_sep (fields : list lua_string) (sep : lua_string)
  : lua_string :=
  match fields with
  | [] => []
  | x :: rest => x ++ sep ++ fields_then_sep rest sep
  end.

(** What holds of the locals whenever the loop test is evaluated: the
    fields stored so far, each with its separator, followed by the part
    of [s] from [nStart] on, make up [s]. *)
Definition loop_inv (s sep : lua_string) (aRecord : list lua_string)
           (nField nStart : nat) : Prop :=
  nField = S (length aRecord) /\
  1 <= nStart <= S (length s) /\
  fields_then_sep aRecord sep ++ drop (nStart - 1) s = s.


(** [sep] occurs somewhere in [s]. *)
Definition occurs (sep s : lua_string) : Prop :=
  exists pre post, s = pre ++ sep ++ post.


(** *** [util.handle_uri] *)

Definition file_prefix : lua_string := str "file://".

(** [#s]. *)
Definition len (s : lua_string) : nat := length s.

Definition handle_uri (uri : lua_string) : lua_string :=
  if bool_decide (sub uri 1 (len file_prefix) = file_prefix)
  then sub uri (len file_prefix + 1) (len uri)
  else uri.

(** *** [util.get_file_line] *)

(** The files that can be read, as their lines, and the file handles
    that were opened and not closed. *)
Record io_state : Type :=
  { files : gmap string (list lua_string);
    open_handles : list string }.

Inductive io_result : Type :=
| IoReturns (line : lua_string) (st : io_state)
| IoAssertionFailed (st : io_state).

(** [for line in f:lines() do ... end] from the line numbered [count]. *)
Fixpoint scan_lines (lines : list lua_string) (count line_number : Z)
  : option lua_string :=
  match lines with
  | [] => None
  | line :: rest =>
      if (count =? line_number)%Z then Some line
      else scan_lines rest (count + 1)%Z line_number
  end.

(** [io.open(file_name, 'r')]: the lines of the file and the state with
    one more open handle, or [nil] for a file that cannot be read. *)
Definition io_open (file_name : string) (st : io_state)
  : option (list lua_string * io_state) :=
  match files st !! file_name with
  | Some lines =>
      Some (lines, {| files := files st;
                      open_handles := file_name :: open_handles st |})
  | None => None
  end.

(** [f:close()]: one handle of the file is given back. *)
Fixpoint remove_handle (file_name : string) (handles : list string)
  : list string :=
  match handles with
  | [] => []
  | h :: rest =>
      if bool_decide (h = file_name) then rest
      else h :: remove_handle file_name rest
  end.

Definition io_close (file_name : string) (st : io_state) : io_state :=
  {| files := files st;
     open_handles := remove_handle file_name (open_handles st) |}.

(** [util.get_file_line(file_name, line_number)]: the [assert] fails
    when [io.open] yields [nil]; [f:close()] is called on the way out of
    the loop only. *)
Definition get_file_line (file_name : string) (line_number : Z)
           (st : io_state) : io_result :=
  match io_open file_name st with
  | None => IoAssertionFailed st
  | Some (lines, st) =>
      let count := 1%Z in
      match scan_lines lines count line_number with
      | Some line => IoReturns line (io_close file_name st)
      | None => IoReturns [] st
      end
  end.

(** *** Tables as values: [util.is_array] and [util.get_key] *)

(** The keys of a table, by their [type()]. *)
Inductive key : Type :=
| KNum (n : Z)
| KStr (s : string)
| KBool (b : bool).

#[global] Instance key_eq_dec : EqDecision key.
Proof. solve_decision. Defined.

(** A Lua value; a table is written as a list of entries.  Such a list
    may name a key twice, and may give a key the value [nil]: the table
    it stands for maps a key to the value of the first entry that names
    it ([lookup_entry]), and a key whose value there is [nil] is not in
    the table ([pairs]). *)
#[local] Unset Elimination Schemes.
Inductive tvalue : Type :=
| TNil
| TBool (b : bool)
| TNum (n : Z)
| TStr (s : string)
| TFunction (name : string)
| TTable (entries : list (key * tvalue)).
#[local] Set Elimination Schemes.

Definition is_number_key (k : key) : bool :=
  match k with KNum _ => true | _ => false end.

(** The loop of [util.is_array]: [None] when it returns [false] from
    inside, the count otherwise. *)
Fixpoint count_number_keys (entries : list (key * tvalue)) (count : Z)
  : option Z :=
  match entries with
  | [] => Some count
  | (k, _) :: rest =>
      if is_number_key k then count_number_keys rest (count + 1)%Z
      else None
  end.

(** [t[k]] for a table. *)
Fixpoint lookup_entry (entries : list (key * tvalue)) (k : key) : tvalue :=
  match entries with
  | [] => TNil
  | (k', v) :: rest => if bool_decide (k' = k) then v else lookup_entry rest k
  end.

(** The entries without those of the key [k]. *)
Definition without_key (k : key) (entries : list (key * tvalue))
  : list (key * tvalue) :=
  filter (fun entry => entry.1 <> k) entries.

(** What [pairs(table)] goes through: every key of the table once, with
    its value, which is not [nil]; the order is that of the list. *)
Fixpoint pairs (entries : list (key * tvalue)) : list (key * tvalue) :=
  match entries with
  | [] => []
  | (k, v) :: rest =>
      match v with
      | TNil => without_key k (pairs rest)
      | _ => (k, v) :: without_key k (pairs rest)
      end
  end.

Definition is_array (table : tvalue) : tvalue :=
  match table with
  | TTable entries =>
      match count_number_keys (pairs entries) 0 with
      | None => TBool false
      | Some count => if (0 <? count)%Z then TBool true else TNil
      end
  | _ => TBool false
  end.

(** [result[key]]: a table is looked up, a string hands the key to the
    [string] library ([string_index]), and indexing anything else is an
    error. *)
Definition index_value (string_index : key -> tvalue) (result : tvalue)
           (k : key) : option tvalue :=
  match result with
  | TTable entries => Some (lookup_entry entries k)
  | TStr _ => Some (string_index k)
  | _ => None
  end.

(** The loop of [util.get_key] over the keys given; [None] for an
    error. *)
Fixpoint get_key_loop (string_index : key -> tvalue) (result : tvalue)
         (keys : list key) : option tvalue :=
  match keys with
  | [] => Some result
  | k :: rest =>
      match index_value string_index result k with
      | None => None
      | Some TNil => Some TNil
      | Some v => get_key_loop string_index v rest
      end
  end.

Definition is_table (v : tvalue) : bool :=
  match v with TTable _ => true | _ => false end.

(** [util.get_key(table, ...)]. *)
Definition get_key (string_index : key -> tvalue) (table : tvalue)
           (keys : list key) : option tvalue :=
  if negb (is_table table) then Some TNil
  else get_key_loop string_index table keys.

End Util.


(* ===================================================================== *)
(** ** [runtime/lua/lsp/callbacks.lua]: [get_list_of_callbacks]           *)
(* ===================================================================== *)

Module Callbacks.
Import Util.

(** The [method] argument, by its [type()]: a string, a table (the list
    of its items, which are strings, numbers or booleans), or anything
    else. *)
Inductive method_arg : Type :=
| MethodString (s : lua_string)
| MethodTable (keys : list key)
| MethodOther.

(** What is returned: [nil], a table, the one-item list of the function
    given, or the one-item list of a new function that calls the Vim
    function named; or an error is raised. *)
Inductive callbacks_result : Type :=
| NoCallbacks
| CallbackTable (t : tvalue)
| OneFunction (f : string)
| OneVimFunction (name : string)
| IndexError.

Definition slash : lua_string := str "/".

(** A field of the split method as a key of a table. *)
Definition key_of (field : lua_string) : key := KStr (string_of_list_ascii field).

(** [method_table]: [None] when [method] is neither a string nor a
    table.  [util.split] with the separator ['/'] and no limit fails no
    assertion. *)
Definition method_table (method : method_arg) : option (list key) :=
  match method with
  | MethodString s =>
      match split s slash None with
      | Returns fields => Some (key_of <$> fields)
      | _ => None
      end
  | MethodTable keys => Some keys
  | MethodOther => None
  end.

(** [get_list_of_callbacks(method, callback_parameter)], with the table
    [cb] of the module and the [string] library as parameters.  The loop
    over [method_table] is the loop of [util.get_key]. *)
Definition get_list_of_callbacks (string_index : key -> tvalue) (cb : tvalue)
           (method : method_arg) (callback_parameter : tvalue)
  : callbacks_result :=
  match method_table method with
  | None => NoCallbacks
  | Some method_table =>
      match callback_parameter with
      | TNil =>
          match get_key_loop string_index cb method_table with
          | None => IndexError
          | Some (TTable entries) => CallbackTable (TTable entries)
          | Some _ => NoCallbacks
          end
      | TTable entries => CallbackTable (TTable entries)
      | TFunction f => OneFunction f
      | TStr name => OneVimFunction name
      | _ => NoCallbacks
      end
  end.

(** A table of callbacks shaped like [cb]: [cb.textDocument.hover] and
    [cb.textDocument.definition], each a list of one function. *)
Definition sample_cb : tvalue :=
  TTable [(KStr "textDocument",
           TTable [(KStr "hover", TTable [(KNum 1, TFunction "hover")]);
                   (KStr "definition", TTable [(KNum 1, TFunction "definition")])])].

End Callbacks.

(* ===================================================================== *)
(** ** The Vim script job wrapper: [lsp#job#start]                        *)
(* ===================================================================== *)

Module Job.

(** [a:cmd] is what [jobstart()] accepts: a string or a list of strings. *)
Inductive cmd : Type :=
| CmdString (s : string)
| CmdList (argv : list string).

(** How a call of the function ends.  The function is defined with
    [abort], so the error raised by [:echoerr] ends it on the spot with
    the message as the error reported to the caller (the message of the
    [Vim(echoerr):...] exception inside a [:try]); the [throw] on the
    next line is not reached. *)
Inductive outcome : Type :=
| Returned (job_id : Z)
| Echoerr (message : string).

Definition invalid_arguments : string := "Invalid arguments for LSP".
Definition not_executable (shown : string) : string :=
  "Not a valid executable: " ++ shown.

Section Start.
(** The builtins the function calls: [jobstart(cmd, s:LspClient)],
    which yields the job id, 0 or -1, and [string()]. *)
Variable jobstart : cmd -> Z.
Variable vim_string : cmd -> string.

Definition start (a_cmd : cmd) : outcome :=
  let job_id := jobstart a_cmd in
  if job_id =? 0 then Echoerr invalid_arguments
  else if job_id =? -1 then Echoerr (not_executable (vim_string a_cmd))
  else Returned job_id.
End Start.

(** A [jobstart()] that rejects an empty command, cannot run ["nosuch"],
    and gives job id 3 to everything else. *)
Definition sample_jobstart (c : cmd) : Z :=
  match c with
  | CmdList [] => 0
  | CmdString "" => 0
  | CmdString "nosuch" => -1
  | CmdList ("nosuch" :: _) => -1
  | _ => 3
  end.

Definition sample_string (c : cmd) : string :=
  match c with
  | CmdString s => "'" ++ s ++ "'"
  | CmdList argv => "['" ++ String.concat "', '" argv ++ "']"
  end.

End Job.


(* ===================================================================== *)
(** ** Running Lua code: results, errors and state                        *)
(* ===================================================================== *)

Module Lua.

(** A Lua call on a state [S] either returns a value or raises an error
    value ([error()], a failed [vim.validate], indexing [nil]); in both
    cases the state it leaves is the one reached so far. *)
Inductive outcome (E S A : Type) : Type :=
| Ok (a : A) (s : S)
| Raised (e : E) (s : S).
Arguments Ok {E S A} a s.
Arguments Raised {E S A} e s.

Definition M (E S A : Type) : Type := S -> outcome E S A.

Definition ret {E S A} (a : A) : M E S A := fun s => Ok a s.
Definition raise {E S A} (e : E) : M E S A := fun s => Raised e s.
Definition bind {E S A B} (m : M E S A) (k : A -> M E S B) : M E S B :=
  fun s => match m s with
           | Ok a s' => k a s'
           | Raised e s' => Raised e s'
           end.
Definition get {E S} : M E S S := fun s => Ok s s.
Definition put {E S} (s : S) : M E S unit := fun _ => Ok tt s.
Definition modify {E S} (f : S -> S) : M E S unit := fun s => Ok tt (f s).

(** [pcall(f, ...)]: the error of the call, if any, becomes a value. *)
Definition pcall {E S A} (m : M E S A) : M E S (E + A) :=
  fun s => match m s with
           | Ok a s' => Ok (inr a) s'
           | Raised e s' => Ok (inl e) s'
           end.

(** [for _, x in ... do body(x) end] over the items in the order given. *)
Fixpoint for_each {E S A} (items : list A) (body : A -> M E S unit)
  : M E S unit :=
  match items with
  | [] => ret tt
  | x :: rest => bind (body x) (fun _ => for_each rest body)
  end.

Definition state_of {E S A} (o : outcome E S A) : S :=
  match o with Ok _ s => s | Raised _ s => s end.

Definition returns {E S A} (o : outcome E S A) : bool :=
  match o with Ok _ _ => true | Raised _ _ => false end.

(** The value returned, or the error raised. *)
Definition value_of {E S A} (o : outcome E S A) : E + A :=
  match o with Ok a _ => inr a | Raised e _ => inl e end.

End Lua.

Declare Scope lua_scope.
Delimit Scope lua_scope with lua.
Notation "'let*' x ':=' m 'in' k" := (Lua.bind m (fun x => k))
  (at level 10, x name, m at level 100, k at level 200, only parsing)
  : lua_scope.

(* ===================================================================== *)
(** ** [lsp._cmd_parts], on a store of Lua tables                         *)
(* ===================================================================== *)

Module CmdParts.
Import Lua.
Local Open Scope nat_scope.
Local Open Scope lua_scope.

(** Tables are passed by reference: a table value is a location in the
    store.  The tables this function deals with are lists (keys
    [1..n]), held as the list of their items. *)
Abbreviation loc := positive.

Inductive lval : Type :=
| LNil
| LBool (b : bool)
| LNum (n : Z)
| LStr (s : string)
| LRef (l : loc).

Abbreviation store := (gmap loc (list lval)).

(** The error of a failed [vim.validate{name = {value, expected}}]. *)
Record validate_error : Type :=
  { param : string; expected : string }.

Abbreviation lua := (M validate_error store).

(** [vim.tbl_islist(input)]: a reference to a list in the store. *)
Definition tbl_islist (input : lval) (h : store) : bool :=
  match input with
  | LRef l => bool_decide (is_Some (h !! l))
  | _ => false
  end.

Definition is_string (v : lval) : bool :=
  match v with LStr _ => true | _ => false end.

(** [t[i]] for a list [t] and [i >= 1]; [nil] past the end. *)
Definition index (t : loc) (i : nat) (h : store) : lval :=
  match h !! t with
  | Some items => default LNil (items !! (i - 1))
  | None => LNil
  end.

(** [{}]: a new table at a location not in use. *)
Definition new_table : lua loc :=
  fun h => let l := fresh (dom h) in Ok l (<[l := []]> h).

(** [table.insert(t, v)]: append to the list at [t]. *)
Definition table_insert (t : loc) (v : lval) : lua unit :=
  modify (fun h => alter (fun items => items ++ [v]) t h).

(** The [for i, v in ipairs(input) do ... end] loop from index [i] on.
    [ipairs] reads [input[i]] from the store at every round and stops at
    the first [nil]; [None] when the fuel ends before the loop does. *)
Fixpoint cmd_parts_loop (fuel : nat) (input cmd_args : loc) (i : nat)
         (h : store) : option (outcome validate_error store unit) :=
  match index input i h with
  | LNil => Some (Ok tt h)
  | v =>
      match fuel with
      | O => None
      | S fuel' =>
          if negb (is_string v)
          then Some (Raised {| param := "cmd argument"; expected := "s" |} h)
          else
            let h := if 1 <? i then state_of (table_insert cmd_args v h) else h in
            cmd_parts_loop fuel' input cmd_args (i + 1) h
      end
  end.

(** [lsp._cmd_parts(input)]: returns [cmd, cmd_args].  The loop gets one
    round of fuel per item [input] has on entry. *)
Definition _cmd_parts (input : lval) (h : store)
  : option (outcome validate_error store (lval * lval)) :=
  if negb (tbl_islist input h)
  then Some (Raised {| param := "cmd"; expected := "list" |} h)
  else
    match input with
    | LRef t =>
        let cmd := index t 1 h in
        match new_table h with
        | Ok cmd_args h1 =>
            match cmd_parts_loop (length (default [] (h !! t))) t cmd_args 1 h1 with
            | Some (Ok _ h2) => Some (Ok (cmd, LRef cmd_args) h2)
            | Some (Raised e h2) => Some (Raised e h2)
            | None => None
            end
        | Raised e h1 => Some (Raised e h1)
        end
    | _ => Some (Raised {| param := "cmd"; expected := "list" |} h)
    end.

Definition strings (l : list string) : list lval := LStr <$> l.

End CmdParts.


(* ===================================================================== *)
(** ** [runtime/lua/vim/lsp.lua]                                          *)
(* ===================================================================== *)

Module Lsp.
Import Lua.
Local Open Scope lua_scope.

(** *** Values *)

(** The Lua values that are passed around as payloads (method
    parameters, results, errors).  A table with string keys is the list
    of its fields. *)
#[local] Unset Elimination Schemes.
Inductive value : Type :=
| VNil
| VBool (b : bool)
| VNum (n : Z)
| VStr (s : string)
| VTable (fields : list (string * value)).
#[local] Set Elimination Schemes.

(** Everything but [nil] and [false] counts as true. *)
Definition truthy (v : value) : bool :=
  match v with
  | VNil | VBool false => false
  | _ => true
  end.

(** The [i]-th of the values a call returns ([nil] when there are fewer). *)
Definition nth_value (i : nat) (vs : list value) : value := nth i vs VNil.

(** *** Functions as data *)

(** A function that comes from outside this file (a callback of the
    client's [config], a default callback, a handler passed to
    [buf_request]) is known by a name; what it does is given by the
    environment ([user] below). *)
Abbreviation fn := string.

(** The functions that can serve as the [callback] of a request: a
    function from outside, or the local [_callback] of a call of
    [buf_request_sync], a closure over the locals of that call; the calls
    are numbered from 0 in the order in which they are made. *)
Inductive callback : Type :=
| UserFn (f : fn)
| SyncCallback (call : nat).

(** The closure [function(err, result) callback(err, method, result,
    client_id, bufnr) end] that [client.request] hands to
    [rpc.request], as the values it captures. *)
Record request_closure : Type :=
  { rc_callback : callback;
    rc_method : string;
    rc_client_id : Z;
    rc_bufnr : value }.

(** *** The RPC client of one language server *)

Inductive frame : Type :=
| Request (id : Z) (method : string) (params : value)
| Notification (method : string) (params : value).

Record rpc_client : Type :=
  { message_index : Z;                   (* the last correlation id given out *)
    pending : gmap Z request_closure;    (* id -> callback of the request *)
    sent : list frame;                   (* frames written to the server *)
    closing : bool }.                    (* the server process has exited *)

(** *** Clients *)

(** The fields of [client.resolved_capabilities] that [client.request]
    looks at. *)
Record capabilities : Type :=
  { hover : bool;
    signature_help : bool;
    goto_definition : bool;
    implementation : bool;
    declaration : bool;
    type_definition : bool;
    document_symbol : bool;
    workspace_symbol : bool;
    call_hierarchy : bool }.

(** The fields of the [config] given to [start_client] that the
    handlers use. *)
Record config : Type :=
  { cfg_name : option string;
    cfg_callbacks : gmap string fn;      (* [config.callbacks or {}] *)
    cfg_on_error : option fn;
    cfg_on_exit : option fn }.

Record client : Type :=
  { client_config : config;
    rpc : rpc_client;
    resolved_capabilities : option capabilities }.  (* [nil] until initialized *)

(** *** The state of the module *)

Inductive ui_event : Type :=
| ErrWriteln (msg : string)      (* [nvim_err_writeln(msg)] *)
| Command (cmd : string).        (* [nvim_command(cmd)] *)

(** A function handed to [vim.schedule]. *)
Inductive task : Type :=
| ClearDiagnostics (bufnrs : list Z).

(** The locals [request_results] and [result_count] of one call of
    [buf_request_sync]. *)
Record sync_locals : Type :=
  { request_results : gmap Z (value * value);   (* client_id -> (error, result) *)
    result_count : Z }.

Definition new_sync_locals : sync_locals :=
  {| request_results := ∅; result_count := 0 |}.

(** The module's locals, the editor state it reads and writes, and the
    locals of the calls of [buf_request_sync] made so far, in the order
    of the calls: every call makes its own, and its [_callback] keeps
    them alive.  Client objects are tables shared by [active_clients],
    [uninitialized_clients] and the closures: they live in [clients],
    keyed by client id, and the two tables hold the ids they map. *)
Record lsp_state : Type :=
  { client_index : Z;
    clients : gmap Z client;
    active_clients : gset Z;
    uninitialized_clients : gset Z;
    all_buffer_active_clients : gmap Z (gset Z);
    current_buf : Z;
    ui : list ui_event;
    scheduled : list task;
    sync_calls : list sync_locals }.

Definition set_client_index (n : Z) (s : lsp_state) : lsp_state :=
  {| client_index := n; clients := clients s;
     active_clients := active_clients s;
     uninitialized_clients := uninitialized_clients s;
     all_buffer_active_clients := all_buffer_active_clients s;
     current_buf := current_buf s; ui := ui s; scheduled := scheduled s;
     sync_calls := sync_calls s |}.

Definition set_clients (m : gmap Z client) (s : lsp_state) : lsp_state :=
  {| client_index := client_index s; clients := m;
     active_clients := active_clients s;
     uninitialized_clients := uninitialized_clients s;
     all_buffer_active_clients := all_buffer_active_clients s;
     current_buf := current_buf s; ui := ui s; scheduled := scheduled s;
     sync_calls := sync_calls s |}.

(** What [handlers.on_exit] does to the three tables of clients. *)
Definition set_client_tables (active uninit : gset Z)
           (buffers : gmap Z (gset Z)) (s : lsp_state) : lsp_state :=
  {| client_index := client_index s; clients := clients s;
     active_clients := active;
     uninitialized_clients := uninit;
     all_buffer_active_clients := buffers;
     current_buf := current_buf s; ui := ui s; scheduled := scheduled s;
     sync_calls := sync_calls s |}.

Definition set_ui (l : list ui_event) (s : lsp_state) : lsp_state :=
  {| client_index := client_index s; clients := clients s;
     active_clients := active_clients s;
     uninitialized_clients := uninitialized_clients s;
     all_buffer_active_clients := all_buffer_active_clients s;
     current_buf := current_buf s; ui := l; scheduled := scheduled s;
     sync_calls := sync_calls s |}.

Definition set_scheduled (l : list task) (s : lsp_state) : lsp_state :=
  {| client_index := client_index s; clients := clients s;
     active_clients := active_clients s;
     uninitialized_clients := uninitialized_clients s;
     all_buffer_active_clients := all_buffer_active_clients s;
     current_buf := current_buf s; ui := ui s; scheduled := l;
     sync_calls := sync_calls s |}.

Definition set_sync_calls (calls : list sync_locals) (s : lsp_state)
  : lsp_state :=
  {| client_index := client_index s; clients := clients s;
     active_clients := active_clients s;
     uninitialized_clients := uninitialized_clients s;
     all_buffer_active_clients := all_buffer_active_clients s;
     current_buf := current_buf s; ui := ui s; scheduled := scheduled s;
     sync_calls := calls |}.

(** The locals of the call of [buf_request_sync] with the given number. *)
Definition locals_of (call : nat) (s : lsp_state) : sync_locals :=
  default new_sync_locals (sync_calls s !! call).

Abbreviation lua := (M value lsp_state).

(** *** What the file takes from elsewhere *)

Record env : Type :=
  { (** the behaviour of the functions that come from outside *)
    user : fn -> list value -> lua (list value);
    (** [require 'vim.lsp.callbacks'] *)
    default_callbacks : gmap string fn;
    (** [lsp.client_errors[code]] *)
    client_errors : Z -> string;
    (** [protocol.ErrorCodes.MethodNotFound] and the name of a code *)
    MethodNotFound : Z;
    error_code_name : Z -> string;
    (** [vim.inspect] and [tostring] *)
    inspect : value -> string;
    tostring : value -> string;
    (** the name under which Lua knows this file, as it shows it in the
        position of an error *)
    chunkname : string }.

(** *** Messages on the error surface *)

(** [err_message(...)]: the strings, concatenated, are written with
    [nvim_err_writeln], then the screen is redrawn. *)
Definition err_message (parts : list string) : lua unit :=
  modify (fun s => set_ui (ui s ++ [ErrWriteln (String.concat "" parts);
                                    Command "redraw"]) s).

(** [error(msg)] with a string, called at a line of this file: Lua puts
    the position, [chunkname:line:], before the message. *)
Definition error_at {A : Type} (e : env) (line : Z) (msg : string) : lua A :=
  raise (VStr (chunkname e ++ ":" ++ pretty line ++ ": " ++ msg)%string).

(** *** [next_client_id] *)

Definition next_client_id : lua Z :=
  let* _ := modify (fun s => set_client_index (client_index s + 1) s) in
  let* s := get in
  ret (client_index s).

(** [next_client_id] called once after each of the given pieces of code
    (state changes of the rest of the program); the ids it returned. *)
Fixpoint allocations (between : list (lsp_state -> lsp_state))
         (s : lsp_state) : list Z :=
  match between with
  | [] => []
  | other :: rest =>
      match next_client_id (other s) with
      | Ok id s' => id :: allocations rest s'
      | Raised _ _ => []
      end
  end.

(** *** [resolve_bufnr] *)

Definition resolve_bufnr (bufnr : option Z) (s : lsp_state) : Z :=
  match bufnr with
  | None => current_buf s
  | Some b => if b =? 0 then current_buf s else b
  end.

(** *** The RPC client *)

(** Modelled from the spec: [vim.lsp.rpc] is not under src/.  An RPC
    error is shaped like [{ code, message, data? }]; without a message
    it carries the name of its code. *)
Definition rpc_response_error (e : env) (code : Z) (message : option string)
  : value :=
  VTable [("code", VNum code);
          ("message", VStr (default (error_code_name e code) message))].

(** Modelled from the spec: [rpc.request] of [vim.lsp.rpc], which is not
    under src/.  "Allocates a fresh correlation id (monotonic), records
    {id -> callback} in the pending map, serializes and writes the
    request frame.  Returns the id"; the call yields [true, id], or
    [false] once the client has shut down. *)
Definition rpc_request (method : string) (params : value)
           (callback : request_closure) (r : rpc_client)
  : list value * rpc_client :=
  if closing r then ([VBool false], r)
  else
    let id := message_index r + 1 in
    ([VBool true; VNum id],
     {| message_index := id;
        pending := <[id := callback]> (pending r);
        sent := sent r ++ [Request id method params];
        closing := closing r |}).

(** Modelled from the spec: [rpc.notify] of [vim.lsp.rpc].
    "Fire-and-forget; returns immediately; fails silently (returns
    false) if the underlying Job has exited." *)
Definition rpc_notify (method : string) (params : value) (r : rpc_client)
  : list value * rpc_client :=
  if closing r then ([VBool false], r)
  else
    ([VBool true],
     {| message_index := message_index r;
        pending := pending r;
        sent := sent r ++ [Notification method params];
        closing := closing r |}).

Definition set_rpc (r : rpc_client) (c : client) : client :=
  {| client_config := client_config c; rpc := r;
     resolved_capabilities := resolved_capabilities c |}.

(** The client object with the given id.  The closures of a client hold
    their object, so for them the lookup succeeds. *)
Definition client_object (client_id : Z) : lua client :=
  fun s => match clients s !! client_id with
           | Some c => Ok c s
           | None => Raised (VStr "attempt to index a nil value") s
           end.

(** Run an operation of [client.rpc] on the client object. *)
Definition on_rpc (client_id : Z)
           (op : rpc_client -> list value * rpc_client) : lua (list value) :=
  let* c := client_object client_id in
  let '(vs, r) := op (rpc c) in
  let* _ := modify (fun s => set_clients (<[client_id := set_rpc r c]> (clients s)) s) in
  ret vs.

(** *** Calling a callback *)

Definition apply_callback (e : env) (cb : callback) (args : list value)
  : lua (list value) :=
  match cb with
  | UserFn f => user e f args
  | SyncCallback call =>
      (* [_callback(err, _method, result, client_id)], on the locals of
         its call; there is no such closure for a call not yet made *)
      match nth_value 3 args with
      | VNum client_id =>
          let* _ :=
            modify (fun s =>
                      set_sync_calls
                        (alter (fun l =>
                                  {| request_results :=
                                       <[client_id := (nth_value 0 args,
                                                       nth_value 2 args)]>
                                         (request_results l);
                                     result_count := result_count l + 1 |})
                               call (sync_calls s)) s) in
          ret []
      | _ => raise (VStr "table index is nil")
      end
  end.

(** Modelled from the spec: the response dispatch of [vim.lsp.rpc].
    "On receiving a response frame, look up id in the pending map; if
    found, invoke callback(success, data) exactly once and remove the
    entry; if not found (stale or already cancelled), drop silently." *)
Definition rpc_on_response (e : env) (client_id id : Z) (err result : value)
  : lua unit :=
  let* c := client_object client_id in
  match pending (rpc c) !! id with
  | Some cl =>
      let r := {| message_index := message_index (rpc c);
                  pending := delete id (pending (rpc c));
                  sent := sent (rpc c);
                  closing := closing (rpc c) |} in
      let* _ := modify (fun s => set_clients (<[client_id := set_rpc r c]> (clients s)) s) in
      let* _ := apply_callback e (rc_callback cl)
                               [err; VStr (rc_method cl); result;
                                VNum (rc_client_id cl); rc_bufnr cl] in
      ret tt
  | None => ret tt
  end.

(** *** The handlers of a client ([start_client]) *)

(** [name = config.name or tostring(client_id)] and
    [log_prefix = string.format("LSP[%s]", name)]. *)
Definition client_name (cfg : config) (client_id : Z) : string :=
  default (pretty client_id) (cfg_name cfg).
Definition log_prefix (cfg : config) (client_id : Z) : string :=
  "LSP[" ++ client_name cfg client_id ++ "]".

(** [callbacks[method] or default_callbacks[method]]. *)
Definition resolve_callback (e : env) (cfg : config) (method : string)
  : option fn :=
  match cfg_callbacks cfg !! method with
  | Some f => Some f
  | None => default_callbacks e !! method
  end.

Definition handlers_server_request (e : env) (cfg : config) (client_id : Z)
           (method : string) (params : value) : lua (list value) :=
  match resolve_callback e cfg method with
  | Some callback =>
      user e callback [VNil; VStr method; params; VNum client_id]
  | None =>
      ret [VNil; rpc_response_error e (MethodNotFound e) None]
  end.

Definition handlers_on_error (e : env) (cfg : config) (client_id : Z)
           (code : Z) (err : value) : lua unit :=
  let* _ := err_message [log_prefix cfg client_id; ": Error ";
                         client_errors e code; ": "; inspect e err] in
  match cfg_on_error cfg with
  | Some on_error =>
      let* r := pcall (user e on_error [VNum code; err]) in
      match r with
      | inl usererr =>
          err_message [log_prefix cfg client_id; " user on_error failed: ";
                       tostring e usererr]
      | inr _ => ret tt
      end
  | None => ret tt
  end.

(** The buffers whose table of clients has [client_id]. *)
Definition buffers_of (client_id : Z) (buffers : gmap Z (gset Z)) : list Z :=
  (map_to_list (filter (fun kv => client_id ∈ kv.2) buffers)).*1.

Definition handlers_on_exit (e : env) (cfg : config) (client_id : Z)
           (code signal : Z) : lua unit :=
  let* s := get in
  let active_buffers := buffers_of client_id (all_buffer_active_clients s) in
  let* _ := put (set_client_tables
                   (active_clients s ∖ {[client_id]})
                   (uninitialized_clients s ∖ {[client_id]})
                   ((fun client_ids => client_ids ∖ {[client_id]})
                      <$> all_buffer_active_clients s) s) in
  let* _ := modify (fun s => set_scheduled
                               (scheduled s ++ [ClearDiagnostics active_buffers]) s) in
  match cfg_on_exit cfg with
  | Some on_exit =>
      let* _ := pcall (user e on_exit [VNum code; VNum signal; VNum client_id]) in
      ret tt
  | None => ret tt
  end.

(** *** The methods of a client object *)

(** The test of [client.request]: the method is one of the nine that
    need a capability, and the server does not have it. *)
Definition capability_missing (caps : capabilities) (method : string) : bool :=
  (negb (hover caps) && bool_decide (method = "textDocument/hover"))
  || (negb (signature_help caps) && bool_decide (method = "textDocument/signatureHelp"))
  || (negb (goto_definition caps) && bool_decide (method = "textDocument/definition"))
  || (negb (implementation caps) && bool_decide (method = "textDocument/implementation"))
  || (negb (declaration caps) && bool_decide (method = "textDocument/declaration"))
  || (negb (type_definition caps) && bool_decide (method = "textDocument/typeDefinition"))
  || (negb (document_symbol caps) && bool_decide (method = "textDocument/documentSymbol"))
  || (negb (workspace_symbol caps) && bool_decide (method = "textDocument/workspaceSymbol"))
  || (negb (call_hierarchy caps) && bool_decide (method = "textDocument/prepareCallHierarchy")).

Definition unsupported_method (e : env) (method : string) : lua value :=
  let msg := ("server doesn't support " ++ method)%string in
  let* _ := err_message [msg] in
  ret (rpc_response_error e (MethodNotFound e) (Some msg)).

(** [string.format("%q", s)] as Lua 5.1 does it: the string between
    double quotes, with a backslash put before every double quote,
    backslash and newline in it, a carriage return written as a
    backslash and [r], and a zero byte as a backslash and [000]. *)
Definition dquote : string := String (ascii_of_nat 34) EmptyString.
Definition backslash : ascii := ascii_of_nat 92.

Fixpoint quoted (s : string) : string :=
  match s with
  | EmptyString => EmptyString
  | String c rest =>
      let n := nat_of_ascii c in
      if ((n =? 34) || (n =? 92) || (n =? 10))%nat
      then String backslash (String c (quoted rest))
      else if (n =? 13)%nat then String backslash (String "r" (quoted rest))
      else if (n =? 0)%nat
           then String backslash (String "0" (String "0" (String "0" (quoted rest))))
      else String c (quoted rest)
  end.

Definition format_q (s : string) : string := dquote ++ quoted s ++ dquote.

(** [client.request(method, params, callback, bufnr)]; the values
    returned are those of [rpc.request], or none at all. *)
Definition client_request (e : env) (client_id : Z) (method : string)
           (params : value) (callback : option callback) (bufnr : value)
  : lua (list value) :=
  let* c := client_object client_id in
  let* callback :=
    match callback with
    | Some cb => ret cb
    | None =>
        match resolve_callback e (client_config c) method with
        | Some f => ret (UserFn f)
        | None =>
            error_at e 639
                     ("not found: " ++ format_q method
                      ++ " request callback for client "
                      ++ format_q (client_name (client_config c) client_id)
                      ++ ".")
        end
    end in
  let* caps :=
    match resolved_capabilities c with
    | Some caps => ret caps
    | None => raise (VStr "attempt to index field 'resolved_capabilities' (a nil value)")
    end in
  if capability_missing caps method then
    let* err := unsupported_method e method in
    let* _ := apply_callback e callback
                             [err; VStr method; VNil; VNum client_id; bufnr] in
    ret []
  else
    on_rpc client_id
           (rpc_request method params
                        {| rc_callback := callback; rc_method := method;
                           rc_client_id := client_id; rc_bufnr := bufnr |}).

(** [client.notify(...)]. *)
Definition client_notify (client_id : Z) (method : string) (params : value)
  : lua (list value) :=
  on_rpc client_id (rpc_notify method params).

(** [client.cancel_request(id)]; [id] is a number, as [validate] asks. *)
Definition client_cancel_request (client_id : Z) (id : Z) : lua (list value) :=
  on_rpc client_id (rpc_notify "$/cancelRequest" (VTable [("id", VNum id)])).

(** *** Requests to the clients of a buffer *)

(** [active_clients[client_id]]: the id, when the table maps it. *)
Definition active_client (client_id : Z) (s : lsp_state) : bool :=
  bool_decide (client_id ∈ active_clients s).

(** [for_each_buffer_client(bufnr, callback)]: nothing is done for a
    buffer without a table of clients or with an empty one; a client id
    that [active_clients] does not map is skipped.  The callback is a
    closure that updates a local of its maker; that local is threaded
    through the calls as [acc]. *)
Definition for_each_buffer_client {A : Type} (bufnr : option Z)
           (callback : Z -> Z -> A -> lua A) (acc : A) : lua A :=
  let* s := get in
  let bufnr := resolve_bufnr bufnr s in
  match all_buffer_active_clients s !! bufnr with
  | None => ret acc
  | Some client_ids =>
      (fix loop (ids : list Z) (acc : A) : lua A :=
         match ids with
         | [] => ret acc
         | client_id :: rest =>
             let* s := get in
             let* acc := if active_client client_id s
                         then callback client_id bufnr acc
                         else ret acc in
             loop rest acc
         end) (elements client_ids) acc
  end.

(** [lsp.buf_request(bufnr, method, params, callback)]: the map
    [client_request_ids]; the second value returned, the function
    [_cancel_all_requests], is [cancel_all_requests] below applied to
    that map. *)
Definition buf_request (e : env) (bufnr : option Z) (method : string)
           (params : value) (callback : option callback) : lua (gmap Z Z) :=
  for_each_buffer_client bufnr
    (fun client_id resolved_bufnr client_request_ids =>
       let* r := client_request e client_id method params callback
                                (VNum resolved_bufnr) in
       if truthy (nth_value 0 r) then
         match nth_value 1 r with
         | VNum request_id => ret (<[client_id := request_id]> client_request_ids)
         | _ => ret client_request_ids
         end
       else ret client_request_ids)
    ∅.

(** The body of the loop of [_cancel_all_requests]:
    [local client = active_clients[client_id]] and
    [client.cancel_request(request_id)]. *)
Definition cancel_one (entry : Z * Z) : lua unit :=
  let '(client_id, request_id) := entry in
  let* s := get in
  if active_client client_id s then
    let* _ := client_cancel_request client_id request_id in
    ret tt
  else
    raise (VStr "attempt to index local 'client' (a nil value)").

Definition cancel_all_requests (client_request_ids : gmap Z Z) : lua unit :=
  for_each (map_to_list client_request_ids) cancel_one.

(** *** The event loop while [vim.wait] runs *)

(** What can reach the module between two polls: a response frame from
    the server of a client, or the exit of that server. *)
Inductive event : Type :=
| Response (client_id id : Z) (err result : value)
| Exit (client_id code signal : Z).

(** One polling interval: the events handled in it, or the user's
    interrupt. *)
Inductive turn : Type :=
| Turn (events : list event)
| Interrupt.

(** Modelled from the spec: the RPC client once "the underlying Job has
    exited". *)
Definition shut_down (r : rpc_client) : rpc_client :=
  {| message_index := message_index r; pending := pending r;
     sent := sent r; closing := true |}.

Definition close_rpc (c : client) : client := set_rpc (shut_down (rpc c)) c.

(** Modelled from the spec: what [vim.lsp.rpc], which is not under src/,
    does with what comes from the server.  A response frame goes to the
    response dispatch; on the exit of the server process the RPC client
    is closed ("the underlying Job has exited") and the exit is delivered
    to [handlers.on_exit] ("exactly one onExit(code, signal) callback per
    Job"). *)
Definition handle_event (e : env) (ev : event) : lua unit :=
  match ev with
  | Response client_id id err result => rpc_on_response e client_id id err result
  | Exit client_id code signal =>
      let* c := client_object client_id in
      let* _ := modify (fun s => set_clients (<[client_id := close_rpc c]> (clients s)) s) in
      handlers_on_exit e (client_config c) client_id code signal
  end.

(** Modelled from the spec: [vim.wait(timeout, predicate, interval)],
    whose code is not under src/.  "Pumps the event loop internally";
    "a millisecond budget, polled at a fixed interval"; "a distinct
    status for {completed, timed-out, interrupted}": [true] as soon as
    the predicate holds, [false, -1] when the budget of
    [timeout / interval] polls is used up, [false, -2] on an interrupt. *)
Fixpoint wait_polls (e : env) (polls : nat) (predicate : lsp_state -> bool)
         (turns : list turn) : lua (list value) :=
  let* s := get in
  if predicate s then ret [VBool true]
  else
    match polls with
    | O => ret [VBool false; VNum (-1)]
    | S polls' =>
        match turns with
        | [] => wait_polls e polls' predicate []
        | Interrupt :: _ => ret [VBool false; VNum (-2)]
        | Turn events :: rest =>
            let* _ := for_each events (handle_event e) in
            wait_polls e polls' predicate rest
        end
    end.

Definition vim_wait (e : env) (timeout : Z) (predicate : lsp_state -> bool)
           (interval : Z) (turns : list turn) : lua (list value) :=
  wait_polls e (Z.to_nat (timeout / interval)) predicate turns.

(** *** [lsp.buf_request_sync] *)

(** [wait_result_reason[reason]]. *)
Definition wait_result_reason (reason : value) : option string :=
  match reason with
  | VNum (-1) => Some "timeout"
  | VNum (-2) => Some "interrupted"
  | VNum (-3) => Some "error"
  | _ => None
  end.

(** What the call returns: the table [request_results], or [nil] and
    the reason (itself [nil] for a reason the table does not have). *)
Inductive sync_result : Type :=
| Results (request_results : gmap Z (value * value))
| Failure (reason : option string).

(** The state with the locals of a new call of [buf_request_sync]:
    [request_results = {}] and [result_count = 0]. *)
Definition new_sync_call (s : lsp_state) : lsp_state :=
  set_sync_calls (sync_calls s ++ [new_sync_locals]) s.

(** [lsp.buf_request_sync(bufnr, method, params, timeout_ms)]; [turns]
    is what the event loop brings while the call waits.  The locals the
    call makes are those of the call number [length (sync_calls s)]. *)
Definition buf_request_sync (e : env) (bufnr : option Z) (method : string)
           (params : value) (timeout_ms : option Z) (turns : list turn)
  : lua sync_result :=
  let* s := get in
  let call := length (sync_calls s) in
  let* _ := put (new_sync_call s) in
  let* client_request_ids :=
    buf_request e bufnr method params (Some (SyncCallback call)) in
  let expected_result_count := Z.of_nat (size client_request_ids) in
  let* w := vim_wait e (default 100 timeout_ms)
                     (fun s => expected_result_count
                               <=? result_count (locals_of call s))
                     10 turns in
  if negb (truthy (nth_value 0 w)) then
    let* _ := cancel_all_requests client_request_ids in
    ret (Failure (wait_result_reason (nth_value 1 w)))
  else
    let* s := get in
    ret (Results (request_results (locals_of call s))).

(** *** Sample data *)

Definition initial_state : lsp_state :=
  {| client_index := 0; clients := ∅; active_clients := ∅;
     uninitialized_clients := ∅; all_buffer_active_clients := ∅;
     current_buf := 1; ui := []; scheduled := [];
     sync_calls := [] |}.

(** Functions from outside: ["show"] writes its third argument on the
    error surface when it is a string, ["boom"] raises an error, every
    other name does nothing. *)
Definition sample_user (f : fn) (args : list value) : lua (list value) :=
  if bool_decide (f = "boom") then raise (VStr "boom")
  else if bool_decide (f = "show") then
    match nth_value 2 args with
    | VStr text => let* _ := err_message [text] in ret []
    | _ => ret []
    end
  else ret [].

Definition sample_env : env :=
  {| user := sample_user;
     default_callbacks := {[ "window/showMessage" := "show" ]};
     client_errors := fun code => pretty code;
     MethodNotFound := -32601;
     error_code_name := fun code =>
       if code =? -32601 then "MethodNotFound" else pretty code;
     inspect := fun v => match v with VStr s => s | _ => "?" end;
     tostring := fun v => match v with VStr s => s | _ => "?" end;
     chunkname := "vim/lsp.lua" |}.

Definition sample_config : config :=
  {| cfg_name := Some "clangd"; cfg_callbacks := ∅;
     cfg_on_error := None; cfg_on_exit := None |}.

(** A client with id 1, initialized, attached to buffer 1; its server
    has every capability but [hover]. *)
Definition sample_capabilities : capabilities :=
  {| hover := false; signature_help := true; goto_definition := true;
     implementation := true; declaration := true; type_definition := true;
     document_symbol := true; workspace_symbol := true;
     call_hierarchy := true |}.

(** Modelled from the spec: the RPC client as [rpc.start] makes it; no
    id has been given out, nothing is pending and nothing is written. *)
Definition new_rpc : rpc_client :=
  {| message_index := 0; pending := ∅; sent := []; closing := false |}.

Definition sample_client (cfg : config) : client :=
  {| client_config := cfg; rpc := new_rpc;
     resolved_capabilities := Some sample_capabilities |}.

Definition sample_state (cfg : config) : lsp_state :=
  {| client_index := 1; clients := {[ 1 := sample_client cfg ]};
     active_clients := {[ 1 ]}; uninitialized_clients := ∅;
     all_buffer_active_clients := {[ 1 := {[ 1 ]} ]};
     current_buf := 1; ui := []; scheduled := [];
     sync_calls := [] |}.

(** A config whose [on_error] and [on_exit] both raise an error. *)
Definition failing_config : config :=
  {| cfg_name := Some "clangd"; cfg_callbacks := ∅;
     cfg_on_error := Some "boom"; cfg_on_exit := Some "boom" |}.

(** A config with a callback of its own for ["window/showMessage"], for
    which there is a default callback as well. *)
Definition custom_config : config :=
  {| cfg_name := Some "clangd";
     cfg_callbacks := {[ "window/showMessage" := "boom" ]};
     cfg_on_error := None; cfg_on_exit := None |}.

(** The sample state after the server of client 1 has exited and before
    the exit is handled: the RPC client has shut down. *)
Definition closed_state : lsp_state :=
  set_clients {[ 1 := close_rpc (sample_client sample_config) ]}
              (sample_state sample_config).

(** *** Statements about [client.request] *)

(** The callback [client.request] goes on with: the one given, or the
    one [resolve_callback] finds. *)
Definition chosen_callback (e : env) (c : client) (method : string)
           (given : option callback) : option callback :=
  match given with
  | Some cb => Some cb
  | None => UserFn <$> resolve_callback e (client_config c) method
  end.

(** "A fresh correlation id is allocated, the callback is recorded for
    that id, the request frame is written, and the id is returned." *)
Definition request_allocates (e : env) (client_id : Z) (method : string)
           (params : value) (callback : option callback) (bufnr : value)
           (s : lsp_state) : Prop :=
  exists (id : Z) (status : value) (s' : lsp_state) (c c' : client)
         (cl : request_closure),
    clients s !! client_id = Some c /\
    client_request e client_id method params callback bufnr s
    = Ok [status; VNum id] s' /\
    clients s' !! client_id = Some c' /\
    pending (rpc c) !! id = None /\
    pending (rpc c') !! id = Some cl /\
    sent (rpc c') = sent (rpc c) ++ [Request id method params].

(** The ids of the pending map were all given out before. *)
Definition pending_allocated (r : rpc_client) : Prop :=
  forall id, is_Some (pending r !! id) -> id <= message_index r.

(** The frame of the [$/cancelRequest] notification. *)
Definition cancel_frame (id : Z) : frame :=
  Notification "$/cancelRequest" (VTable [("id", VNum id)]).

(** The RPC client after the entry of [id] is taken out of the pending
    map. *)
Definition without_pending (id : Z) (r : rpc_client) : rpc_client :=
  {| message_index := message_index r; pending := delete id (pending r);
     sent := sent r; closing := closing r |}.

(** What happens to the RPC client of a client object after
    [rpc.start] has made it: requests and notifications are sent through
    it, responses are dispatched, which takes their id out of the
    pending map, and the server exits. *)
Inductive rpc_op : Type :=
| RpcRequest (method : string) (params : value) (callback : request_closure)
| RpcNotify (method : string) (params : value)
| RpcResponse (id : Z)
| RpcExit.

Definition rpc_apply (r : rpc_client) (op : rpc_op) : rpc_client :=
  match op with
  | RpcRequest method params callback => (rpc_request method params callback r).2
  | RpcNotify method params => (rpc_notify method params r).2
  | RpcResponse id => without_pending id r
  | RpcExit => shut_down r
  end.

(** The RPC client with the given history. *)
Definition rpc_after (history : list rpc_op) : rpc_client :=
  foldl rpc_apply new_rpc history.


(** *** [validate_encoding] *)

(** The table [valid_encodings]. *)
Definition valid_encodings : gmap string string :=
  list_to_map
    [("utf-8", "utf-8"); ("utf-16", "utf-16"); ("utf-32", "utf-32");
     ("utf8", "utf-8"); ("utf16", "utf-16"); ("utf32", "utf-32");
     ("UTF8", "utf-8"); ("UTF16", "utf-16"); ("UTF32", "utf-32")].

(** [encoding:lower()]: the letters [A] to [Z] become [a] to [z]. *)
Definition lower_byte (c : ascii) : ascii :=
  let n := nat_of_ascii c in
  if ((65 <=? n) && (n <=? 90))%nat then ascii_of_nat (n + 32) else c.

Fixpoint lower (s : string) : string :=
  match s with
  | EmptyString => EmptyString
  | String c rest => String (lower_byte c) (lower rest)
  end.

Definition validate_encoding (e : env) (encoding : string) : lua string :=
  match valid_encodings !! lower encoding with
  | Some name => ret name
  | None =>
      error_at e 127
               ("Invalid offset encoding " ++ format_q encoding
                ++ ". Must be one of: 'utf-8', 'utf-16', 'utf-32'")
  end.

(** *** Looking clients up *)

(** [lsp.get_client_by_id(client_id)]: [active_clients[client_id]]. *)
Definition get_client_by_id (client_id : Z) (s : lsp_state) : option client :=
  if active_client client_id s then clients s !! client_id else None.

(** [lsp.client_is_stopped(client_id)]: [active_clients[client_id] == nil]. *)
Definition client_is_stopped (client_id : Z) (s : lsp_state) : bool :=
  negb (active_client client_id s).

(** [lsp.buf_is_attached(bufnr, client_id)]:
    [(all_buffer_active_clients[bufnr] or {})[client_id] == true]. *)
Definition buf_is_attached (bufnr client_id : Z) (s : lsp_state) : bool :=
  match all_buffer_active_clients s !! bufnr with
  | Some client_ids => bool_decide (client_id ∈ client_ids)
  | None => false
  end.

(** *** [handlers.notification] *)

Definition handlers_notification (e : env) (cfg : config) (client_id : Z)
           (method : string) (params : value) : lua unit :=
  match resolve_callback e cfg method with
  | Some callback =>
      let* _ := user e callback [VNil; VStr method; params; VNum client_id] in
      ret tt
  | None => ret tt
  end.

(** *** [lsp.buf_notify] *)

Definition buf_notify (bufnr : option Z) (method : string) (params : value)
  : lua bool :=
  let resp := false in
  for_each_buffer_client bufnr
    (fun client_id _resolved_bufnr resp =>
       let* r := on_rpc client_id (rpc_notify method params) in
       if truthy (nth_value 0 r) then ret true else ret resp)
    resp.

(** *** [once] *)

(** The function [once(fn)] returns, called with [args]: its upvalue
    [value] is kept beside the state [fn] works on. *)
Definition once_call {S : Type} (fn : list value -> M value S (list value))
           (args : list value) : M value (S * value) value :=
  fun '(s, value) =>
    if negb (truthy value) then
      match fn args s with
      | Ok r s' => Ok (nth_value 0 r) (s', nth_value 0 r)
      | Raised err s' => Raised err (s', value)
      end
    else Ok value (s, value).

(** The state in which [handlers.on_exit] calls the user's [on_exit]. *)
Definition exited (client_id : Z) (s : lsp_state) : lsp_state :=
  set_scheduled
    (scheduled s ++ [ClearDiagnostics
                       (buffers_of client_id (all_buffer_active_clients s))])
    (set_client_tables
       (active_clients s ∖ {[client_id]})
       (uninitialized_clients s ∖ {[client_id]})
       ((fun client_ids => client_ids ∖ {[client_id]})
          <$> all_buffer_active_clients s) s).


(** The loop of [for_each_buffer_client], by itself. *)
Fixpoint visit_clients {A : Type} (callback : Z -> Z -> A -> lua A) (bufnr : Z)
         (ids : list Z) (acc : A) : lua A :=
  match ids with
  | [] => ret acc
  | client_id :: rest =>
      let* s := get in
      let* acc := if active_client client_id s
                  then callback client_id bufnr acc
                  else ret acc in
      visit_clients callback bufnr rest acc
  end.

(** A client object after [client.rpc.notify(method, params)]. *)
Definition notified (method : string) (params : value) (c : client) : client :=
  set_rpc (rpc_notify method params (rpc c)).2 c.

(** The client with the given id is there and its RPC client has not
    shut down. *)
Definition rpc_open (client_id : Z) (m : gmap Z client) : bool :=
  match m !! client_id with
  | Some c => negb (closing (rpc c))
  | None => false
  end.


(** The sample state after [buf_request] has sent the request of a
    [buf_request_sync] on buffer 1. *)
Definition waiting_state : lsp_state :=
  state_of (buf_request sample_env (Some 1) "textDocument/references" VNil
                        (Some (SyncCallback 0))
                        (new_sync_call (sample_state sample_config))).

(** The calls of [once(fn)] with the given lists of arguments, one after
    the other: what each returned or raised, and the state at the end. *)
Fixpoint once_calls {S : Type} (fn : list value -> M value S (list value))
         (calls : list (list value)) (st : S * value)
  : list (value + value) * (S * value) :=
  match calls with
  | [] => ([], st)
  | args :: rest =>
      let o := once_call fn args st in
      let '(results, st') := once_calls fn rest (state_of o) in
      (value_of o :: results, st')
  end.


(** *** [client.stop] *)

(** The process handle [rpc.handle]: whether it is closing, and the
    signals sent to the process with [handle:kill]. *)
Record process_handle : Type :=
  { is_closing : bool;
    signals : list Z }.

(** What [client.stop] reads and writes: [client.initialized], its
    upvalue [tried_graceful_shutdown], the handle, and of the RPC client
    the last id given out, the ids of the [shutdown] requests that wait
    for their response, and the frames written. *)
Record stopping_client : Type :=
  { initialized : bool;
    tried_graceful_shutdown : bool;
    handle : process_handle;
    request_index : Z;
    awaiting_shutdown : list Z;
    written : list frame }.

(** [handle:kill(sig)]. *)
Definition kill (sig : Z) (c : stopping_client) : stopping_client :=
  {| initialized := initialized c;
     tried_graceful_shutdown := tried_graceful_shutdown c;
     handle := {| is_closing := is_closing (handle c);
                  signals := signals (handle c) ++ [sig] |};
     request_index := request_index c;
     awaiting_shutdown := awaiting_shutdown c;
     written := written c |}.

(** [tried_graceful_shutdown = true] and [rpc.request('shutdown', nil,
    function(err, _) ... end)]; the request is modelled from the spec as
    [rpc_request] is: a new id, the callback recorded for it, the frame
    written. *)
Definition request_shutdown (c : stopping_client) : stopping_client :=
  let id := request_index c + 1 in
  {| initialized := initialized c;
     tried_graceful_shutdown := true;
     handle := handle c;
     request_index := id;
     awaiting_shutdown := id :: awaiting_shutdown c;
     written := written c ++ [Request id "shutdown" VNil] |}.

(** [client.stop(force)]. *)
Definition client_stop (force : bool) (c : stopping_client) : stopping_client :=
  if is_closing (handle c) then c
  else if force || negb (initialized c) || tried_graceful_shutdown c
       then kill 15 c
       else request_shutdown c.

(** The calls [client.stop(force)] for the given values of [force], one
    after the other. *)
Definition client_stops (forces : list bool) (c : stopping_client)
  : stopping_client :=
  foldl (fun c force => client_stop force c) c forces.


(** *** [buf_get_full_text] *)

Definition newline : Util.lua_string := [ascii_of_nat 10].

(** [buf_get_full_text(bufnr)], with what the buffer gives as parameters:
    [lines] for [nvim_buf_get_lines(bufnr, 0, -1, true)] and [eol] for
    the option ['eol']. *)
Definition buf_get_full_text (lines : list Util.lua_string) (eol : bool)
  : Util.lua_string :=
  let text := Util.concat lines newline in
  if eol then text ++ newline else text.

(** *** [lsp.buf_get_clients] *)

(** [lsp.buf_get_clients(bufnr)]: the keys of the table returned; each
    is mapped to the client object of that id. *)
Definition buf_get_clients (bufnr : option Z) : lua (gset Z) :=
  let* s := get in
  let bufnr := resolve_bufnr bufnr s in
  for_each_buffer_client (Some bufnr)
    (fun client_id _resolved_bufnr result => ret ({[client_id]} ∪ result))
    ∅.


(** *** Statements about [lsp.buf_request] *)


(** The client object after such a request. *)
Definition requested (e : env) (method : string) (params : value)
           (given : option callback) (bufnr client_id : Z) (c : client) : client :=
  match chosen_callback e c method given with
  | Some cb =>
      set_rpc (rpc_request method params
                           {| rc_callback := cb; rc_method := method;
                              rc_client_id := client_id;
                              rc_bufnr := VNum bufnr |} (rpc c)).2 c
  | None => c
  end.

End Lsp.


(* ===================================================================== *)
(** * Properties                                                          *)
(* ===================================================================== *)

Module DocmdFacts.
Import Docmd.

Lemma flag_value_pow2 (f : docmd_flag) : flag_value f = 2 ^ flag_bit f.
Proof. destruct f; reflexivity. Qed.

Lemma flag_bit_nonneg (f : docmd_flag) : 0 <= flag_bit f.
Proof. destruct f; simpl; lia. Qed.

Lemma flag_bit_inj (f g : docmd_flag) : flag_bit f = flag_bit g -> f = g.
Proof. destruct f, g; simpl; intros H; try reflexivity; discriminate H. Qed.

(** Masking with a single bit yields that bit or nothing. *)
Lemma land_pow2 (x k : Z) :
  0 <= k -> Z.land x (2 ^ k) = if Z.testbit x k then 2 ^ k else 0.
Proof.
  intros Hk. apply Z.bits_inj'. intros n Hn.
  rewrite Z.land_spec, Z.pow2_bits_eqb by lia.
  destruct (Z.eqb_spec k n) as [->|Hne].
  - destruct (Z.testbit x n) eqn:E; simpl.
    + rewrite Z.pow2_bits_true; auto.
    + now rewrite Z.bits_0.
  - rewrite andb_false_r.
    destruct (Z.testbit x k).
    + rewrite Z.pow2_bits_false; auto.
    + now rewrite Z.bits_0.
Qed.

Lemma has_flag_testbit (flags : Z) (f : docmd_flag) :
  has_flag flags f = Z.testbit flags (flag_bit f).
Proof.
  unfold has_flag. rewrite flag_value_pow2, land_pow2 by apply flag_bit_nonneg.
  destruct (Z.testbit flags (flag_bit f)); [|reflexivity].
  destruct f; reflexivity.
Qed.

Lemma has_set_flag (flags : Z) (f g : docmd_flag) :
  has_flag (set_flag flags f) g =
  has_flag flags g || bool_decide (f = g).
Proof.
  rewrite !has_flag_testbit. unfold set_flag.
  rewrite Z.lor_spec, flag_value_pow2, Z.pow2_bits_eqb by apply flag_bit_nonneg.
  f_equal. case_bool_decide as E.
  - subst. apply Z.eqb_refl.
  - apply Z.eqb_neq. intros H. apply E, flag_bit_inj, H.
Qed.

Lemma has_clear_flag (flags : Z) (f g : docmd_flag) :
  has_flag (clear_flag flags f) g =
  has_flag flags g && negb (bool_decide (f = g)).
Proof.
  rewrite !has_flag_testbit. unfold clear_flag.
  rewrite Z.land_spec, Z.lnot_spec by apply flag_bit_nonneg.
  rewrite flag_value_pow2, Z.pow2_bits_eqb by apply flag_bit_nonneg.
  f_equal. f_equal. case_bool_decide as E.
  - subst. apply Z.eqb_refl.
  - apply Z.eqb_neq. intros H. apply E, flag_bit_inj, H.
Qed.

(** C7. The six [DOCMD_*] flags are single bits (each value is a power
    of two, [2 ^ flag_bit f] with [flag_bit f] in [0..5]) and pairwise
    distinct; hence in any [flags] word, setting or clearing one flag
    gives that flag the requested state and leaves the state of each of
    the other five as it was. *)
Theorem docmd_flags_independent :
  (forall f, flag_value f = 2 ^ flag_bit f /\ 0 <= flag_bit f <= 5) /\
  (forall f g, f <> g -> flag_value f <> flag_value g) /\
  (forall flags f,
      has_flag (set_flag flags f) f = true /\
      has_flag (clear_flag flags f) f = false) /\
  (forall flags f g, f <> g ->
      has_flag (set_flag flags f) g = has_flag flags g /\
      has_flag (clear_flag flags f) g = has_flag flags g).
Proof.
  split; [|split; [|split]].
  - intros f. split; [apply flag_value_pow2|].
    split; [apply flag_bit_nonneg|destruct f; simpl; lia].
  - intros f g Hne E. apply Hne, flag_bit_inj.
    rewrite !flag_value_pow2 in E.
    apply (Z.pow_inj_r 2); auto using flag_bit_nonneg; lia.
  - intros flags f. split.
    + rewrite has_set_flag, bool_decide_eq_true_2 by reflexivity.
      apply orb_true_r.
    + rewrite has_clear_flag, bool_decide_eq_true_2 by reflexivity.
      apply andb_false_r.
  - intros flags f g Hne. split.
    + rewrite has_set_flag, bool_decide_eq_false_2 by assumption.
      apply orb_false_r.
    + rewrite has_clear_flag, bool_decide_eq_false_2 by assumption.
      apply andb_true_r.
Qed.

Lemma docmd_flags_independent_witness :
  flag_value Verbose <> flag_value Keepline /\
  has_flag (set_flag 0x14 Nowait) Repeat = has_flag 0x14 Repeat /\
  has_flag (clear_flag 0x14 Repeat) Excreset = has_flag 0x14 Excreset.
Proof.
  destruct docmd_flags_independent as (_ & Hd & _ & Hi).
  split; [apply Hd; discriminate|].
  split; [apply (Hi 0x14 Nowait Repeat); discriminate
         |apply (Hi 0x14 Repeat Excreset); discriminate].
Defined.


(** *** Combinations of flags *)

Lemma lor_below_pow2 (a b n : Z) :
  0 <= n -> 0 <= a < 2 ^ n -> 0 <= b < 2 ^ n -> 0 <= Z.lor a b < 2 ^ n.
Proof.
  intros Hn Ha Hb. split; [apply Z.lor_nonneg; lia|].
  destruct (Z.eq_dec (Z.lor a b) 0) as [->|Hne]; [apply Z.pow_pos_nonneg; lia|].
  apply Z.log2_lt_pow2; [pose proof (proj2 (Z.lor_nonneg a b)); lia|].
  rewrite Z.log2_lor by lia.
  destruct (Z.eq_dec a 0) as [->|Ha0]; destruct (Z.eq_dec b 0) as [->|Hb0].
  - now rewrite Z.lor_0_l in Hne.
  - rewrite Z.max_r by (apply Z.log2_nonneg). apply Z.log2_lt_pow2; lia.
  - rewrite Z.max_l by (apply Z.log2_nonneg). apply Z.log2_lt_pow2; lia.
  - apply Z.max_lub_lt; apply Z.log2_lt_pow2; lia.
Qed.

Lemma foldl_set_flag (fs : list docmd_flag) :
  forall w,
    0 <= w < 64 ->
    0 <= foldl set_flag w fs < 64 /\
    forall f, has_flag (foldl set_flag w fs) f = has_flag w f || bool_decide (f ∈ fs).
Proof.
  induction fs as [|g fs IH]; intros w Hw; cbn [foldl].
  - split; [exact Hw|]. intros f.
    rewrite bool_decide_eq_false_2 by apply not_elem_of_nil.
    now rewrite orb_false_r.
  - assert (Hw' : 0 <= set_flag w g < 64).
    { unfold set_flag. change 64 with (2 ^ 6).
      apply (lor_below_pow2 w (flag_value g) 6); [lia|exact Hw|].
      rewrite flag_value_pow2. pose proof (flag_bit_nonneg g).
      split; [apply Z.pow_nonneg; lia|].
      apply Z.pow_lt_mono_r; [lia|lia|destruct g; simpl; lia]. }
    destruct (IH _ Hw') as [Hb Hf]. split; [exact Hb|].
    intros f. rewrite Hf, has_set_flag, <- orb_assoc. f_equal.
    destruct (decide (g = f)) as [->|Hne].
    + rewrite (bool_decide_eq_true_2 (f = f)) by reflexivity.
      rewrite (bool_decide_eq_true_2 (f ∈ f :: fs)) by left. reflexivity.
    + rewrite (bool_decide_eq_false_2 (g = f)) by exact Hne. cbn [orb].
      apply bool_decide_ext. rewrite elem_of_cons. intuition congruence.
Qed.

(** X1. Any combination of the six flags can be passed in one [flags]
    word and read back: the values of the flags of a list, or-ed
    together, give a word in [0, 0x3f], and a flag tests as set in that
    word exactly when it is in the list. *)
Theorem flags_of_roundtrip (fs : list docmd_flag) :
  0 <= flags_of fs <= 0x3f /\
  forall f, has_flag (flags_of fs) f = bool_decide (f ∈ fs).
Proof.
  destruct (foldl_set_flag fs 0) as [Hb Hf]; [lia|].
  split; [unfold flags_of; lia|]. intros f. unfold flags_of. rewrite Hf.
  reflexivity.
Qed.

End DocmdFacts.

Module UtilFacts.
Import Util.
Local Open Scope nat_scope.

Example split_csv :
  split (str "a,b,,c") (str ",") None =
  Returns [str "a"; str "b"; str ""; str "c"].
Proof. reflexivity. Qed.

Example split_two_byte_sep :
  split (str "k::v::") (str "::") None = Returns [str "k"; str "v"; str ""].
Proof. reflexivity. Qed.

Example split_limit :
  split (str "a,b,c") (str ",") (Some 1%Z) = Returns [str "a"; str "b,c"].
Proof. reflexivity. Qed.

Example split_empty_sep : split (str "abc") [] None = AssertionFailed.
Proof. reflexivity. Qed.


(** *** Searching *)

Lemma starts_with_take (p s : lua_string) :
  starts_with p s = true -> length p <= length s /\ take (length p) s = p.
Proof.
  revert s. induction p as [|a p IH]; intros [|b s]; simpl; intros H;
    try discriminate; try (split; [lia|reflexivity]).
  apply andb_prop in H as [Hab Hp].
  apply Ascii.eqb_eq in Hab as ->.
  destruct (IH _ Hp) as [Hlen Htake]. split; [lia|now rewrite Htake].
Qed.

Lemma lmemfind_Some (s sep : lua_string) (m : nat) :
  lmemfind s sep = Some m ->
  m + length sep <= length s /\ take (length sep) (drop m s) = sep.
Proof.
  revert m. induction s as [|b s IH]; intros m; simpl.
  - destruct (starts_with sep []) eqn:E; [|discriminate].
    intros [= <-]. apply starts_with_take in E. simpl in *. tauto.
  - destruct (starts_with sep (b :: s)) eqn:E.
    + intros [= <-]. apply starts_with_take in E. simpl in *. tauto.
    + destruct (lmemfind s sep) as [k|] eqn:F; simpl; [|discriminate].
      intros [= <-]. destruct (IH k eq_refl) as [Hlen Htake].
      simpl. split; [lia|exact Htake].
Qed.

(** A match of [s:find(sep, init, true)] lies at or after [init], inside
    [s], and the bytes it covers are those of [sep]. *)
Lemma find_Some (s sep : lua_string) (init nFirst nLast : nat) :
  1 <= init <= S (length s) ->
  find s sep init = Some (nFirst, nLast) ->
  init <= nFirst /\ nLast + 1 = nFirst + length sep /\
  nLast <= length s /\ take (length sep) (drop (nFirst - 1) s) = sep.
Proof.
  intros Hinit. unfold find.
  replace (Nat.min (init - 1) (length s)) with (init - 1) by lia.
  destruct (lmemfind (drop (init - 1) s) sep) as [m|] eqn:F; [|discriminate].
  intros [= <- <-]. apply lmemfind_Some in F as [Hlen Htake].
  rewrite length_drop in Hlen. rewrite drop_drop in Htake.
  repeat split; try lia.
  now replace (init - 1 + m + 1 - 1) with (init - 1 + m) by lia.
Qed.

Lemma sub_take_drop (s : lua_string) (i j : nat) :
  1 <= i -> j <= length s -> sub s i j = take (j - (i - 1)) (drop (i - 1) s).
Proof.
  intros Hi Hj. unfold sub.
  rewrite Nat.max_l, Nat.min_l by lia.
  destruct (Nat.ltb_spec j i) as [Hlt|Hge]; [|reflexivity].
  now replace (j - (i - 1)) with 0 by lia.
Qed.

Lemma sub_from_drop (s : lua_string) (i : nat) :
  1 <= i -> sub_from s i = drop (i - 1) s.
Proof.
  intros Hi. unfold sub_from. rewrite sub_take_drop by lia.
  apply take_ge. rewrite length_drop. lia.
Qed.

(** *** Joining *)

Lemma fields_then_sep_snoc (fields : list lua_string) (x sep : lua_string) :
  fields_then_sep (fields ++ [x]) sep = fields_then_sep fields sep ++ x ++ sep.
Proof.
  induction fields as [|y fields IH]; simpl.
  - now rewrite app_nil_r.
  - rewrite IH. now rewrite <- !app_assoc.
Qed.

Lemma concat_snoc (fields : list lua_string) (x sep : lua_string) :
  concat (fields ++ [x]) sep = fields_then_sep fields sep ++ x.
Proof.
  induction fields as [|y fields IH]; [reflexivity|].
  change ((y :: fields) ++ [x]) with (y :: (fields ++ [x])).
  destruct (fields ++ [x]) as [|z l] eqn:E.
  - destruct fields; discriminate E.
  - simpl in *. rewrite IH. now rewrite <- !app_assoc.
Qed.

Lemma array_set_next (aRecord : list lua_string) (v : lua_string) :
  array_set aRecord (S (length aRecord)) v = aRecord ++ [v].
Proof. unfold array_set. now rewrite Nat.eqb_refl. Qed.

(** *** The loop *)

Lemma loop_inv_step (s sep : lua_string) aRecord nField nStart nFirst nLast :
  loop_inv s sep aRecord nField nStart ->
  find s sep nStart = Some (nFirst, nLast) ->
  loop_inv s sep (array_set aRecord nField (sub s nStart (nFirst - 1)))
           (nField + 1) (nLast + 1) /\
  (sep <> [] -> nStart < nLast + 1).
Proof.
  intros (-> & Hst & Hjoin) Hfind.
  apply find_Some in Hfind as (Hge & Hlast & Hin & Hsep); [|exact Hst].
  rewrite array_set_next, sub_take_drop by lia.
  split; [|intros Hne; destruct sep; [congruence|simpl in *; lia]].
  split; [rewrite length_app; simpl; lia|].
  split; [lia|].
  rewrite fields_then_sep_snoc, <- !app_assoc.
  transitivity (fields_then_sep aRecord sep ++ drop (nStart - 1) s);
    [f_equal|exact Hjoin].
  rewrite <- (take_drop (nFirst - 1 - (nStart - 1)) (drop (nStart - 1) s)) at 2.
  f_equal. rewrite drop_drop.
  replace (nStart - 1 + (nFirst - 1 - (nStart - 1))) with (nFirst - 1) by lia.
  rewrite <- (take_drop (length sep) (drop (nFirst - 1) s)) at 1.
  rewrite Hsep, drop_drop. do 2 f_equal. lia.
Qed.

(** With a non-empty separator the loop ends before the fuel does, and
    the invariant holds of the locals it ends with. *)
Lemma split_loop_fuel (s sep : lua_string) (fuel : nat) :
  sep <> [] ->
  forall aRecord nField nStart nMax,
    loop_inv s sep aRecord nField nStart ->
    S (length s) - nStart < fuel ->
    exists aRecord' nField' nStart',
      split_loop fuel s sep aRecord nField nStart (find s sep nStart) nMax
      = Returns (aRecord', nField', nStart') /\
      loop_inv s sep aRecord' nField' nStart'.
Proof.
  intros Hsep. induction fuel as [|fuel IH]; intros aRecord nField nStart nMax Hinv Hfuel;
    [lia|].
  simpl. destruct (find s sep nStart) as [[nFirst nLast]|] eqn:Hfind; [|eauto].
  destruct (nMax =? 0)%Z; [eauto|].
  destruct (loop_inv_step _ _ _ _ _ _ _ Hinv Hfind) as [Hinv' Hlt].
  specialize (Hlt Hsep).
  apply IH; [exact Hinv'|]. destruct Hinv' as (_ & ? & _). lia.
Qed.

(** For any field limit, [util.split] returns and the fields it returns,
    joined with the separator, give the string back. *)
Lemma split_concat (s sep : lua_string) (nMax : option Z) :
  sep <> [] ->
  match nMax with None => True | Some n => (1 <= n)%Z end ->
  exists fields, split s sep nMax = Returns fields /\ concat fields sep = s.
Proof.
  intros Hsep Hmax. unfold split.
  rewrite bool_decide_eq_false_2 by exact Hsep.
  replace (match nMax with None => true | Some n => (1 <=? n)%Z end) with true
    by (destruct nMax; [symmetry; apply Z.leb_le; exact Hmax|reflexivity]).
  cbn [negb]. destruct (Nat.ltb_spec 0 (length s)) as [Hlen|Hlen].
  - destruct (split_loop_fuel s sep (S (length s)) Hsep [] 1 1
                (match nMax with Some n => n | None => (-1)%Z end))
      as (aRecord & nField & nStart & Hrun & (-> & Hst & Hjoin)).
    + repeat split; simpl; lia.
    + lia.
    + rewrite Hrun. eexists; split; [reflexivity|].
      rewrite array_set_next, concat_snoc, sub_from_drop by lia. exact Hjoin.
  - destruct s; [|simpl in Hlen; lia]. eexists; split; reflexivity.
Qed.

(** C9. For every string [s] and every non-empty separator [sep], with
    plain matching and no field limit, [util.split(s, sep)] returns a
    list of fields, and joining them with [sep] ([table.concat]) yields
    exactly [s]; for the empty string the list of fields is empty. *)
Theorem split_roundtrip (s sep : lua_string) :
  sep <> [] ->
  (exists fields, split s sep None = Returns fields /\ concat fields sep = s) /\
  split [] sep None = Returns [].
Proof.
  intros Hsep. split.
  - apply split_concat; [exact Hsep|exact I].
  - unfold split. now rewrite bool_decide_eq_false_2 by exact Hsep.
Qed.

Lemma split_roundtrip_witness :
  (exists fields,
      split (str "a,b,,c") (str ",") None = Returns fields /\
      concat fields (str ",") = str "a,b,,c") /\
  split [] (str ",") None = Returns [].
Proof. apply (split_roundtrip (str "a,b,,c") (str ",")). discriminate. Defined.


(** *** More about [util.split] *)

Lemma starts_with_app (p q : lua_string) : starts_with p (p ++ q) = true.
Proof.
  induction p as [|a p IH]; [reflexivity|].
  simpl. now rewrite Ascii.eqb_refl, IH.
Qed.

(** [lmemfind] finds the first occurrence. *)
Lemma lmemfind_first (s sep : lua_string) :
  forall m pre post,
    lmemfind s sep = Some m -> s = pre ++ sep ++ post -> m <= length pre.
Proof.
  induction s as [|b s IH]; intros m pre post; simpl.
  - destruct (starts_with sep []); [|discriminate]. intros [= <-] _. lia.
  - destruct (starts_with sep (b :: s)) eqn:E; [intros [= <-] _; lia|].
    destruct (lmemfind s sep) as [k|] eqn:F; [|discriminate]. simpl.
    intros [= <-] Hs. destruct pre as [|a pre].
    + simpl in Hs. rewrite Hs, starts_with_app in E. discriminate E.
    + injection Hs as -> Hs. simpl. specialize (IH k pre post eq_refl Hs). lia.
Qed.

Lemma lmemfind_None (s sep : lua_string) :
  lmemfind s sep = None -> ~ occurs sep s.
Proof.
  induction s as [|b s IH]; simpl.
  - destruct (starts_with sep []) eqn:E; [discriminate|].
    intros _ (pre & post & Hs). destruct pre; [|discriminate Hs].
    simpl in Hs. rewrite Hs, starts_with_app in E. discriminate E.
  - destruct (starts_with sep (b :: s)) eqn:E; [discriminate|].
    destruct (lmemfind s sep) eqn:F; [discriminate|]. intros _ (pre & post & Hs).
    destruct pre as [|a pre].
    + simpl in Hs. rewrite Hs, starts_with_app in E. discriminate E.
    + injection Hs as -> Hs. apply IH; [reflexivity|]. now exists pre, post.
Qed.

(** What lies before the first occurrence holds none. *)
Lemma take_before_match (s sep : lua_string) (m : nat) :
  sep <> [] -> lmemfind s sep = Some m -> ~ occurs sep (take m s).
Proof.
  intros Hsep Hfind (pre & post & Htake).
  assert (Hs : s = pre ++ sep ++ (post ++ drop m s)).
  { rewrite <- (take_drop m s) at 1. rewrite Htake.
    now rewrite <- !app_assoc. }
  pose proof (lmemfind_first s sep m pre _ Hfind Hs) as Hle.
  assert (Hlen : length (take m s) <= m) by (rewrite length_take; lia).
  rewrite Htake, !length_app in Hlen.
  destruct sep; [congruence|simpl in Hlen; lia].
Qed.

Lemma find_lmemfind (s sep : lua_string) (init : nat) :
  1 <= init <= S (length s) ->
  find s sep init =
  match lmemfind (drop (init - 1) s) sep with
  | Some m => Some (init + m, init - 1 + m + length sep)
  | None => None
  end.
Proof.
  intros Hinit. unfold find.
  replace (Nat.min (init - 1) (length s)) with (init - 1) by lia.
  destruct (lmemfind (drop (init - 1) s) sep); [|reflexivity].
  do 2 f_equal. lia.
Qed.

(** The loop without a limit: it ends when [sep] is found no more, and
    no field it has stored holds [sep]. *)
Lemma split_loop_unlimited (s sep : lua_string) (fuel : nat) :
  sep <> [] ->
  forall aRecord nField nStart nMax,
    (nMax < 0)%Z ->
    loop_inv s sep aRecord nField nStart ->
    Forall (fun f => ~ occurs sep f) aRecord ->
    S (length s) - nStart < fuel ->
    exists aRecord' nStart',
      split_loop fuel s sep aRecord nField nStart (find s sep nStart) nMax
      = Returns (aRecord', S (length aRecord'), nStart') /\
      loop_inv s sep aRecord' (S (length aRecord')) nStart' /\
      Forall (fun f => ~ occurs sep f) aRecord' /\
      lmemfind (drop (nStart' - 1) s) sep = None.
Proof.
  intros Hsep. induction fuel as [|fuel IH];
    intros aRecord nField nStart nMax Hneg Hinv Hfree Hfuel; [lia|].
  pose proof Hinv as (HnField & Hst & _).
  cbn [split_loop].
  destruct (find s sep nStart) as [[nFirst nLast]|] eqn:Hfind.
  - destruct (Z.eqb_spec nMax 0) as [->|_]; [lia|].
    destruct (loop_inv_step _ _ _ _ _ _ _ Hinv Hfind) as [Hinv' Hlt].
    specialize (Hlt Hsep).
    apply IH; [lia|exact Hinv'| |destruct Hinv' as (_ & ? & _); lia].
    rewrite (find_lmemfind _ _ _ Hst) in Hfind.
    destruct (lmemfind (drop (nStart - 1) s) sep) as [m|] eqn:Hm; [|discriminate].
    injection Hfind as <- <-.
    rewrite HnField, array_set_next, sub_take_drop
      by (try lia; apply lmemfind_Some in Hm as [Hm _];
          rewrite length_drop in Hm; lia).
    apply Forall_app. split; [exact Hfree|]. constructor; [|constructor].
    replace (nStart + m - 1 - (nStart - 1)) with m by lia.
    now apply take_before_match.
  - rewrite (find_lmemfind _ _ _ Hst) in Hfind.
    destruct (lmemfind (drop (nStart - 1) s) sep) eqn:Hm; [discriminate|].
    exists aRecord, nStart. subst nField. auto.
Qed.

(** The fields of a split without a limit, for a non-empty string. *)
Lemma split_unlimited_fields (s sep : lua_string) :
  sep <> [] -> s <> [] ->
  exists aRecord last,
    split s sep None = Returns (aRecord ++ [last]) /\
    concat (aRecord ++ [last]) sep = s /\
    Forall (fun f => ~ occurs sep f) (aRecord ++ [last]).
Proof.
  intros Hsep Hs. unfold split.
  rewrite bool_decide_eq_false_2 by exact Hsep. cbn [negb].
  replace (0 <? length s) with true
    by (symmetry; apply Nat.ltb_lt; destruct s; [congruence|simpl; lia]).
  destruct (split_loop_unlimited s sep (S (length s)) Hsep [] 1 1 (-1)%Z)
    as (aRecord & nStart & Hrun & (_ & Hst & Hjoin) & Hfree & Hlast).
  - lia.
  - repeat split; simpl; lia.
  - constructor.
  - lia.
  - rewrite Hrun, array_set_next, sub_from_drop by lia.
    exists aRecord, (drop (nStart - 1) s). split; [reflexivity|].
    split; [now rewrite concat_snoc|].
    apply Forall_app. split; [exact Hfree|].
    constructor; [|constructor]. now apply lmemfind_None.
Qed.

(** X2. With plain matching and no limit, no field that [util.split]
    returns contains the separator; for a non-empty string there is at
    least one field. *)
Theorem split_fields_without_sep (s sep : lua_string) :
  sep <> [] ->
  exists fields,
    split s sep None = Returns fields /\
    Forall (fun f => ~ occurs sep f) fields /\
    (s <> [] -> fields <> []).
Proof.
  intros Hsep. destruct s as [|b s].
  - exists []. split; [|split; [constructor|congruence]].
    unfold split. now rewrite bool_decide_eq_false_2 by exact Hsep.
  - destruct (split_unlimited_fields (b :: s) sep Hsep) as (a & l & Hr & _ & Hf);
      [discriminate|].
    exists (a ++ [l]). split; [exact Hr|]. split; [exact Hf|].
    intros _. destruct a; discriminate.
Qed.

Lemma split_fields_without_sep_witness :
  exists fields,
    split (str "k::v:w") (str "::") None = Returns fields /\
    Forall (fun f => ~ occurs (str "::") f) fields /\
    (str "k::v:w" <> [] -> fields <> []).
Proof. apply (split_fields_without_sep (str "k::v:w") (str "::")). discriminate. Defined.


Lemma array_set_length (aRecord : list lua_string) (nField : nat) (v : lua_string) :
  length (array_set aRecord nField v) <= S (length aRecord).
Proof.
  unfold array_set. destruct (nField =? S (length aRecord)).
  - rewrite length_app. simpl. lia.
  - rewrite length_insert. lia.
Qed.

(** Every round of the loop uses up one unit of a limit. *)
Lemma split_loop_limit (s sep : lua_string) (fuel : nat) :
  forall aRecord nField nStart fnd nMax aRecord' nField' nStart',
    (0 <= nMax)%Z ->
    split_loop fuel s sep aRecord nField nStart fnd nMax
    = Returns (aRecord', nField', nStart') ->
    length aRecord' <= length aRecord + Z.to_nat nMax.
Proof.
  induction fuel as [|fuel IH];
    intros aRecord nField nStart fnd nMax aRecord' nField' nStart' Hmax;
    cbn [split_loop]; destruct fnd as [[nFirst nLast]|];
    try (intros [= <- <- <-]; lia);
    destruct (Z.eqb_spec nMax 0) as [->|Hne];
    try (intros [= <- <- <-]; lia); try discriminate.
  intros Hrun. apply IH in Hrun; [|lia].
  pose proof (array_set_length aRecord nField (sub s nStart (nFirst - 1))). lia.
Qed.

(** X3. With a limit [nMax >= 1], [util.split] returns at most
    [nMax + 1] fields, and joining them with the separator still gives
    the string back: what is left after [nMax] separators stays in the
    last field. *)
Theorem split_limit_fields (s sep : lua_string) (nMax : Z) :
  sep <> [] -> (1 <= nMax)%Z ->
  exists fields,
    split s sep (Some nMax) = Returns fields /\
    (Z.of_nat (length fields) <= nMax + 1)%Z /\
    concat fields sep = s.
Proof.
  intros Hsep Hmax.
  destruct (split_concat s sep (Some nMax) Hsep Hmax) as (fields & Hrun & Hjoin).
  exists fields. split; [exact Hrun|]. split; [|exact Hjoin].
  unfold split in Hrun. rewrite bool_decide_eq_false_2 in Hrun by exact Hsep.
  replace (1 <=? nMax)%Z with true in Hrun by (symmetry; apply Z.leb_le; lia).
  cbn [negb] in Hrun. destruct (0 <? length s).
  - destruct (split_loop (S (length s)) s sep [] 1 1 (find s sep 1) nMax)
      as [[[aRecord nField] nStart]| |] eqn:Hloop; try discriminate.
    injection Hrun as <-. apply split_loop_limit in Hloop; [|lia].
    pose proof (array_set_length aRecord nField (sub_from s nStart)).
    simpl in Hloop. lia.
  - injection Hrun as <-. simpl. lia.
Qed.

Lemma split_limit_fields_witness :
  exists fields,
    split (str "a,b,c,d") (str ",") (Some 2%Z) = Returns fields /\
    (Z.of_nat (length fields) <= 2 + 1)%Z /\
    concat fields (str ",") = str "a,b,c,d".
Proof.
  apply (split_limit_fields (str "a,b,c,d") (str ",") 2%Z); [discriminate|lia].
Defined.

(** X4. [util.split] with plain matching returns a list of fields unless
    one of its two assertions fails, and an assertion fails exactly when
    the separator is empty or a limit below 1 is given; in particular
    the loop always comes to an end. *)
Theorem split_assertions (s sep : lua_string) (nMax : option Z) :
  (split s sep nMax = AssertionFailed <->
   sep = [] \/ exists n, nMax = Some n /\ (n < 1)%Z) /\
  (split s sep nMax <> AssertionFailed ->
   exists fields, split s sep nMax = Returns fields).
Proof.
  assert (Hbad : sep = [] \/ (exists n, nMax = Some n /\ (n < 1)%Z) ->
                 split s sep nMax = AssertionFailed).
  { intros [->|(n & -> & Hn)]; unfold split.
    - reflexivity.
    - destruct (bool_decide (sep = [])); [reflexivity|].
      now replace (1 <=? n)%Z with false by (symmetry; apply Z.leb_gt; lia). }
  assert (Hgood : ~ (sep = [] \/ exists n, nMax = Some n /\ (n < 1)%Z) ->
                  exists fields, split s sep nMax = Returns fields).
  { intros Hok.
    destruct (split_concat s sep nMax) as (fields & Hrun & _); [tauto| |eauto].
    destruct nMax as [n|]; [|exact I].
    destruct (Z.le_gt_cases 1 n); [assumption|].
    exfalso. apply Hok. right. exists n. split; [reflexivity|lia]. }
  assert (Hdec : (sep = [] \/ exists n, nMax = Some n /\ (n < 1)%Z) \/
                 ~ (sep = [] \/ exists n, nMax = Some n /\ (n < 1)%Z)).
  { destruct sep as [|c sep]; [left; now left|].
    destruct nMax as [n|].
    - destruct (Z.le_gt_cases 1 n).
      + right. intros [?|(n' & [= <-] & ?)]; [discriminate|lia].
      + left. right. exists n. split; [reflexivity|lia].
    - right. intros [?|(n' & ? & ?)]; discriminate. }
  split; [split; [|exact Hbad]|].
  - intros Hfail. destruct Hdec as [Hb|Hg]; [exact Hb|].
    destruct (Hgood Hg) as (fields & Hrun). rewrite Hrun in Hfail. discriminate.
  - intros Hnot. destruct Hdec as [Hb|Hg]; [|exact (Hgood Hg)].
    now apply Hbad in Hb.
Qed.

Lemma split_assertions_witness :
  (split (str "a b") (str " ") (Some 0%Z) = AssertionFailed <->
   str " " = [] \/ exists n, Some 0%Z = Some n /\ (n < 1)%Z) /\
  (split (str "a b") (str " ") (Some 3%Z) <> AssertionFailed ->
   exists fields, split (str "a b") (str " ") (Some 3%Z) = Returns fields).
Proof.
  split.
  - apply (split_assertions (str "a b") (str " ") (Some 0%Z)).
  - apply (split_assertions (str "a b") (str " ") (Some 3%Z)).
Defined.

(** *** Splitting what was joined *)

Lemma occurs_byte (c : ascii) (f : lua_string) : occurs [c] f <-> c ∈ f.
Proof.
  split.
  - intros (pre & post & ->). apply elem_of_app. right. left.
  - intros Hin. apply list_elem_of_split in Hin as (pre & post & ->).
    now exists pre, post.
Qed.

Lemma byte_split_unique (c : ascii) (x y r1 r2 : lua_string) :
  c ∉ x -> c ∉ y -> x ++ c :: r1 = y ++ c :: r2 -> x = y /\ r1 = r2.
Proof.
  revert y. induction x as [|a x IH]; intros [|b y] Hx Hy; simpl.
  - intros [= ->]. auto.
  - intros [= <- _]. exfalso. apply Hy. left.
  - intros [= -> _]. exfalso. apply Hx. left.
  - intros [= -> E]. destruct (IH y) as [-> ->]; auto.
    + intros H. apply Hx. now right.
    + intros H. apply Hy. now right.
Qed.

(** Two lists of fields without the byte [c] that join to the same
    string are the same list. *)
Lemma concat_byte_inj (c : ascii) (l1 : list lua_string) :
  forall l2,
    l1 <> [] -> l2 <> [] ->
    Forall (fun f => c ∉ f) l1 -> Forall (fun f => c ∉ f) l2 ->
    concat l1 [c] = concat l2 [c] -> l1 = l2.
Proof.
  induction l1 as [|x l1 IH]; intros l2 Hn1 Hn2 H1 H2 E; [congruence|].
  destruct l2 as [|y l2]; [congruence|].
  apply Forall_cons in H1 as [Hx H1]. apply Forall_cons in H2 as [Hy H2].
  destruct l1 as [|x' l1]; destruct l2 as [|y' l2]; cbn [concat] in E.
  - now subst.
  - exfalso. apply Hx. rewrite E. apply elem_of_app. right. left.
  - exfalso. apply Hy. rewrite <- E. apply elem_of_app. right. left.
  - simpl in E. apply byte_split_unique in E as [-> E]; [|assumption..].
    f_equal. apply IH; [discriminate|discriminate|assumption..].
Qed.

(** Splitting at a byte the string that [table.concat] joined with that
    byte gives the fields back. *)
Lemma split_concat_byte (c : ascii) (fields : list lua_string) :
  fields <> [] ->
  Forall (fun f => c ∉ f) fields ->
  concat fields [c] <> [] ->
  split (concat fields [c]) [c] None = Returns fields.
Proof.
  intros Hne Hfree Hs.
  destruct (split_unlimited_fields (concat fields [c]) [c])
    as (a & l & Hrun & Hjoin & Hf); [discriminate|exact Hs|].
  rewrite Hrun. f_equal. apply (concat_byte_inj c).
  - destruct a; discriminate.
  - exact Hne.
  - eapply Forall_impl; [exact Hf|]. intros f Hnot Hin. apply Hnot.
    now apply occurs_byte.
  - exact Hfree.
  - exact Hjoin.
Qed.

(** X5. For a separator of one byte, [util.split] undoes
    [table.concat]: a non-empty list of fields, none of which contains
    the byte, joined into a non-empty string, is returned as it was. *)
Theorem split_of_concat (c : ascii) (fields : list lua_string) :
  fields <> [] ->
  Forall (fun f => c ∉ f) fields ->
  concat fields [c] <> [] ->
  split (concat fields [c]) [c] None = Returns fields.
Proof.
  exact (split_concat_byte c fields).
Qed.

Lemma split_of_concat_witness :
  split (concat [str "textDocument"; str "hover"] [ascii_of_nat 47])
        [ascii_of_nat 47] None
  = Returns [str "textDocument"; str "hover"].
Proof.
  apply (split_of_concat (ascii_of_nat 47) [str "textDocument"; str "hover"]).
  - discriminate.
  - repeat constructor; vm_compute; intros H;
      repeat (apply elem_of_cons in H as [H|H]; [discriminate H|]);
      now apply elem_of_nil in H.
  - discriminate.
Defined.


(** *** [util.handle_uri] *)

Lemma sub_prefix (s : lua_string) (n : nat) : sub s 1 n = take n s.
Proof.
  unfold sub. cbn [Nat.max]. rewrite drop_0, Nat.sub_0_r.
  destruct (Nat.ltb_spec (Nat.min n (length s)) 1) as [Hlt|Hge].
  - destruct (Nat.le_gt_cases n (length s)).
    + now replace n with 0 by lia.
    + symmetry. rewrite take_ge by lia. destruct s; [reflexivity|simpl in *; lia].
  - destruct (Nat.le_gt_cases n (length s)).
    + now rewrite Nat.min_l by lia.
    + rewrite Nat.min_r by lia. now rewrite !take_ge by lia.
Qed.

(** X6. [util.handle_uri] takes the scheme off a [file://] URI and leaves
    every other string as it is: [handle_uri("file://" .. path)] is
    [path], and a string that does not start with [file://] is returned
    unchanged. *)
Theorem handle_uri_strips_scheme :
  (forall path, handle_uri (file_prefix ++ path) = path) /\
  (forall uri, (forall path, uri <> file_prefix ++ path) -> handle_uri uri = uri).
Proof.
  split.
  - intros path. unfold handle_uri, len.
    rewrite sub_prefix, take_app_length.
    rewrite bool_decide_eq_true_2 by reflexivity.
    rewrite sub_take_drop by (rewrite ?length_app; simpl; lia).
    replace (length file_prefix + 1 - 1) with (length file_prefix) by lia.
    rewrite drop_app_length. apply take_ge. rewrite length_app. lia.
  - intros uri Hnot. unfold handle_uri, len. rewrite sub_prefix.
    case_bool_decide as E; [|reflexivity].
    exfalso. apply (Hnot (drop (length file_prefix) uri)).
    rewrite <- E at 1. symmetry. apply take_drop.
Qed.

Lemma handle_uri_strips_scheme_witness :
  handle_uri (file_prefix ++ str "/tmp/a.c") = str "/tmp/a.c" /\
  handle_uri (str "http://x") = str "http://x".
Proof.
  destruct handle_uri_strips_scheme as [Hfile Hother].
  split; [apply Hfile|]. apply Hother. intros path E. discriminate E.
Defined.

(** *** [util.get_file_line] *)

Lemma scan_lines_nth (lines : list lua_string) :
  forall count line_number,
    scan_lines lines count line_number =
    if ((count <=? line_number) && (line_number <? count + Z.of_nat (length lines)))%Z
    then lines !! Z.to_nat (line_number - count)
    else None.
Proof.
  induction lines as [|line rest IH]; intros count line_number; cbn [scan_lines].
  - destruct ((count <=? line_number)%Z && _); reflexivity.
  - destruct (Z.eqb_spec count line_number) as [->|Hne].
    + rewrite Z.leb_refl, Z.sub_diag. cbn [andb].
      replace (line_number <? _)%Z with true
        by (symmetry; apply Z.ltb_lt; simpl; lia).
      reflexivity.
    + rewrite IH. cbn [length].
      destruct (Z.leb_spec (count + 1) line_number) as [H1|H1];
        destruct (Z.leb_spec count line_number) as [H2|H2]; try lia; cbn [andb];
        [|reflexivity].
      replace (line_number <? count + 1 + Z.of_nat (length rest))%Z
        with (line_number <? count + Z.of_nat (S (length rest)))%Z
        by (destruct (Z.ltb_spec line_number (count + Z.of_nat (S (length rest))));
            symmetry; [apply Z.ltb_lt|apply Z.ltb_ge]; lia).
      destruct (line_number <? _)%Z; [|reflexivity].
      replace (Z.to_nat (line_number - count))
        with (S (Z.to_nat (line_number - (count + 1)))) by lia.
      reflexivity.
Qed.

(** X7. [util.get_file_line] on a file that can be read: for a line
    number from 1 to the number of lines it returns that line and leaves
    no handle open; for any other line number it returns the empty
    string, which is also what an empty line gives, and the handle it
    opened stays open.  When the file cannot be read the [assert]
    fails. *)
Theorem get_file_line_cases (file_name : string) (line_number : Z)
        (st : io_state) (lines : list lua_string) :
  files st !! file_name = Some lines ->
  (forall line, lines !! Z.to_nat (line_number - 1) = Some line ->
                (1 <= line_number)%Z ->
                get_file_line file_name line_number st = IoReturns line st) /\
  ((line_number < 1 \/ Z.of_nat (length lines) < line_number)%Z ->
   get_file_line file_name line_number st =
   IoReturns [] {| files := files st;
                   open_handles := file_name :: open_handles st |}) /\
  (forall st', files st' !! file_name = None ->
               get_file_line file_name line_number st' = IoAssertionFailed st').
Proof.
  intros Hfile. unfold get_file_line, io_open. rewrite Hfile.
  rewrite scan_lines_nth. repeat split.
  - intros line Hline Hpos. apply lookup_lt_Some in Hline as Hlt.
    replace ((1 <=? line_number) && _)%Z with true
      by (symmetry; apply andb_true_iff; split;
          [apply Z.leb_le|apply Z.ltb_lt]; lia).
    rewrite Hline. unfold io_close. cbn [files open_handles remove_handle].
    rewrite bool_decide_eq_true_2 by reflexivity. now destruct st.
  - intros Hout.
    replace ((1 <=? line_number) && _)%Z with false; [reflexivity|].
    symmetry. apply andb_false_iff.
    destruct Hout; [left; apply Z.leb_gt|right; apply Z.ltb_ge]; lia.
  - intros st' Hnone. now rewrite Hnone.
Qed.

Lemma get_file_line_cases_witness :
  (forall line, [str "int x;"; str ""; str "int y;"] !! Z.to_nat (3 - 1) = Some line ->
                (1 <= 3)%Z ->
                get_file_line "a.c" 3
                  {| files := {[ "a.c" := [str "int x;"; str ""; str "int y;"] ]};
                     open_handles := [] |}
                = IoReturns line
                    {| files := {[ "a.c" := [str "int x;"; str ""; str "int y;"] ]};
                       open_handles := [] |}) /\
  ((3 < 1 \/ Z.of_nat (length [str "int x;"; str ""; str "int y;"]) < 3)%Z ->
   get_file_line "a.c" 3
     {| files := {[ "a.c" := [str "int x;"; str ""; str "int y;"] ]};
        open_handles := [] |}
   = IoReturns []
       {| files := files {| files := {[ "a.c" := [str "int x;"; str ""; str "int y;"] ]};
                            open_handles := [] |};
          open_handles := ["a.c"] |}) /\
  (forall st', files st' !! "a.c" = None ->
               get_file_line "a.c" 3 st' = IoAssertionFailed st').
Proof.
  apply (get_file_line_cases
           "a.c" 3
           {| files := {[ "a.c" := [str "int x;"; str ""; str "int y;"] ]};
              open_handles := [] |}
           [str "int x;"; str ""; str "int y;"]).
  reflexivity.
Defined.

Example get_file_line_third :
  get_file_line "a.c" 3
    {| files := {[ "a.c" := [str "int x;"; str ""; str "int y;"] ]};
       open_handles := [] |}
  = IoReturns (str "int y;")
      {| files := {[ "a.c" := [str "int x;"; str ""; str "int y;"] ]};
         open_handles := [] |}.
Proof. reflexivity. Qed.

Example get_file_line_past_the_end :
  get_file_line "a.c" 4
    {| files := {[ "a.c" := [str "int x;"; str ""; str "int y;"] ]};
       open_handles := [] |}
  = IoReturns []
      {| files := {[ "a.c" := [str "int x;"; str ""; str "int y;"] ]};
         open_handles := ["a.c"] |}.
Proof. reflexivity. Qed.


(** *** [util.is_array] *)

Lemma count_number_keys_eq (entries : list (key * tvalue)) :
  forall count,
    count_number_keys entries count =
    if forallb (fun entry => is_number_key entry.1) entries
    then Some (count + Z.of_nat (length entries))%Z
    else None.
Proof.
  induction entries as [|[k v] rest IH]; intros count; cbn [count_number_keys forallb fst].
  - f_equal. simpl. lia.
  - destruct (is_number_key k); [|reflexivity]. rewrite IH. cbn [andb].
    destruct (forallb _ rest); [|reflexivity]. f_equal. cbn [length]. lia.
Qed.

Lemma pairs_cons (k : key) (v : tvalue) (rest : list (key * tvalue)) :
  (v = TNil /\ pairs ((k, v) :: rest) = without_key k (pairs rest)) \/
  (v <> TNil /\ pairs ((k, v) :: rest) = (k, v) :: without_key k (pairs rest)).
Proof. destruct v; [left|right..]; split; (reflexivity || discriminate). Qed.

(** [pairs] goes through the keys that the table maps, with the values
    it maps them to. *)
Lemma pairs_lookup (entries : list (key * tvalue)) (k : key) (v : tvalue) :
  (k, v) ∈ pairs entries <-> lookup_entry entries k = v /\ v <> TNil.
Proof.
  induction entries as [|[k0 v0] rest IH].
  - cbn. split; [intros H; now apply elem_of_nil in H|].
    intros [<- H]. now destruct H.
  - cbn [lookup_entry].
    assert (Hrest : (k, v) ∈ without_key k0 (pairs rest) <->
                    k <> k0 /\ lookup_entry rest k = v /\ v <> TNil).
    { unfold without_key. rewrite list_elem_of_filter. cbn [fst]. now rewrite IH. }
    destruct (pairs_cons k0 v0 rest) as [[Hv ->]|[Hv ->]].
    + rewrite Hrest. case_bool_decide as Hk.
      * subst. split; [intros [H _]; congruence|intros [<- H]; now destruct H].
      * split; [tauto|]. intros H. split; [congruence|exact H].
    + rewrite elem_of_cons, Hrest. case_bool_decide as Hk.
      * subst k0. split.
        -- intros [H|[H _]]; [inversion H; subst; auto|congruence].
        -- intros [<- _]. now left.
      * split.
        -- intros [H|H]; [inversion H; congruence|tauto].
        -- intros H. right. split; [congruence|exact H].
Qed.

Lemma pairs_nil (entries : list (key * tvalue)) :
  pairs entries = [] <-> forall k, lookup_entry entries k = TNil.
Proof.
  split.
  - intros Hnil k. destruct (lookup_entry entries k) eqn:E; [reflexivity|..];
      (assert (Hin : (k, lookup_entry entries k) ∈ pairs entries)
         by (apply pairs_lookup; rewrite E; split; [reflexivity|discriminate]);
       rewrite Hnil in Hin; now apply elem_of_nil in Hin).
  - intros Hall. destruct (pairs entries) as [|[k v] l] eqn:E; [reflexivity|].
    assert (Hin : (k, v) ∈ pairs entries) by (rewrite E; left).
    apply pairs_lookup in Hin as [Hv Hn]. rewrite Hall in Hv. congruence.
Qed.

Lemma pairs_number_keys (entries : list (key * tvalue)) :
  forallb (fun entry => is_number_key entry.1) (pairs entries) = true <->
  forall k, lookup_entry entries k <> TNil -> is_number_key k = true.
Proof.
  rewrite forallb_forall. split.
  - intros H k Hk. apply (H (k, lookup_entry entries k)).
    apply list_elem_of_In, pairs_lookup. auto.
  - intros H [k v] Hin. apply list_elem_of_In, pairs_lookup in Hin as [<- Hn].
    now apply H.
Qed.

Lemma is_array_table (entries : list (key * tvalue)) :
  is_array (TTable entries) =
  if forallb (fun entry => is_number_key entry.1) (pairs entries)
  then match pairs entries with [] => TNil | _ => TBool true end
  else TBool false.
Proof.
  unfold is_array. rewrite count_number_keys_eq.
  destruct (forallb _ (pairs entries)); [|reflexivity].
  destruct (pairs entries) as [|p l]; [reflexivity|].
  now replace (0 <? 0 + Z.of_nat (length (p :: l)))%Z with true
    by (symmetry; apply Z.ltb_lt; simpl; lia).
Qed.

(** The three answers of [util.is_array] for a table, by what the table
    maps. *)
Lemma is_array_answers (entries : list (key * tvalue)) :
  (is_array (TTable entries) = TNil <->
   forall k, lookup_entry entries k = TNil) /\
  (is_array (TTable entries) = TBool true <->
   (exists k, lookup_entry entries k <> TNil) /\
   (forall k, lookup_entry entries k <> TNil -> is_number_key k = true)) /\
  (is_array (TTable entries) = TBool false <->
   exists k, lookup_entry entries k <> TNil /\ is_number_key k = false).
Proof.
  rewrite is_array_table.
  pose proof (pairs_number_keys entries) as Hnum.
  pose proof (pairs_nil entries) as Hnil.
  assert (Hsome : pairs entries <> [] -> exists k, lookup_entry entries k <> TNil).
  { destruct (pairs entries) as [|[k v] l] eqn:E; [congruence|]. intros _.
    assert (Hin : (k, v) ∈ pairs entries) by (rewrite E; left).
    apply pairs_lookup in Hin as [<- Hn]. eauto. }
  destruct (forallb _ (pairs entries)) eqn:Hall.
  - pose proof (proj1 Hnum eq_refl) as Hkeys.
    destruct (pairs entries) as [|p l] eqn:E.
    + pose proof (proj1 Hnil eq_refl) as Hempty. split; [tauto|]. split.
      * split; [discriminate|]. intros [[k Hk] _]. now destruct Hk.
      * split; [discriminate|]. intros (k & Hk & _). now destruct Hk.
    + split; [|split].
      * split; [discriminate|]. intros H. apply Hnil in H. discriminate H.
      * split; [|reflexivity]. intros _. split; [apply Hsome; discriminate|exact Hkeys].
      * split; [discriminate|]. intros (k & Hk & Hn).
        rewrite (Hkeys k Hk) in Hn. discriminate Hn.
  - assert (Hex : exists k, lookup_entry entries k <> TNil /\ is_number_key k = false).
    { clear Hnum Hnil Hsome.
      assert (Hin : exists entry, entry ∈ pairs entries /\ is_number_key entry.1 = false).
      { induction (pairs entries) as [|[k v] l IH]; [discriminate Hall|].
        cbn [forallb fst] in Hall. destruct (is_number_key k) eqn:Hk.
        - destruct (IH Hall) as (entry & Hin & Hn). exists entry. split; [now right|exact Hn].
        - exists (k, v). split; [left|exact Hk]. }
      destruct Hin as ([k v] & Hin & Hn). apply pairs_lookup in Hin as [<- Hv]. eauto. }
    split; [|split].
    + split; [discriminate|]. intros H. destruct Hex as (k & Hk & _). now destruct Hk.
    + split; [discriminate|]. intros [_ H]. destruct Hex as (k & Hk & Hn).
      rewrite (H k Hk) in Hn. discriminate Hn.
    + tauto.
Qed.

(** X8. [util.is_array] answers [false] for everything that is not a
    table, and for a table by the keys it maps alone, whatever their
    values, whatever the order in which [pairs] brings them and however
    the table was built: [nil] for the empty table (an entry whose value
    is [nil] is no entry), [true] for a table that maps some key and
    maps numbers only (consecutive from 1 or not), [false] for a table
    that maps some key that is not a number. *)
Theorem is_array_by_keys (table : tvalue) :
  (is_table table = false -> is_array table = TBool false) /\
  (forall entries,
      table = TTable entries ->
      (is_array table = TNil <-> forall k, lookup_entry entries k = TNil) /\
      (is_array table = TBool true <->
       (exists k, lookup_entry entries k <> TNil) /\
       (forall k, lookup_entry entries k <> TNil -> is_number_key k = true)) /\
      (is_array table = TBool false <->
       exists k, lookup_entry entries k <> TNil /\ is_number_key k = false) /\
      (forall entries',
          (forall k, (lookup_entry entries k = TNil <-> lookup_entry entries' k = TNil)) ->
          is_array table = is_array (TTable entries'))).
Proof.
  split; [destruct table; (reflexivity || discriminate)|].
  intros entries ->.
  destruct (is_array_answers entries) as (Hnil & Htrue & Hfalse).
  split; [exact Hnil|]. split; [exact Htrue|]. split; [exact Hfalse|].
  intros entries' Hsame.
  destruct (is_array_answers entries') as (Hnil' & Htrue' & Hfalse').
  assert (Hne : forall k, lookup_entry entries k <> TNil <->
                          lookup_entry entries' k <> TNil)
    by (intros k; now rewrite Hsame).
  rewrite is_array_table.
  destruct (forallb _ (pairs entries)) eqn:Hall.
  - destruct (pairs entries) as [|p l] eqn:E.
    + symmetry. apply Hnil'. intros k. apply Hsame. now apply pairs_nil.
    + symmetry. apply Htrue'.
      assert (Ht : is_array (TTable entries) = TBool true)
        by (rewrite is_array_table, E, Hall; reflexivity).
      apply Htrue in Ht as [[k Hk] Hkeys]. split.
      * exists k. now apply Hne.
      * intros j Hj. apply Hkeys. now apply Hne.
  - symmetry. apply Hfalse'.
    assert (Hf : is_array (TTable entries) = TBool false)
      by (rewrite is_array_table, Hall; reflexivity).
    apply Hfalse in Hf as (k & Hk & Hn). exists k. split; [now apply Hne|exact Hn].
Qed.

Lemma is_array_by_keys_witness :
  is_array (TStr "x") = TBool false /\
  is_array (TTable [(KNum 2, TNil)]) = TNil /\
  is_array (TTable [(KNum 10, TStr "x"); (KNum 2, TNil); (KNum 10, TNil)])
  = is_array (TTable [(KNum 10, TBool true)]).
Proof.
  split; [|split].
  - apply (is_array_by_keys (TStr "x")). reflexivity.
  - destruct (is_array_by_keys (TTable [(KNum 2, TNil)])) as [_ H].
    destruct (H [(KNum 2, TNil)] eq_refl) as (Hnil & _).
    apply Hnil. intros k. cbn. now case_bool_decide.
  - destruct (is_array_by_keys
                (TTable [(KNum 10, TStr "x"); (KNum 2, TNil); (KNum 10, TNil)]))
      as [_ H].
    destruct (H [(KNum 10, TStr "x"); (KNum 2, TNil); (KNum 10, TNil)] eq_refl)
      as (_ & _ & _ & Hsame).
    apply Hsame. intros k. cbn.
    repeat case_bool_decide; split; congruence.
Defined.

Example is_array_sparse : is_array (TTable [(KNum 10, TStr "x")]) = TBool true.
Proof. reflexivity. Qed.

Example is_array_of_a_string : is_array (TStr "x") = TBool false.
Proof. reflexivity. Qed.

Example is_array_of_nil_entries :
  is_array (TTable [(KNum 2, TNil); (KStr "a", TNil)]) = TNil.
Proof. reflexivity. Qed.

(** *** [util.get_key] *)

Lemma get_key_loop_app (string_index : key -> tvalue) (keys keys' : list key) :
  forall result,
    get_key_loop string_index result (keys ++ keys') =
    match get_key_loop string_index result keys with
    | None => None
    | Some TNil => match keys with [] => get_key_loop string_index TNil keys'
                              | _ => Some TNil end
    | Some v => get_key_loop string_index v keys'
    end.
Proof.
  induction keys as [|k keys IH]; intros result; cbn [app get_key_loop].
  - now destruct result.
  - destruct (index_value string_index result k) as [v|]; [|reflexivity].
    destruct v; try reflexivity; rewrite IH;
      (destruct keys as [|k' keys];
       [reflexivity
       |match goal with
        | |- context [get_key_loop string_index ?v (k' :: keys)] =>
            destruct (get_key_loop string_index v (k' :: keys)) as [[]|];
            reflexivity
        end]).
Qed.

(** X9. [util.get_key(table, k1, ..., kn)] walks down nested tables.  A
    key that is missing at any depth ends the walk with [nil], whatever
    keys follow; when the first keys lead to a table, the rest of the
    walk is [get_key] on that table; when they lead to a number or a
    boolean and keys follow, indexing it is an error. *)
Theorem get_key_paths (string_index : key -> tvalue)
        (entries : list (key * tvalue)) (keys keys' : list key) :
  (keys <> [] ->
   get_key string_index (TTable entries) keys = Some TNil ->
   get_key string_index (TTable entries) (keys ++ keys') = Some TNil) /\
  (forall entries',
      get_key string_index (TTable entries) keys = Some (TTable entries') ->
      get_key string_index (TTable entries) (keys ++ keys') =
      get_key string_index (TTable entries') keys') /\
  (forall v,
      get_key string_index (TTable entries) keys = Some v ->
      (exists n, v = TNum n) \/ (exists b, v = TBool b) ->
      keys' <> [] ->
      get_key string_index (TTable entries) (keys ++ keys') = None).
Proof.
  unfold get_key. cbn [is_table negb]. rewrite get_key_loop_app.
  split; [|split].
  - intros Hne ->. destruct keys; [congruence|reflexivity].
  - intros entries' ->. reflexivity.
  - intros v -> Hv Hne. destruct keys' as [|k keys']; [congruence|].
    destruct Hv as [[n ->]|[b ->]]; reflexivity.
Qed.

Lemma get_key_paths_witness :
  get_key (fun _ => TNil)
          (TTable [(KStr "range",
                    TTable [(KStr "start", TTable [(KStr "line", TNum 3)])])])
          ([KStr "range"; KStr "end"] ++ [KStr "line"]) = Some TNil.
Proof.
  apply (get_key_paths (fun _ => TNil)
           [(KStr "range",
             TTable [(KStr "start", TTable [(KStr "line", TNum 3)])])]
           [KStr "range"; KStr "end"] [KStr "line"]);
    [discriminate|reflexivity].
Defined.

Example get_key_through_a_number :
  get_key (fun _ => TNil) (TTable [(KStr "line", TNum 3)])
          [KStr "line"; KStr "x"] = None.
Proof. reflexivity. Qed.

Example get_key_of_a_number :
  get_key (fun _ => TNil) (TNum 3) [KStr "x"] = Some TNil.
Proof. reflexivity. Qed.

End UtilFacts.

Module CallbacksFacts.
Import Util UtilFacts Callbacks.
Local Open Scope nat_scope.

Lemma slash_byte : slash = [ascii_of_nat 47].
Proof. reflexivity. Qed.

(** X22. [get_list_of_callbacks] with no callback given finds the default
    callbacks by walking down [cb] along the method name: for a method
    made of one or more names joined with ['/'], none of them containing
    a ['/'], the result is the table that [cb[name1]...[namen]] is, and
    [nil] when that is no table or a name is missing on the way; for the
    empty method name it is [cb] itself.  A table given as
    [callback_parameter] is returned as it is, whatever [cb] holds; and
    when [method] is neither a string nor a table the result is [nil]
    even then. *)
Theorem get_list_of_callbacks_walk (string_index : key -> tvalue) (cb : tvalue) :
  (forall names : list lua_string,
      names <> [] ->
      Forall (fun name => ascii_of_nat 47 ∉ name) names ->
      concat names slash <> [] ->
      get_list_of_callbacks string_index cb (MethodString (concat names slash)) TNil =
      match get_key_loop string_index cb (key_of <$> names) with
      | None => IndexError
      | Some (TTable entries) => CallbackTable (TTable entries)
      | Some _ => NoCallbacks
      end) /\
  (forall entries,
      cb = TTable entries ->
      get_list_of_callbacks string_index cb (MethodString []) TNil = CallbackTable cb) /\
  (forall s entries,
      get_list_of_callbacks string_index cb (MethodString s) (TTable entries) =
      CallbackTable (TTable entries)) /\
  (forall callback_parameter,
      get_list_of_callbacks string_index cb MethodOther callback_parameter =
      NoCallbacks).
Proof.
  split; [|split; [|split]].
  - intros names Hne Hfree Hs. unfold get_list_of_callbacks, method_table.
    rewrite slash_byte in *. now rewrite split_concat_byte.
  - intros entries ->. reflexivity.
  - intros s entries. unfold get_list_of_callbacks, method_table.
    destruct (split_concat s slash None) as (fields & -> & _);
      [discriminate|exact I|reflexivity].
  - reflexivity.
Qed.

Lemma get_list_of_callbacks_walk_witness :
  get_list_of_callbacks (fun _ => TNil) sample_cb
    (MethodString (concat [str "textDocument"; str "hover"] slash)) TNil =
  match get_key_loop (fun _ => TNil) sample_cb
                     (key_of <$> [str "textDocument"; str "hover"]) with
  | None => IndexError
  | Some (TTable entries) => CallbackTable (TTable entries)
  | Some _ => NoCallbacks
  end.
Proof.
  destruct (get_list_of_callbacks_walk (fun _ => TNil) sample_cb) as [Hwalk _].
  apply (Hwalk [str "textDocument"; str "hover"]).
  - discriminate.
  - repeat constructor; vm_compute; intros H;
      repeat (apply elem_of_cons in H as [H|H]; [discriminate H|]);
      now apply elem_of_nil in H.
  - discriminate.
Defined.

Example callbacks_for_hover :
  get_list_of_callbacks (fun _ => TNil) sample_cb
                        (MethodString (str "textDocument/hover")) TNil
  = CallbackTable (TTable [(KNum 1, TFunction "hover")]).
Proof. reflexivity. Qed.

Example callbacks_for_unknown :
  get_list_of_callbacks (fun _ => TNil) sample_cb
                        (MethodString (str "textDocument/rename")) TNil
  = NoCallbacks.
Proof. reflexivity. Qed.

Example callbacks_below_a_function :
  get_list_of_callbacks (fun _ => TNil) sample_cb
                        (MethodTable [KStr "textDocument"; KStr "hover"; KNum 1; KStr "x"])
                        TNil
  = IndexError.
Proof. reflexivity. Qed.

End CallbacksFacts.

Module JobFacts.
Import Job.

Lemma messages_differ (shown : string) :
  invalid_arguments <> not_executable shown.
Proof. unfold invalid_arguments, not_executable. simpl. discriminate. Qed.

(** C4. [lsp#job#start] reports the two failures of [jobstart()] apart:
    a result of 0 (invalid arguments) ends the call with the error
    "Invalid arguments for LSP", a result of -1 (not executable) with
    the error "Not a valid executable: ..." naming the command; the two
    reports are different for every command, so two calls that fail in
    the two ways never end alike; any other result is the job id and is
    returned as it is. *)
Theorem start_reports_failures_apart
        (jobstart : cmd -> Z) (vim_string : cmd -> string) :
  (forall c, jobstart c = 0 ->
             start jobstart vim_string c = Echoerr invalid_arguments) /\
  (forall c, jobstart c = -1 ->
             start jobstart vim_string c =
             Echoerr (not_executable (vim_string c))) /\
  (forall c c', jobstart c = 0 -> jobstart c' = -1 ->
                start jobstart vim_string c <> start jobstart vim_string c') /\
  (forall c, jobstart c <> 0 -> jobstart c <> -1 ->
             start jobstart vim_string c = Returned (jobstart c)).
Proof.
  assert (H0 : forall c, jobstart c = 0 ->
               start jobstart vim_string c = Echoerr invalid_arguments).
  { intros c H. unfold start. now rewrite H. }
  assert (H1 : forall c, jobstart c = -1 ->
               start jobstart vim_string c =
               Echoerr (not_executable (vim_string c))).
  { intros c H. unfold start. now rewrite H. }
  split; [exact H0|]. split; [exact H1|]. split.
  - intros c c' Hc Hc'. rewrite (H0 c Hc), (H1 c' Hc').
    intros E. apply (messages_differ (vim_string c')). congruence.
  - intros c Hn0 Hn1. unfold start.
    destruct (Z.eqb_spec (jobstart c) 0); [contradiction|].
    destruct (Z.eqb_spec (jobstart c) (-1)); [contradiction|reflexivity].
Qed.

Lemma start_reports_failures_apart_witness :
  start sample_jobstart sample_string (CmdList []) = Echoerr invalid_arguments /\
  start sample_jobstart sample_string (CmdList ["nosuch"]) =
    Echoerr "Not a valid executable: ['nosuch']" /\
  start sample_jobstart sample_string (CmdList []) <>
    start sample_jobstart sample_string (CmdList ["nosuch"]) /\
  start sample_jobstart sample_string (CmdList ["nvim"; "--embed"]) = Returned 3.
Proof.
  destruct (start_reports_failures_apart sample_jobstart sample_string)
    as (H0 & H1 & Hd & Hr).
  split; [apply H0; reflexivity|].
  split; [apply (H1 (CmdList ["nosuch"])); reflexivity|].
  split; [apply Hd; reflexivity|].
  apply (Hr (CmdList ["nvim"; "--embed"])); discriminate.
Defined.

End JobFacts.

Module CmdPartsFacts.
Import Lua CmdParts.
Local Open Scope nat_scope.

Example cmd_parts_clangd :
  _cmd_parts (LRef 1%positive)
             {[ 1%positive := strings ["clangd"; "--background-index"; "-j=4"] ]}
  = Some (Ok (LStr "clangd", LRef 2%positive)
             {[ 1%positive := strings ["clangd"; "--background-index"; "-j=4"];
                2%positive := strings ["--background-index"; "-j=4"] ]}).
Proof. vm_compute. reflexivity. Qed.

Example cmd_parts_not_a_list :
  _cmd_parts (LStr "clangd") ∅
  = Some (Raised {| param := "cmd"; expected := "list" |} ∅).
Proof. reflexivity. Qed.

Example cmd_parts_not_a_string :
  _cmd_parts (LRef 1%positive) {[ 1%positive := [LStr "clangd"; LNum 4] ]}
  = Some (Raised {| param := "cmd argument"; expected := "s" |}
                 {[ 1%positive := [LStr "clangd"; LNum 4];
                    2%positive := [] ]}).
Proof. vm_compute. reflexivity. Qed.

Lemma index_strings (t : loc) (h : store) (l : list string) (k : nat) :
  h !! t = Some (strings l) ->
  index t (k + 1) h = match l !! k with Some x => LStr x | None => LNil end.
Proof.
  intros Ht. unfold index. rewrite Ht. unfold strings.
  replace (k + 1 - 1) with k by lia.
  rewrite list_lookup_fmap. now destruct (l !! k).
Qed.

(** The loop, started after [k] items with [acc] collected so far in
    [cmd_args], appends the items from [max k 1] on and touches nothing
    else. *)
Lemma cmd_parts_loop_strings (t a : loc) (l : list string) (fuel : nat) :
  t <> a ->
  forall (k : nat) (acc : list lval) (h : store),
    h !! t = Some (strings l) ->
    h !! a = Some acc ->
    length l - k <= fuel ->
    cmd_parts_loop fuel t a (k + 1) h =
    Some (Ok tt (<[a := acc ++ strings (drop (Nat.max k 1) l)]> h)).
Proof.
  intros Hta. induction fuel as [|fuel IH]; intros k acc h Ht Ha Hfuel.
  - simpl. rewrite (index_strings t h l k Ht).
    rewrite lookup_ge_None_2 by lia.
    rewrite drop_ge by lia. unfold strings. simpl.
    rewrite app_nil_r, insert_id by exact Ha. reflexivity.
  - simpl. rewrite (index_strings t h l k Ht).
    destruct (l !! k) as [x|] eqn:Hk.
    + cbn [is_string negb].
      assert (Hdrop : drop k l = x :: drop (S k) l) by (apply drop_S; exact Hk).
      apply lookup_lt_Some in Hk.
      destruct k as [|k].
      * change (1 <? 0 + 1) with false. cbv iota.
        change (0 + 1 + 1) with (1 + 1).
        rewrite (IH 1 acc h Ht Ha) by lia. reflexivity.
      * replace (1 <? S k + 1) with true by (symmetry; apply Nat.ltb_lt; lia).
        unfold table_insert, modify, state_of.
        replace (S k + 1 + 1) with (S (S k) + 1) by lia.
        rewrite (IH (S (S k)) (acc ++ [LStr x])).
        -- rewrite Nat.max_l, Nat.max_l by lia.
           rewrite Hdrop. unfold strings. rewrite fmap_cons.
           rewrite <- app_assoc. simpl.
           do 2 f_equal. apply map_eq. intros j.
           destruct (decide (a = j)) as [->|Hne].
           ++ now rewrite !lookup_insert_eq.
           ++ rewrite !lookup_insert_ne by exact Hne.
              now rewrite lookup_alter_ne by exact Hne.
        -- now rewrite lookup_alter_ne by (intros E; apply Hta; now symmetry).
        -- rewrite lookup_alter_eq, Ha. reflexivity.
        -- lia.
    + apply lookup_ge_None in Hk.
      rewrite drop_ge by lia. unfold strings. simpl.
      rewrite app_nil_r, insert_id by exact Ha. reflexivity.
Qed.

(** C10. For every non-empty list of strings [input] (a table [t] of the
    store holding the strings [c :: rest]), [lsp._cmd_parts(input)]
    returns [c], which is [input[1]], as the command and as the arguments
    a table [args] that was not in the store before and now holds
    [rest], the items [input[2..n]]; the table [t] still holds
    [c :: rest], and so does every other table of the store hold what
    it held: the new store is the old one with [args] added. *)
Theorem cmd_parts_frame (t : loc) (c : string) (rest : list string) (h : store) :
  h !! t = Some (strings (c :: rest)) ->
  exists args : loc,
    h !! args = None /\
    _cmd_parts (LRef t) h =
      Some (Ok (LStr c, LRef args) (<[args := strings rest]> h)) /\
    (<[args := strings rest]> h) !! t = Some (strings (c :: rest)) /\
    (forall l, l <> args -> (<[args := strings rest]> h) !! l = h !! l).
Proof.
  intros Ht. set (a := fresh (dom h)).
  assert (Ha : h !! a = None)
    by (apply not_elem_of_dom; apply is_fresh).
  assert (Hta : t <> a) by (intros ->; rewrite Ha in Ht; discriminate).
  exists a. split; [exact Ha|]. split; [|split].
  - unfold _cmd_parts, tbl_islist.
    rewrite bool_decide_eq_true_2 by (rewrite Ht; eauto).
    cbn [negb]. unfold new_table. fold a.
    rewrite Ht. cbn [default].
    pose proof (cmd_parts_loop_strings t a (c :: rest)
                  (length (strings (c :: rest))) Hta 0 [] (<[a := []]> h)) as Hloop.
    change (0 + 1) with 1 in Hloop. unfold id.
    rewrite Hloop.
    + unfold index. rewrite Ht. simpl. rewrite insert_insert_eq. reflexivity.
    + now rewrite lookup_insert_ne by (intros E; apply Hta; now symmetry).
    + apply lookup_insert_eq.
    + unfold strings. rewrite length_fmap. lia.
  - now rewrite lookup_insert_ne by (intros E; apply Hta; now symmetry).
  - intros l Hl. now rewrite lookup_insert_ne by (intros E; apply Hl; now symmetry).
Qed.

Lemma cmd_parts_frame_witness :
  exists args : loc,
    ({[ 7%positive := strings ["nvim"; "--embed"] ]} : store) !! args = None /\
    _cmd_parts (LRef 7%positive) {[ 7%positive := strings ["nvim"; "--embed"] ]} =
      Some (Ok (LStr "nvim", LRef args)
               (<[args := strings ["--embed"]]>
                  {[ 7%positive := strings ["nvim"; "--embed"] ]})) /\
    (<[args := strings ["--embed"]]>
       ({[ 7%positive := strings ["nvim"; "--embed"] ]} : store)) !! 7%positive
      = Some (strings ["nvim"; "--embed"]) /\
    (forall l, l <> args ->
       (<[args := strings ["--embed"]]>
          ({[ 7%positive := strings ["nvim"; "--embed"] ]} : store)) !! l
       = ({[ 7%positive := strings ["nvim"; "--embed"] ]} : store) !! l).
Proof.
  apply (cmd_parts_frame 7%positive "nvim" ["--embed"]).
  vm_compute. reflexivity.
Defined.


(** *** [lsp._cmd_parts] on any input *)

Lemma table_insert_other (a : loc) (v : lval) (h : store) (l : loc) :
  l <> a -> state_of (table_insert a v h) !! l = h !! l.
Proof.
  intros Hne. unfold table_insert, modify, state_of.
  now rewrite lookup_alter_ne by (intros E; apply Hne; now symmetry).
Qed.

Lemma table_insert_same (a : loc) (v : lval) (h : store) :
  is_Some (h !! a) -> is_Some (state_of (table_insert a v h) !! a).
Proof.
  intros [acc Ha]. unfold table_insert, modify, state_of.
  rewrite lookup_alter_eq, Ha. simpl. eauto.
Qed.

(** Whatever the items of [input] are, the loop ends within one round of
    fuel per item and writes to [cmd_args] alone. *)
Lemma cmd_parts_loop_frame (t a : loc) (items : list lval) (fuel : nat) :
  t <> a ->
  forall (k : nat) (h : store),
    h !! t = Some items ->
    is_Some (h !! a) ->
    length items - k <= fuel ->
    exists o,
      cmd_parts_loop fuel t a (k + 1) h = Some o /\
      (forall l, l <> a -> state_of o !! l = h !! l) /\
      is_Some (state_of o !! a).
Proof.
  intros Hta. induction fuel as [|fuel IH]; intros k h Ht Ha Hfuel.
  - cbn [cmd_parts_loop]. unfold index. rewrite Ht.
    replace (k + 1 - 1) with k by lia.
    rewrite lookup_ge_None_2 by lia. cbn [default].
    eexists. split; [reflexivity|]. split; [reflexivity|exact Ha].
  - cbn [cmd_parts_loop].
    destruct (index t (k + 1) h) eqn:Hv;
      try (eexists; split; [reflexivity|]; split; [reflexivity|exact Ha]);
      cbn [is_string negb];
      try (eexists; split; [reflexivity|]; split; [reflexivity|exact Ha]).
    replace (k + 1 + 1) with (S k + 1) by lia.
    destruct (1 <? k + 1).
    + destruct (IH (S k) (state_of (table_insert a (LStr s) h))) as (o & Ho & Hframe & Hsome).
      * now rewrite table_insert_other.
      * now apply table_insert_same.
      * lia.
      * exists o. split; [exact Ho|]. split; [|exact Hsome].
        intros l Hl. now rewrite Hframe, table_insert_other.
    + destruct (IH (S k) h Ht Ha) as (o & Ho & Hframe & Hsome); [lia|].
      exists o. auto.
Qed.

(** X10. [lsp._cmd_parts] never changes a table that exists when it is
    called, whatever it is given and whether it returns or raises: the
    loop ends (the fuel is never used up), and every location that holds
    a table before the call holds the same table after it. *)
Theorem cmd_parts_never_mutates (input : lval) (h : store) :
  exists o,
    _cmd_parts input h = Some o /\
    forall l, is_Some (h !! l) -> state_of o !! l = h !! l.
Proof.
  unfold _cmd_parts. destruct (tbl_islist input h) eqn:Hlist; cbn [negb];
    [|eexists; split; [reflexivity|reflexivity]].
  destruct input as [| | | |t]; try discriminate Hlist.
  unfold tbl_islist in Hlist. apply bool_decide_eq_true_1 in Hlist as [items Ht].
  unfold new_table. set (a := fresh (dom h)).
  assert (Ha : h !! a = None) by (apply not_elem_of_dom; apply is_fresh).
  assert (Hta : t <> a) by (intros ->; rewrite Ha in Ht; discriminate).
  rewrite Ht. cbn [default].
  destruct (cmd_parts_loop_frame t a items (length items) Hta 0 (<[a := []]> h))
    as (o & Ho & Hframe & _).
  - now rewrite lookup_insert_ne by (intros E; apply Hta; now symmetry).
  - rewrite lookup_insert_eq. eauto.
  - lia.
  - change (0 + 1) with 1 in Ho. unfold id. rewrite Ho.
    assert (Hkeep : forall l, is_Some (h !! l) -> state_of o !! l = h !! l).
    { intros l [x Hl]. rewrite Hframe by (intros ->; rewrite Ha in Hl; discriminate).
      apply lookup_insert_ne. intros ->. rewrite Ha in Hl. discriminate. }
    destruct o as [[] h2|e h2]; eexists; (split; [reflexivity|exact Hkeep]).
Qed.

(** The loop on a list that starts with strings and then has something
    else. *)
Lemma cmd_parts_loop_raises (t a : loc) (pre : list string) (v : lval)
      (post : list lval) (fuel : nat) :
  t <> a -> is_string v = false -> v <> LNil ->
  forall (k : nat) (h : store),
    h !! t = Some (strings pre ++ v :: post) ->
    is_Some (h !! a) ->
    k <= length pre ->
    length pre - k < fuel ->
    exists h',
      cmd_parts_loop fuel t a (k + 1) h =
      Some (Raised {| param := "cmd argument"; expected := "s" |} h') /\
      h' !! t = h !! t.
Proof.
  intros Hta Hv Hnil. induction fuel as [|fuel IH]; intros k h Ht Ha Hk Hfuel; [lia|].
  cbn [cmd_parts_loop]. unfold index at 1. rewrite Ht.
  replace (k + 1 - 1) with k by lia.
  destruct (decide (k = length pre)) as [->|Hlt].
  - replace (length pre) with (length (strings pre) + 0)
      by (unfold strings; rewrite length_fmap; lia).
    rewrite lookup_app_r, Nat.add_comm, Nat.add_sub by lia. cbn [lookup default].
    change ((v :: post) !! 0) with (Some v). cbn [default].
    destruct v; try congruence; try discriminate Hv;
      (eexists; split; [reflexivity|exact Ht]).
  - assert (Hk' : k < length pre) by lia.
    destruct (lookup_lt_is_Some_2 pre k Hk') as [x Hx].
    rewrite lookup_app_l by (unfold strings; rewrite length_fmap; lia).
    unfold strings at 1. rewrite list_lookup_fmap, Hx. cbn [fmap option_fmap option_map default].
    cbn [is_string negb]. replace (k + 1 + 1) with (S k + 1) by lia.
    destruct (1 <? k + 1).
    + destruct (IH (S k) (state_of (table_insert a (LStr x) h))) as (h' & Hrun & Hsame).
      * now rewrite table_insert_other.
      * now apply table_insert_same.
      * lia.
      * lia.
      * exists h'. split; [exact Hrun|].
        now rewrite Hsame, table_insert_other.
    + destruct (IH (S k) h Ht Ha) as (h' & Hrun & Hsame); [lia|lia|].
      exists h'. split; [exact Hrun|]. now rewrite Hsame.
Qed.

(** X11. The failures and the edge of [lsp._cmd_parts]: an input that is
    not a list raises the validation error for ["cmd"]; a list whose
    first item that is not a string comes after strings only raises the
    validation error for ["cmd argument"]; the empty list gives [nil] as
    the command and a new, empty table of arguments. *)
Theorem cmd_parts_failures (h : store) :
  (forall input,
      tbl_islist input h = false ->
      _cmd_parts input h = Some (Raised {| param := "cmd"; expected := "list" |} h)) /\
  (forall t pre v post,
      h !! t = Some (strings pre ++ v :: post) ->
      is_string v = false -> v <> LNil ->
      exists h',
        _cmd_parts (LRef t) h =
        Some (Raised {| param := "cmd argument"; expected := "s" |} h') /\
        h' !! t = h !! t) /\
  (forall t,
      h !! t = Some [] ->
      _cmd_parts (LRef t) h =
      Some (Ok (LNil, LRef (fresh (dom h))) (<[fresh (dom h) := []]> h))).
Proof.
  assert (Ha : h !! fresh (dom h) = None) by (apply not_elem_of_dom; apply is_fresh).
  split; [|split].
  - intros input Hlist. unfold _cmd_parts. now rewrite Hlist.
  - intros t pre v post Ht Hv Hnil.
    assert (Hta : t <> fresh (dom h)) by (intros E; rewrite <- E, Ht in Ha; discriminate).
    unfold _cmd_parts, tbl_islist.
    rewrite bool_decide_eq_true_2 by (rewrite Ht; eauto).
    cbn [negb]. unfold new_table. rewrite Ht. cbn [default]. unfold id.
    destruct (cmd_parts_loop_raises t (fresh (dom h)) pre v post
                (length (strings pre ++ v :: post)) Hta Hv Hnil 0
                (<[fresh (dom h) := []]> h)) as (h' & Hrun & Hsame).
    + now rewrite lookup_insert_ne by (intros E; apply Hta; now symmetry).
    + rewrite lookup_insert_eq. eauto.
    + lia.
    + rewrite length_app. unfold strings. rewrite length_fmap. simpl. lia.
    + change (0 + 1) with 1 in Hrun. rewrite Hrun.
      exists h'. split; [reflexivity|]. rewrite Hsame.
      rewrite lookup_insert_ne by (intros E; apply Hta; now symmetry).
      exact Ht.
  - intros t Ht. unfold _cmd_parts, tbl_islist.
    rewrite bool_decide_eq_true_2 by (rewrite Ht; eauto).
    cbn [negb]. unfold new_table. rewrite Ht. cbn [default length id cmd_parts_loop].
    assert (Hta : t <> fresh (dom h)) by (intros E; rewrite <- E, Ht in Ha; discriminate).
    unfold index. rewrite lookup_insert_ne by (intros E; apply Hta; now symmetry).
    rewrite Ht. reflexivity.
Qed.

Lemma cmd_parts_failures_witness :
  _cmd_parts (LStr "clangd") {[ 1%positive := [LStr "clangd"; LNum 4] ]} =
    Some (Raised {| param := "cmd"; expected := "list" |}
                 {[ 1%positive := [LStr "clangd"; LNum 4] ]}) /\
  exists h',
    _cmd_parts (LRef 1%positive) {[ 1%positive := [LStr "clangd"; LNum 4] ]} =
      Some (Raised {| param := "cmd argument"; expected := "s" |} h') /\
    h' !! 1%positive =
      ({[ 1%positive := [LStr "clangd"; LNum 4] ]} : store) !! 1%positive.
Proof.
  destruct (cmd_parts_failures {[ 1%positive := [LStr "clangd"; LNum 4] ]})
    as (Hlist & Hitem & _).
  split; [apply Hlist; reflexivity|].
  apply (Hitem 1%positive ["clangd"] (LNum 4) []); [reflexivity|reflexivity|discriminate].
Defined.

End CmdPartsFacts.

Module LspFacts.
Import Lua Lsp.

(** *** The client-id allocator *)

Lemma next_client_id_eq (s : lsp_state) :
  next_client_id s =
  Ok (client_index s + 1) (set_client_index (client_index s + 1) s).
Proof. reflexivity. Qed.

Lemma allocations_above (between : list (lsp_state -> lsp_state)) :
  Forall (fun other => forall s, client_index (other s) = client_index s) between ->
  forall s,
    length (allocations between s) = length between /\
    Forall (fun id => client_index s < id) (allocations between s) /\
    StronglySorted Z.lt (allocations between s).
Proof.
  induction 1 as [|other rest Hother Hrest IH]; intros s; cbn [allocations].
  - repeat constructor.
  - rewrite next_client_id_eq, Hother.
    destruct (IH (set_client_index (client_index s + 1) (other s)))
      as (Hlen & Habove & Hsorted).
    cbn [client_index set_client_index] in Habove.
    cbn [length]. split; [now rewrite Hlen|]. split.
    + constructor; [lia|]. eapply Forall_impl; [exact Habove|].
      simpl. intros; lia.
    + constructor; [exact Hsorted|exact Habove].
Qed.

(** C8. [next_client_id] is strictly monotonic: whatever the rest of the
    program does between the calls (it has no access to the counter),
    every call returns, and returns a value strictly greater than the
    counter it found and than every value returned before
    ([StronglySorted Z.lt]); hence no two calls return the same id. *)
Theorem next_client_id_strictly_monotonic
        (between : list (lsp_state -> lsp_state)) (s : lsp_state) :
  Forall (fun other => forall s, client_index (other s) = client_index s) between ->
  length (allocations between s) = length between /\
  Forall (fun id => client_index s < id) (allocations between s) /\
  StronglySorted Z.lt (allocations between s) /\
  NoDup (allocations between s).
Proof.
  intros Hframe.
  destruct (allocations_above between Hframe s) as (Hlen & Habove & Hsorted).
  repeat split; try assumption.
  clear Hlen Habove. induction Hsorted as [|id ids Hs IH Hlt]; constructor.
  - intros Hin. rewrite Forall_forall in Hlt.
    specialize (Hlt id Hin). lia.
  - exact IH.
Qed.

Lemma next_client_id_strictly_monotonic_witness :
  length (allocations [id; set_ui [ErrWriteln "x"]; id] initial_state) = 3%nat /\
  Forall (fun id => client_index initial_state < id)
         (allocations [id; set_ui [ErrWriteln "x"]; id] initial_state) /\
  StronglySorted Z.lt (allocations [id; set_ui [ErrWriteln "x"]; id] initial_state) /\
  NoDup (allocations [id; set_ui [ErrWriteln "x"]; id] initial_state).
Proof.
  apply (next_client_id_strictly_monotonic
           [id; set_ui [ErrWriteln "x"]; id] initial_state).
  repeat constructor.
Defined.

Example allocations_from_start :
  allocations [id; id; id] initial_state = [1; 2; 3].
Proof. reflexivity. Qed.

(** *** [handlers.server_request] *)

Lemma resolve_callback_None (e : env) (cfg : config) (method : string) :
  resolve_callback e cfg method = None <->
  cfg_callbacks cfg !! method = None /\ default_callbacks e !! method = None.
Proof.
  unfold resolve_callback. destruct (cfg_callbacks cfg !! method).
  - split; [discriminate|intros [? _]; discriminate].
  - tauto.
Qed.

(** C3. For a request of the server whose method has neither a callback
    in the client's [config.callbacks] nor a default callback,
    [handlers.server_request] returns [nil] as the result together with
    the RPC error [{ code = MethodNotFound, message = ... }], and leaves
    the whole state, the connection included, as it was.  When
    [config.callbacks] has a callback for the method, the values
    returned are those of that callback, called with
    [(nil, method, params, client_id)], whether or not there is a
    default callback as well; when it has none and there is a default
    callback, they are those of the default callback. *)
Theorem server_request_method_not_found
        (e : env) (cfg : config) (client_id : Z) (method : string)
        (params : value) (s : lsp_state) :
  (cfg_callbacks cfg !! method = None ->
   default_callbacks e !! method = None ->
   handlers_server_request e cfg client_id method params s =
   Ok [VNil;
       VTable [("code", VNum (MethodNotFound e));
               ("message", VStr (error_code_name e (MethodNotFound e)))]] s) /\
  (forall callback,
      cfg_callbacks cfg !! method = Some callback ->
      handlers_server_request e cfg client_id method params s =
      user e callback [VNil; VStr method; params; VNum client_id] s) /\
  (forall callback,
      cfg_callbacks cfg !! method = None ->
      default_callbacks e !! method = Some callback ->
      handlers_server_request e cfg client_id method params s =
      user e callback [VNil; VStr method; params; VNum client_id] s).
Proof.
  unfold handlers_server_request, resolve_callback. split; [|split].
  - intros -> ->. reflexivity.
  - intros callback ->. reflexivity.
  - intros callback -> ->. reflexivity.
Qed.

Lemma server_request_method_not_found_witness :
  handlers_server_request sample_env sample_config 1 "workspace/unknown"
                          VNil initial_state =
  Ok [VNil; VTable [("code", VNum (-32601));
                    ("message", VStr "MethodNotFound")]] initial_state /\
  handlers_server_request sample_env custom_config 1 "window/showMessage"
                          (VStr "hi") initial_state =
  user sample_env "boom" [VNil; VStr "window/showMessage"; VStr "hi"; VNum 1]
       initial_state /\
  handlers_server_request sample_env sample_config 1 "window/showMessage"
                          (VStr "hi") initial_state =
  user sample_env "show" [VNil; VStr "window/showMessage"; VStr "hi"; VNum 1]
       initial_state.
Proof.
  destruct (server_request_method_not_found
              sample_env sample_config 1 "workspace/unknown" VNil initial_state)
    as (Hnone & _ & _).
  destruct (server_request_method_not_found
              sample_env custom_config 1 "window/showMessage" (VStr "hi")
              initial_state) as (_ & Hown & _).
  destruct (server_request_method_not_found
              sample_env sample_config 1 "window/showMessage" (VStr "hi")
              initial_state) as (_ & _ & Hdefault).
  split; [apply Hnone; reflexivity|].
  split; [apply Hown; reflexivity|apply Hdefault; reflexivity].
Defined.

Example server_request_own_callback_first :
  value_of (handlers_server_request sample_env custom_config 1 "window/showMessage"
                                    (VStr "hi") initial_state)
  = inl (VStr "boom") /\
  ui (state_of (handlers_server_request sample_env sample_config 1
                                        "window/showMessage" (VStr "hi")
                                        initial_state))
  = [ErrWriteln "hi"; Command "redraw"].
Proof. split; reflexivity. Qed.

(** *** The handlers that call the user's [on_error] and [on_exit] *)

Lemma err_message_eq (parts : list string) (s : lsp_state) :
  err_message parts s =
  Ok tt (set_ui (ui s ++ [ErrWriteln (String.concat "" parts);
                          Command "redraw"]) s).
Proof. reflexivity. Qed.

(** [handlers.on_error] returns whatever the user's [on_error] does. *)
Lemma handlers_on_error_returns (e : env) (cfg : config) (client_id code : Z)
      (err : value) (s : lsp_state) :
  exists s', handlers_on_error e cfg client_id code err s = Ok tt s'.
Proof.
  unfold handlers_on_error, bind. rewrite err_message_eq.
  destruct (cfg_on_error cfg) as [f|]; [|eexists; reflexivity].
  unfold pcall. destruct (user e f _ _) as [vs s'|usererr s'].
  - eexists; reflexivity.
  - rewrite err_message_eq. eexists; reflexivity.
Qed.

(** An error raised by the user's [on_error] is caught and written on
    the error surface. *)
Lemma handlers_on_error_reports (e : env) (cfg : config) (client_id code : Z)
      (err usererr : value) (s s' : lsp_state) (f : fn) :
  cfg_on_error cfg = Some f ->
  user e f [VNum code; err]
       (state_of (err_message [log_prefix cfg client_id; ": Error ";
                               client_errors e code; ": "; inspect e err] s))
  = Raised usererr s' ->
  handlers_on_error e cfg client_id code err s =
  Ok tt (set_ui (ui s' ++ [ErrWriteln (String.concat ""
                                         [log_prefix cfg client_id;
                                          " user on_error failed: ";
                                          tostring e usererr]);
                           Command "redraw"]) s').
Proof.
  intros Hf Hraise. unfold handlers_on_error, bind.
  rewrite err_message_eq, Hf. unfold pcall.
  rewrite err_message_eq in Hraise. cbn [state_of] in Hraise.
  rewrite Hraise. apply err_message_eq.
Qed.

(** [handlers.on_exit] returns whatever the user's [on_exit] does. *)
Lemma handlers_on_exit_returns (e : env) (cfg : config)
      (client_id code signal : Z) (s : lsp_state) :
  exists s', handlers_on_exit e cfg client_id code signal s = Ok tt s'.
Proof.
  unfold handlers_on_exit, bind, get, put, modify, pcall, ret.
  destruct (cfg_on_exit cfg) as [f|]; [|eexists; reflexivity].
  destruct (user e f _ _); eexists; reflexivity.
Qed.

(** The state in which [handlers.on_exit] calls the user's [on_exit]. *)
Lemma handlers_on_exit_discards (e : env) (cfg : config)
      (client_id code signal : Z) (usererr : value) (s s' : lsp_state) (f : fn) :
  cfg_on_exit cfg = Some f ->
  user e f [VNum code; VNum signal; VNum client_id]
       (set_scheduled
          (scheduled s ++ [ClearDiagnostics
                             (buffers_of client_id (all_buffer_active_clients s))])
          (set_client_tables
             (active_clients s ∖ {[client_id]})
             (uninitialized_clients s ∖ {[client_id]})
             ((fun client_ids => client_ids ∖ {[client_id]})
                <$> all_buffer_active_clients s) s))
  = Raised usererr s' ->
  handlers_on_exit e cfg client_id code signal s = Ok tt s'.
Proof.
  intros Hf Hraise.
  unfold handlers_on_exit, bind, get, put, modify, pcall, ret.
  rewrite Hf. cbn [scheduled set_client_tables]. now rewrite Hraise.
Qed.

(** C5. Where the code departs from the claim: the user's [on_exit]
    raises the error ["boom"] when the server of client 1 exits.
    [handlers.on_exit] catches the error and returns, but writes nothing
    on the error surface, which is as empty after the call as before;
    [handlers.on_error], in the same situation, returns as well and
    reports ["LSP[clangd] user on_error failed: boom"]. *)
Theorem on_exit_error_not_reported :
  user sample_env "boom" [VNum 0; VNum 15; VNum 1] =
    raise (VStr "boom") /\
  (exists s', handlers_on_exit sample_env failing_config 1 0 15
                               (sample_state failing_config) = Ok tt s' /\
              ui s' = ui (sample_state failing_config) /\
              ui s' = []) /\
  (exists s', handlers_on_error sample_env failing_config 1 2 (VStr "bad")
                                (sample_state failing_config) = Ok tt s' /\
              ui s' = [ErrWriteln "LSP[clangd]: Error 2: bad"; Command "redraw";
                       ErrWriteln "LSP[clangd] user on_error failed: boom";
                       Command "redraw"]).
Proof.
  split; [reflexivity|]. split.
  - eexists. split; [|split].
    + eapply handlers_on_exit_discards with (f := "boom") (usererr := VStr "boom");
        reflexivity.
    + reflexivity.
    + reflexivity.
  - eexists. split.
    + eapply handlers_on_error_reports with (f := "boom") (usererr := VStr "boom");
        reflexivity.
    + reflexivity.
Qed.


(** *** [client.request] *)

Lemma client_object_eq (client_id : Z) (s : lsp_state) (c : client) :
  clients s !! client_id = Some c -> client_object client_id s = Ok c s.
Proof. intros H. unfold client_object. now rewrite H. Qed.

Lemma on_rpc_eq (client_id : Z) (op : rpc_client -> list value * rpc_client)
      (s : lsp_state) (c : client) :
  clients s !! client_id = Some c ->
  on_rpc client_id op s =
  Ok (op (rpc c)).1
     (set_clients (<[client_id := set_rpc (op (rpc c)).2 c]> (clients s)) s).
Proof.
  intros H. unfold on_rpc, bind. rewrite (client_object_eq _ _ _ H).
  now destruct (op (rpc c)).
Qed.

(** C1, the case the claim leaves out.  The server of client 1 lacks the
    [hover] capability: [client.request] for ["textDocument/hover"]
    reports "server doesn't support ...", calls the callback with the
    error, and returns nothing; no id is allocated, no callback is
    recorded and no frame is written. *)
Lemma request_unsupported_allocates_nothing :
  client_request sample_env 1 "textDocument/hover" VNil (Some (UserFn "show"))
                 (VNum 1) (sample_state sample_config)
  = Ok [] (set_ui [ErrWriteln "server doesn't support textDocument/hover";
                   Command "redraw"] (sample_state sample_config)) /\
  ~ request_allocates sample_env 1 "textDocument/hover" VNil
                      (Some (UserFn "show")) (VNum 1)
                      (sample_state sample_config).
Proof.
  assert (H : client_request sample_env 1 "textDocument/hover" VNil
                             (Some (UserFn "show")) (VNum 1)
                             (sample_state sample_config)
              = Ok [] (set_ui [ErrWriteln "server doesn't support textDocument/hover";
                               Command "redraw"] (sample_state sample_config)))
    by reflexivity.
  split; [exact H|].
  intros (id & status & s' & c & c' & cl & _ & Hreq & _).
  rewrite H in Hreq. discriminate Hreq.
Qed.

(** [rpc.notify] writes a frame, or nothing; the pending map is not its
    business. *)
Lemma rpc_notify_pending (method : string) (params : value) (r : rpc_client) :
  (rpc_notify method params r).1 = [VBool (negb (closing r))] /\
  pending (rpc_notify method params r).2 = pending r /\
  message_index (rpc_notify method params r).2 = message_index r /\
  closing (rpc_notify method params r).2 = closing r /\
  sent (rpc_notify method params r).2 =
    sent r ++ (if closing r then [] else [Notification method params]).
Proof.
  unfold rpc_notify. destruct (closing r) eqn:E; simpl;
    rewrite ?app_nil_r; auto.
Qed.


Lemma chosen_callback_eq (e : env) (client_id : Z) (c : client) (method : string)
      (given : option callback) (s : lsp_state) :
  match given with
  | Some cb0 => ret cb0
  | None =>
      match resolve_callback e (client_config c) method with
      | Some f => ret (UserFn f)
      | None =>
          error_at e 639
                   ("not found: " ++ format_q method
                    ++ " request callback for client "
                    ++ format_q (client_name (client_config c) client_id)
                    ++ ".")
      end
  end s =
  match chosen_callback e c method given with
  | Some cb => Ok cb s
  | None => error_at e 639
                     ("not found: " ++ format_q method
                      ++ " request callback for client "
                      ++ format_q (client_name (client_config c) client_id)
                      ++ ".") s
  end.
Proof.
  unfold chosen_callback. destruct given; [reflexivity|].
  now destruct (resolve_callback e (client_config c) method).
Qed.

(** [client.request] with a callback on an initialized client, at its
    test of the capabilities: either the guard, which reports, calls the
    callback and returns, or [rpc.request]. *)
Lemma client_request_eq
      (e : env) (client_id : Z) (method : string) (params : value)
      (given : option callback) (bufnr : value) (s : lsp_state)
      (c : client) (caps : capabilities) (cb : callback) :
  clients s !! client_id = Some c ->
  chosen_callback e c method given = Some cb ->
  resolved_capabilities c = Some caps ->
  client_request e client_id method params given bufnr s =
  if capability_missing caps method then
    bind (apply_callback
            e cb
            [VTable [("code", VNum (MethodNotFound e));
                     ("message", VStr ("server doesn't support " ++ method))];
             VStr method; VNil; VNum client_id; bufnr])
         (fun _ => ret [])
         (set_ui (ui s ++ [ErrWriteln ("server doesn't support " ++ method);
                           Command "redraw"]) s)
  else
    on_rpc client_id
           (rpc_request method params
                        {| rc_callback := cb; rc_method := method;
                           rc_client_id := client_id; rc_bufnr := bufnr |}) s.
Proof.
  intros Hc Hcb Hcaps.
  unfold client_request, bind at 1. rewrite (client_object_eq _ _ _ Hc).
  unfold bind at 1. rewrite chosen_callback_eq, Hcb.
  unfold bind at 1. rewrite Hcaps. unfold ret at 1.
  now destruct (capability_missing caps method).
Qed.

(** Every operation of the RPC client keeps the ids of the pending map
    among those given out. *)
Lemma pending_allocated_apply (r : rpc_client) (op : rpc_op) :
  pending_allocated r -> pending_allocated (rpc_apply r op).
Proof.
  intros Hr. destruct op as [method params callback|method params|id|];
    cbn [rpc_apply].
  - unfold rpc_request. destruct (closing r); [exact Hr|].
    intros id. cbn [snd pending message_index].
    rewrite lookup_insert. case_decide as Hid; [intros _; lia|].
    intros Hsome. specialize (Hr id Hsome). lia.
  - destruct (rpc_notify_pending method params r) as (_ & Hp & Hm & _).
    intros id'. rewrite Hp, Hm. apply Hr.
  - intros id'. cbn [without_pending pending message_index].
    rewrite lookup_delete. case_decide; [intros [? Hnone]; discriminate Hnone|apply Hr].
  - exact Hr.
Qed.

(** So they are, whatever the history of the RPC client. *)
Lemma rpc_after_pending (history : list rpc_op) :
  pending_allocated (rpc_after history).
Proof.
  unfold rpc_after.
  assert (Hfold : forall r, pending_allocated r ->
                            pending_allocated (foldl rpc_apply r history)).
  { induction history as [|op history IH]; intros r Hr; [exact Hr|].
    cbn [foldl]. apply IH. now apply pending_allocated_apply. }
  apply Hfold. intros id [cl Hcl]. discriminate Hcl.
Qed.

(** C1, amended.  On an initialized client, with a callback that is
    given or that [resolve_callback] finds: when the method is not one
    whose capability the server lacks and the RPC client has not shut
    down, [client.request] allocates the correlation id
    [message_index + 1], which is not in the pending map whatever the
    history of the RPC client since its start, records for it the
    closure that calls the callback with
    [(err, method, result, client_id, bufnr)], appends the request frame
    to what was written, and returns [true] and the id; the request is
    then the last item of the history.  When the
    method is one whose capability the server lacks, [client.request]
    writes ["server doesn't support <method>"] on the error surface,
    calls the callback with the [MethodNotFound] error and returns no
    value, and [rpc.request] is not reached: no id is allocated and no
    frame is written. *)
Theorem client_request_allocates
        (e : env) (client_id : Z) (method : string) (params : value)
        (given : option callback) (bufnr : value) (s : lsp_state)
        (c : client) (caps : capabilities) (cb : callback) :
  clients s !! client_id = Some c ->
  chosen_callback e c method given = Some cb ->
  resolved_capabilities c = Some caps ->
  (capability_missing caps method = false ->
   closing (rpc c) = false ->
   forall history : list rpc_op,
     rpc c = rpc_after history ->
     let id := message_index (rpc c) + 1 in
     let cl := {| rc_callback := cb; rc_method := method;
                  rc_client_id := client_id; rc_bufnr := bufnr |} in
     let r' := {| message_index := id;
                  pending := <[id := cl]> (pending (rpc c));
                  sent := sent (rpc c) ++ [Request id method params];
                  closing := false |} in
     pending (rpc c) !! id = None /\
     client_request e client_id method params given bufnr s
     = Ok [VBool true; VNum id]
          (set_clients (<[client_id := set_rpc r' c]> (clients s)) s) /\
     request_allocates e client_id method params given bufnr s /\
     r' = rpc_after (history ++ [RpcRequest method params cl])) /\
  (capability_missing caps method = true ->
   client_request e client_id method params given bufnr s =
   bind (apply_callback
           e cb
           [VTable [("code", VNum (MethodNotFound e));
                    ("message", VStr ("server doesn't support " ++ method))];
            VStr method; VNil; VNum client_id; bufnr])
        (fun _ => ret [])
        (set_ui (ui s ++ [ErrWriteln ("server doesn't support " ++ method);
                          Command "redraw"]) s) /\
   ~ request_allocates e client_id method params given bufnr s).
Proof.
  intros Hc Hcb Hcaps.
  pose proof (client_request_eq e client_id method params given bufnr s c caps cb
                                Hc Hcb Hcaps) as Hrequest.
  split.
  - intros Hgate Hopen history Hhistory id cl r'.
    assert (Hfresh : pending (rpc c) !! id = None).
    { destruct (pending (rpc c) !! id) eqn:E; [|reflexivity].
      pose proof (rpc_after_pending history id) as Halloc.
      rewrite <- Hhistory, E in Halloc.
      specialize (Halloc (ex_intro _ _ eq_refl)). unfold id in Halloc. lia. }
    assert (Hrun : client_request e client_id method params given bufnr s
                   = Ok [VBool true; VNum id]
                        (set_clients (<[client_id := set_rpc r' c]> (clients s)) s)).
    { rewrite Hrequest, Hgate, (on_rpc_eq _ _ _ _ Hc). unfold rpc_request.
      rewrite Hopen. reflexivity. }
    split; [exact Hfresh|]. split; [exact Hrun|]. split.
    + exists id, (VBool true),
             (set_clients (<[client_id := set_rpc r' c]> (clients s)) s),
             c, (set_rpc r' c), cl.
      split; [exact Hc|]. split; [exact Hrun|].
      split; [apply lookup_insert_eq|]. split; [exact Hfresh|].
      split; [apply lookup_insert_eq|reflexivity].
    + unfold rpc_after. rewrite foldl_app. cbn [foldl rpc_apply].
      fold (rpc_after history). rewrite <- Hhistory. unfold rpc_request.
      now rewrite Hopen.
  - intros Hgate. rewrite Hgate in Hrequest. split; [exact Hrequest|].
    intros (id & status & s' & c0 & c' & cl & _ & Hreq & _).
    rewrite Hrequest in Hreq. unfold bind in Hreq.
    destruct (apply_callback e cb _ _); discriminate Hreq.
Qed.

Lemma client_request_allocates_witness :
  (pending (rpc (sample_client sample_config)) !! 1 = None /\
   client_request sample_env 1 "textDocument/references" VNil
                  (Some (UserFn "show")) (VNum 1) (sample_state sample_config)
   = Ok [VBool true; VNum 1]
        (set_clients
           (<[1 := set_rpc
                     {| message_index := 1;
                        pending := <[1 := {| rc_callback := UserFn "show";
                                             rc_method := "textDocument/references";
                                             rc_client_id := 1;
                                             rc_bufnr := VNum 1 |}]> ∅;
                        sent := [Request 1 "textDocument/references" VNil];
                        closing := false |}
                     (sample_client sample_config)]>
              (clients (sample_state sample_config)))
           (sample_state sample_config)) /\
   request_allocates sample_env 1 "textDocument/references" VNil
                     (Some (UserFn "show")) (VNum 1) (sample_state sample_config) /\
   {| message_index := 1;
      pending := <[1 := {| rc_callback := UserFn "show";
                           rc_method := "textDocument/references";
                           rc_client_id := 1;
                           rc_bufnr := VNum 1 |}]> ∅;
      sent := [Request 1 "textDocument/references" VNil];
      closing := false |}
   = rpc_after [RpcRequest "textDocument/references" VNil
                           {| rc_callback := UserFn "show";
                              rc_method := "textDocument/references";
                              rc_client_id := 1;
                              rc_bufnr := VNum 1 |}]) /\
  (client_request sample_env 1 "textDocument/hover" VNil
                  (Some (UserFn "show")) (VNum 1) (sample_state sample_config)
   = bind (apply_callback
             sample_env (UserFn "show")
             [VTable [("code", VNum (MethodNotFound sample_env));
                      ("message",
                       VStr ("server doesn't support " ++ "textDocument/hover"))];
              VStr "textDocument/hover"; VNil; VNum 1; VNum 1])
          (fun _ => ret [])
          (set_ui (ui (sample_state sample_config)
                   ++ [ErrWriteln ("server doesn't support " ++ "textDocument/hover");
                       Command "redraw"]) (sample_state sample_config)) /\
   ~ request_allocates sample_env 1 "textDocument/hover" VNil
                       (Some (UserFn "show")) (VNum 1) (sample_state sample_config)).
Proof.
  split.
  - destruct (client_request_allocates
                sample_env 1 "textDocument/references" VNil (Some (UserFn "show"))
                (VNum 1) (sample_state sample_config) (sample_client sample_config)
                sample_capabilities (UserFn "show") eq_refl eq_refl eq_refl)
      as [Hallocates _].
    apply (Hallocates eq_refl eq_refl []). reflexivity.
  - destruct (client_request_allocates
                sample_env 1 "textDocument/hover" VNil (Some (UserFn "show"))
                (VNum 1) (sample_state sample_config) (sample_client sample_config)
                sample_capabilities (UserFn "show") eq_refl eq_refl eq_refl)
      as [_ Hgated].
    apply Hgated. reflexivity.
Defined.


(** *** [client.cancel_request] *)

(** [client.cancel_request(id)] is the notification [$/cancelRequest]
    for the id, through [rpc.notify], and nothing else. *)
Lemma cancel_request_eq (client_id id : Z) (s : lsp_state) (c : client) :
  clients s !! client_id = Some c ->
  client_cancel_request client_id id s =
  Ok [VBool (negb (closing (rpc c)))]
     (set_clients
        (<[client_id :=
             set_rpc (rpc_notify "$/cancelRequest" (VTable [("id", VNum id)])
                                 (rpc c)).2 c]> (clients s)) s).
Proof.
  intros Hc. unfold client_cancel_request.
  rewrite (on_rpc_eq _ _ _ _ Hc).
  now rewrite (proj1 (rpc_notify_pending _ _ _)).
Qed.

Lemma rpc_on_response_pending (e : env) (client_id id : Z) (err result : value)
      (s : lsp_state) (c : client) (cl : request_closure) :
  clients s !! client_id = Some c ->
  pending (rpc c) !! id = Some cl ->
  rpc_on_response e client_id id err result s =
  bind (apply_callback e (rc_callback cl)
                       [err; VStr (rc_method cl); result;
                        VNum (rc_client_id cl); rc_bufnr cl])
       (fun _ => ret tt)
       (set_clients
          (<[client_id := set_rpc (without_pending id (rpc c)) c]> (clients s)) s).
Proof.
  intros Hc Hcl. unfold rpc_on_response, bind at 1.
  rewrite (client_object_eq _ _ _ Hc), Hcl. reflexivity.
Qed.


(** *** [lsp.buf_request_sync] *)

Example sync_completed :
  value_of (buf_request_sync sample_env (Some 1) "textDocument/references" VNil
                             (Some 50) [Turn []; Turn [Response 1 1 VNil (VStr "r")]]
                             (sample_state sample_config))
  = inr (Results {[ 1 := (VNil, VStr "r") ]}).
Proof. vm_compute. reflexivity. Qed.

Example sync_timeout :
  value_of (buf_request_sync sample_env (Some 1) "textDocument/references" VNil
                             (Some 50) [] (sample_state sample_config))
  = inr (Failure (Some "timeout")) /\
  (sent ∘ rpc) <$> clients (state_of (buf_request_sync
                              sample_env (Some 1) "textDocument/references" VNil
                              (Some 50) [] (sample_state sample_config))) !! 1
  = Some [Request 1 "textDocument/references" VNil; cancel_frame 1].
Proof. split; vm_compute; reflexivity. Qed.

Example sync_late_response :
  value_of (buf_request_sync sample_env (Some 1) "textDocument/references" VNil
                             (Some 50)
                             [Turn []; Turn []; Turn []; Turn []; Turn [];
                              Turn [Response 1 1 VNil (VStr "r")]]
                             (sample_state sample_config))
  = inr (Failure (Some "timeout")).
Proof. vm_compute. reflexivity. Qed.

Example sync_interrupted :
  value_of (buf_request_sync sample_env (Some 1) "textDocument/references" VNil
                             None [Turn []; Interrupt]
                             (sample_state sample_config))
  = inr (Failure (Some "interrupted")).
Proof. vm_compute. reflexivity. Qed.

Example sync_unsupported :
  value_of (buf_request_sync sample_env (Some 1) "textDocument/hover" VNil
                             None [] (sample_state sample_config))
  = inr (Results {[ 1 := (VTable [("code", VNum (-32601));
                                  ("message",
                                   VStr "server doesn't support textDocument/hover")],
                          VNil) ]}).
Proof. vm_compute. reflexivity. Qed.

(** The locals are those of the call: a first call times out and its
    request stays outstanding; the response comes while a second call
    waits.  It is counted for the first call, whose locals nothing reads
    any more, and the second call, whose own request is not answered,
    times out as well. *)
Example sync_response_to_an_earlier_call :
  value_of (buf_request_sync
              sample_env (Some 1) "textDocument/references" VNil (Some 50)
              [Turn [Response 1 1 VNil (VStr "late")]]
              (state_of (buf_request_sync
                           sample_env (Some 1) "textDocument/references" VNil
                           (Some 50) [] (sample_state sample_config))))
  = inr (Failure (Some "timeout")) /\
  sync_calls (state_of (buf_request_sync
              sample_env (Some 1) "textDocument/references" VNil (Some 50)
              [Turn [Response 1 1 VNil (VStr "late")]]
              (state_of (buf_request_sync
                           sample_env (Some 1) "textDocument/references" VNil
                           (Some 50) [] (sample_state sample_config)))))
  = [{| request_results := {[ 1 := (VNil, VStr "late") ]}; result_count := 1 |};
     new_sync_locals].
Proof. split; vm_compute; reflexivity. Qed.

(** The reasons are told apart. *)
Lemma wait_result_reasons_distinct :
  wait_result_reason (VNum (-1)) = Some "timeout" /\
  wait_result_reason (VNum (-2)) = Some "interrupted" /\
  wait_result_reason (VNum (-3)) = Some "error" /\
  "timeout" <> "interrupted" /\ "timeout" <> "error" /\ "interrupted" <> "error".
Proof. repeat split; discriminate. Qed.

(** The three ways [vim.wait] returns. *)
Lemma wait_polls_status (e : env) (predicate : lsp_state -> bool) (polls : nat) :
  forall (turns : list turn) (s s' : lsp_state) (w : list value),
    wait_polls e polls predicate turns s = Ok w s' ->
    (w = [VBool true] /\ predicate s' = true) \/
    (w = [VBool false; VNum (-1)] /\ predicate s' = false) \/
    (w = [VBool false; VNum (-2)] /\ predicate s' = false).
Proof.
  induction polls as [|polls IH]; intros turns s s' w; cbn [wait_polls];
    unfold bind at 1, get; destruct (predicate s) eqn:Hp.
  - intros [= <- <-]. auto.
  - intros [= <- <-]. auto.
  - intros [= <- <-]. auto.
  - destruct turns as [|[events|] rest].
    + apply IH.
    + unfold bind. destruct (for_each events (handle_event e) s); [|discriminate].
      apply IH.
    + intros [= <- <-]. auto.
Qed.

(** When the clients of the requests are still in [active_clients],
    [_cancel_all_requests] cancels the requests one after the other. *)
Lemma cancel_each_active (entries : list (Z * Z)) :
  forall s : lsp_state,
    (forall entry, entry ∈ entries ->
                   entry.1 ∈ active_clients s /\ is_Some (clients s !! entry.1)) ->
    for_each entries cancel_one s =
    Ok tt (foldl (fun st entry =>
                    state_of (client_cancel_request entry.1 entry.2 st))
                 s entries).
Proof.
  induction entries as [|[client_id request_id] rest IH]; intros s Hactive;
    [reflexivity|].
  destruct (Hactive (client_id, request_id)) as [Hin [c Hc]]; [left|].
  cbn [for_each foldl fst snd]. unfold bind at 1, cancel_one, bind at 1, get.
  unfold active_client. rewrite bool_decide_eq_true_2 by exact Hin.
  unfold bind at 1. rewrite (cancel_request_eq _ _ _ _ Hc). cbn [state_of].
  unfold ret at 1. apply IH. intros entry Hentry.
  destruct (Hactive entry) as [Hin' Hsome']; [now right|].
  split; [exact Hin'|]. cbn [clients set_clients].
  rewrite lookup_insert. case_decide; [eauto|exact Hsome'].
Qed.

(** What [buf_request_sync] returns once the requests are sent and
    [vim.wait] has returned, provided that the clients the requests went
    to are still active when the wait fails: the results when they all
    came in, and otherwise, after a [$/cancelRequest] for every
    request, [nil] with ["timeout"] or ["interrupted"]. *)
Lemma buf_request_sync_statuses
      (e : env) (bufnr : option Z) (method : string) (params : value)
      (timeout_ms : option Z) (turns : list turn)
      (s s1 s2 : lsp_state) (ids : gmap Z Z) (w : list value) :
  let call := length (sync_calls s) in
  buf_request e bufnr method params (Some (SyncCallback call)) (new_sync_call s)
  = Ok ids s1 ->
  vim_wait e (default 100 timeout_ms)
           (fun st => Z.of_nat (size ids) <=? result_count (locals_of call st))
           10 turns s1
  = Ok w s2 ->
  (forall client_id, is_Some (ids !! client_id) ->
                     client_id ∈ active_clients s2 /\
                     is_Some (clients s2 !! client_id)) ->
  (buf_request_sync e bufnr method params timeout_ms turns s
   = Ok (Results (request_results (locals_of call s2))) s2 /\
   Z.of_nat (size ids) <= result_count (locals_of call s2)) \/
  (exists reason,
      (reason = "timeout" \/ reason = "interrupted") /\
      Z.of_nat (size ids) > result_count (locals_of call s2) /\
      buf_request_sync e bufnr method params timeout_ms turns s
      = Ok (Failure (Some reason))
           (foldl (fun st entry =>
                     state_of (client_cancel_request entry.1 entry.2 st))
                  s2 (map_to_list ids))).
Proof.
  intros call Hreq Hwait Hactive.
  assert (Hcancel : cancel_all_requests ids s2 =
                    Ok tt (foldl (fun st entry =>
                                    state_of (client_cancel_request entry.1 entry.2 st))
                                 s2 (map_to_list ids))).
  { apply cancel_each_active. intros [client_id request_id] Hentry.
    apply Hactive. apply elem_of_map_to_list in Hentry. eauto. }
  assert (Hrun : buf_request_sync e bufnr method params timeout_ms turns s =
                 (if negb (truthy (nth_value 0 w))
                  then bind (cancel_all_requests ids)
                            (fun _ => ret (Failure (wait_result_reason (nth_value 1 w))))
                  else bind get (fun st =>
                                   ret (Results (request_results (locals_of call st)))))
                   s2).
  { unfold buf_request_sync. unfold bind at 1, get. unfold bind at 1, put.
    unfold bind at 1. fold call. rewrite Hreq. unfold bind at 1.
    now rewrite Hwait. }
  rewrite Hrun.
  apply wait_polls_status in Hwait as [[-> Hp]|[[-> Hp]|[-> Hp]]];
    cbn [nth_value nth truthy negb].
  - left. split; [reflexivity|]. now apply Z.leb_le.
  - right. exists "timeout". split; [now left|].
    split; [apply Z.leb_gt in Hp; lia|].
    unfold bind. now rewrite Hcancel.
  - right. exists "interrupted". split; [now right|].
    split; [apply Z.leb_gt in Hp; lia|].
    unfold bind. now rewrite Hcancel.
Qed.


(** C6. Where the code departs from the claim: client 1 is attached to
    buffer 1 and a request is sent to it; while [vim.wait] runs, the
    server exits and [handlers.on_exit] takes the client out of
    [active_clients]; no response comes, and the wait times out.
    [_cancel_all_requests] then indexes [active_clients[1]], which is
    [nil]: the call raises an error, and returns neither the results nor
    [nil] and a reason. *)
Theorem buf_request_sync_raises_after_exit :
  value_of (buf_request_sync sample_env (Some 1) "textDocument/references" VNil
                             (Some 50) [Turn [Exit 1 0 15]]
                             (sample_state sample_config))
  = inl (VStr "attempt to index local 'client' (a nil value)") /\
  active_clients (state_of (buf_request_sync
                              sample_env (Some 1) "textDocument/references" VNil
                              (Some 50) [Turn [Exit 1 0 15]]
                              (sample_state sample_config))) = ∅.
Proof. split; vm_compute; reflexivity. Qed.


(** *** [validate_encoding] *)

Lemma lower_byte_idemp (c : ascii) : lower_byte (lower_byte c) = lower_byte c.
Proof. destruct c as [[] [] [] [] [] [] [] []]; reflexivity. Qed.

Lemma lower_idemp (s : string) : lower (lower s) = lower s.
Proof.
  induction s as [|c s IH]; [reflexivity|].
  cbn [lower]. now rewrite lower_byte_idemp, IH.
Qed.

(** No name in capitals is the lower-case form of a name. *)
Lemma lower_not_upper (encoding : string) :
  lower encoding <> "UTF8" /\ lower encoding <> "UTF16" /\ lower encoding <> "UTF32".
Proof.
  pose proof (lower_idemp encoding) as Hidem.
  repeat split; intros E; rewrite E in Hidem; discriminate Hidem.
Qed.

(** X12. [validate_encoding] decides by the lower-case form of the name
    alone, and touches nothing: a name that reads [utf-8] or [utf8] in
    whatever case gives ["utf-8"], likewise for ["utf-16"] and
    ["utf-32"]; every other name raises the error
    ["Invalid offset encoding <name, quoted>. Must be one of: 'utf-8',
    'utf-16', 'utf-32'"], with the position of the call before it.  The
    entries [UTF8], [UTF16] and [UTF32] of the table are never found. *)
Theorem validate_encoding_normalizes (e : env) (encoding : string) (s : lsp_state) :
  (lower encoding = "utf-8" \/ lower encoding = "utf8" ->
   validate_encoding e encoding s = Ok "utf-8" s) /\
  (lower encoding = "utf-16" \/ lower encoding = "utf16" ->
   validate_encoding e encoding s = Ok "utf-16" s) /\
  (lower encoding = "utf-32" \/ lower encoding = "utf32" ->
   validate_encoding e encoding s = Ok "utf-32" s) /\
  (lower encoding ∉ ["utf-8"; "utf8"; "utf-16"; "utf16"; "utf-32"; "utf32"] ->
   validate_encoding e encoding s =
   Raised (VStr (chunkname e ++ ":127: Invalid offset encoding "
                 ++ format_q encoding
                 ++ ". Must be one of: 'utf-8', 'utf-16', 'utf-32'")) s).
Proof.
  unfold validate_encoding.
  split; [|split; [|split]]; try (intros [-> | ->]; vm_compute; reflexivity).
  intros Hnot.
  destruct (lower_not_upper encoding) as (H8 & H16 & H32).
  assert (Hnone : valid_encodings !! lower encoding = None).
  { apply not_elem_of_list_to_map_1. cbn [fmap list_fmap fst].
    intros Hin.
    repeat (apply elem_of_cons in Hin as [Hin|Hin];
            [first [ now apply H8 | now apply H16 | now apply H32
                   | apply Hnot; rewrite Hin; repeat constructor ]|]).
    now apply elem_of_nil in Hin. }
  rewrite Hnone. reflexivity.
Qed.

Lemma validate_encoding_normalizes_witness :
  validate_encoding sample_env "UTF-8" initial_state = Ok "utf-8" initial_state /\
  validate_encoding sample_env "Utf16" initial_state = Ok "utf-16" initial_state /\
  validate_encoding sample_env "utf-32" initial_state = Ok "utf-32" initial_state /\
  validate_encoding sample_env "latin1" initial_state =
  Raised (VStr (chunkname sample_env ++ ":127: Invalid offset encoding "
                ++ format_q "latin1"
                ++ ". Must be one of: 'utf-8', 'utf-16', 'utf-32'")) initial_state.
Proof.
  split; [|split; [|split]].
  - apply (validate_encoding_normalizes sample_env "UTF-8" initial_state).
    left. reflexivity.
  - apply (validate_encoding_normalizes sample_env "Utf16" initial_state).
    right. reflexivity.
  - apply (validate_encoding_normalizes sample_env "utf-32" initial_state).
    left. reflexivity.
  - apply (validate_encoding_normalizes sample_env "latin1" initial_state).
    vm_compute. intros Hin.
    repeat (apply elem_of_cons in Hin as [Hin|Hin]; [discriminate Hin|]).
    now apply elem_of_nil in Hin.
Defined.


(** *** What [handlers.on_exit] leaves of a client *)

Lemma buffers_of_elem (client_id bufnr : Z) (buffers : gmap Z (gset Z)) :
  bufnr ∈ buffers_of client_id buffers <->
  exists client_ids, buffers !! bufnr = Some client_ids /\ client_id ∈ client_ids.
Proof.
  unfold buffers_of. rewrite list_elem_of_fmap. split.
  - intros ([b ids] & -> & Hin). apply elem_of_map_to_list in Hin.
    apply map_lookup_filter_Some in Hin as [Hb Hc]. eauto.
  - intros (ids & Hb & Hc). exists (bufnr, ids). split; [reflexivity|].
    apply elem_of_map_to_list. apply map_lookup_filter_Some. auto.
Qed.

Lemma handlers_on_exit_eq (e : env) (cfg : config) (client_id code signal : Z)
      (s : lsp_state) :
  handlers_on_exit e cfg client_id code signal s =
  match cfg_on_exit cfg with
  | Some on_exit =>
      bind (pcall (user e on_exit [VNum code; VNum signal; VNum client_id]))
           (fun _ => ret tt) (exited client_id s)
  | None => Ok tt (exited client_id s)
  end.
Proof.
  unfold handlers_on_exit, bind at 1, get, bind at 1, put, bind at 1, modify.
  now destruct (cfg_on_exit cfg).
Qed.

Ltac solve_diff :=
  repeat (rewrite elem_of_difference || rewrite elem_of_singleton);
  intuition congruence.

(** X13. When its server exits, a client is forgotten everywhere before
    the user's [on_exit] is called: in the state the callback sees (the
    final state when there is no callback) the client is stopped, cannot
    be got by its id, is not among the uninitialized clients and is
    attached to no buffer; for every other client nothing of this has
    changed; and one clearing of diagnostics is scheduled, for exactly
    the buffers the client was attached to. *)
Theorem on_exit_forgets_client (e : env) (cfg : config)
        (client_id code signal : Z) (s : lsp_state) :
  exists s1 buffers,
    handlers_on_exit e cfg client_id code signal s =
    match cfg_on_exit cfg with
    | Some on_exit =>
        bind (pcall (user e on_exit [VNum code; VNum signal; VNum client_id]))
             (fun _ => ret tt) s1
    | None => Ok tt s1
    end /\
    client_is_stopped client_id s1 = true /\
    get_client_by_id client_id s1 = None /\
    (client_id ∉ uninitialized_clients s1) /\
    (forall bufnr, buf_is_attached bufnr client_id s1 = false) /\
    (forall other,
        other <> client_id ->
        client_is_stopped other s1 = client_is_stopped other s /\
        get_client_by_id other s1 = get_client_by_id other s /\
        (other ∈ uninitialized_clients s1 <-> other ∈ uninitialized_clients s) /\
        forall bufnr, buf_is_attached bufnr other s1 = buf_is_attached bufnr other s) /\
    scheduled s1 = scheduled s ++ [ClearDiagnostics buffers] /\
    (forall bufnr, bufnr ∈ buffers <-> buf_is_attached bufnr client_id s = true).
Proof.
  exists (exited client_id s), (buffers_of client_id (all_buffer_active_clients s)).
  split; [apply handlers_on_exit_eq|].
  unfold client_is_stopped, get_client_by_id, buf_is_attached, active_client, exited.
  cbn [active_clients uninitialized_clients all_buffer_active_clients clients
       scheduled set_scheduled set_client_tables].
  assert (Hgone : bool_decide (client_id ∈ (active_clients s ∖ {[client_id]})) = false)
    by (apply bool_decide_eq_false_2; solve_diff).
  rewrite Hgone. repeat split.
  - solve_diff.
  - intros bufnr. rewrite lookup_fmap.
    destruct (all_buffer_active_clients s !! bufnr); [|reflexivity].
    apply bool_decide_eq_false_2. solve_diff.
  - f_equal. apply bool_decide_ext. solve_diff.
  - rewrite (bool_decide_ext (other ∈ (active_clients s ∖ {[client_id]}))
                             (other ∈ active_clients s)) by solve_diff.
    reflexivity.
  - solve_diff.
  - solve_diff.
  - intros bufnr. rewrite lookup_fmap.
    destruct (all_buffer_active_clients s !! bufnr); [|reflexivity].
    apply bool_decide_ext. solve_diff.
  - intros Hin. apply buffers_of_elem in Hin as (ids & -> & Hc).
    now apply bool_decide_eq_true_2.
  - intros Hatt. apply buffers_of_elem.
    destruct (all_buffer_active_clients s !! bufnr) as [ids|]; [|discriminate].
    exists ids. split; [reflexivity|]. now apply bool_decide_eq_true_1 in Hatt.
Qed.

(** X14. No error of a user's [on_error] or [on_exit] gets out of the
    handler that calls it: [handlers.on_error] and [handlers.on_exit]
    return whatever these functions do; and when the user's [on_error]
    raises an error, the last thing [handlers.on_error] does is to write
    ["<log_prefix> user on_error failed: <error>"] on the error surface
    and to redraw. *)
Theorem handlers_contain_user_errors (e : env) (cfg : config)
        (client_id code signal : Z) (err : value) (s : lsp_state) :
  (exists s', handlers_on_error e cfg client_id code err s = Ok tt s') /\
  (exists s', handlers_on_exit e cfg client_id code signal s = Ok tt s') /\
  (forall on_error usererr s1,
      cfg_on_error cfg = Some on_error ->
      user e on_error [VNum code; err]
           (state_of (err_message [log_prefix cfg client_id; ": Error ";
                                   client_errors e code; ": "; inspect e err] s))
      = Raised usererr s1 ->
      exists s',
        handlers_on_error e cfg client_id code err s = Ok tt s' /\
        ui s' = ui s1 ++ [ErrWriteln (log_prefix cfg client_id
                                      ++ " user on_error failed: "
                                      ++ tostring e usererr)%string;
                          Command "redraw"]).
Proof.
  split; [apply handlers_on_error_returns|].
  split; [apply handlers_on_exit_returns|].
  intros on_error usererr s1 Hf Hraise.
  eexists. split; [apply (handlers_on_error_reports _ _ _ _ _ _ _ _ _ Hf Hraise)|].
  cbn [ui set_ui]. reflexivity.
Qed.

Lemma handlers_contain_user_errors_witness :
  exists s',
    handlers_on_error sample_env failing_config 1 2 (VStr "bad")
                      (sample_state failing_config) = Ok tt s' /\
    ui s' = ui (set_ui [ErrWriteln "LSP[clangd]: Error 2: bad"; Command "redraw"]
                       (sample_state failing_config))
            ++ [ErrWriteln (log_prefix failing_config 1
                            ++ " user on_error failed: "
                            ++ tostring sample_env (VStr "boom"))%string;
                Command "redraw"].
Proof.
  destruct (handlers_contain_user_errors
              sample_env failing_config 1 2 15 (VStr "bad")
              (sample_state failing_config)) as (_ & _ & Hreport).
  apply (Hreport "boom" (VStr "boom")); reflexivity.
Defined.


(** *** The other ways out of [client.request] *)

(** X15. A request for a method whose capability the server lacks never
    reaches the server: [client.request] writes
    ["server doesn't support <method>"] on the error surface and then
    does what the callback does when it is called, right away, with the
    [MethodNotFound] error carrying that message, the method, [nil] as
    the result, the client id and the buffer; it returns no value. *)
Theorem client_request_unsupported
        (e : env) (client_id : Z) (method : string) (params : value)
        (given : option callback) (bufnr : value) (s : lsp_state)
        (c : client) (caps : capabilities) (cb : callback) :
  clients s !! client_id = Some c ->
  chosen_callback e c method given = Some cb ->
  resolved_capabilities c = Some caps ->
  capability_missing caps method = true ->
  client_request e client_id method params given bufnr s =
  bind (apply_callback
          e cb
          [VTable [("code", VNum (MethodNotFound e));
                   ("message", VStr ("server doesn't support " ++ method))];
           VStr method; VNil; VNum client_id; bufnr])
       (fun _ => ret [])
       (set_ui (ui s ++ [ErrWriteln ("server doesn't support " ++ method);
                         Command "redraw"]) s).
Proof.
  intros Hc Hcb Hcaps Hgate.
  unfold client_request, bind at 1. rewrite (client_object_eq _ _ _ Hc).
  unfold bind at 1. rewrite chosen_callback_eq, Hcb.
  unfold bind at 1. rewrite Hcaps. unfold ret at 1. rewrite Hgate.
  reflexivity.
Qed.

Lemma client_request_unsupported_witness :
  client_request sample_env 1 "textDocument/hover" VNil (Some (SyncCallback 0))
                 (VNum 1) (new_sync_call (sample_state sample_config)) =
  bind (apply_callback
          sample_env (SyncCallback 0)
          [VTable [("code", VNum (MethodNotFound sample_env));
                   ("message", VStr ("server doesn't support " ++ "textDocument/hover"))];
           VStr "textDocument/hover"; VNil; VNum 1; VNum 1])
       (fun _ => ret [])
       (set_ui (ui (new_sync_call (sample_state sample_config))
                ++ [ErrWriteln ("server doesn't support " ++ "textDocument/hover");
                    Command "redraw"]) (new_sync_call (sample_state sample_config))).
Proof.
  apply (client_request_unsupported
           sample_env 1 "textDocument/hover" VNil (Some (SyncCallback 0)) (VNum 1)
           (new_sync_call (sample_state sample_config)) (sample_client sample_config)
           sample_capabilities (SyncCallback 0)); reflexivity.
Defined.



(** [%q] puts a backslash before a double quote, a backslash and a
    newline. *)
Example format_q_escapes :
  format_q (String "a" (String (ascii_of_nat 34) (String backslash "b")))
  = String (ascii_of_nat 34)
      (String "a"
         (String backslash
            (String (ascii_of_nat 34)
               (String backslash
                  (String backslash
                     (String "b" (String (ascii_of_nat 34) EmptyString))))))) /\
  format_q "textDocument/references"
  = String (ascii_of_nat 34)
           ("textDocument/references" ++ String (ascii_of_nat 34) EmptyString).
Proof. split; reflexivity. Qed.

Example client_request_without_callback :
  value_of (client_request sample_env 1 "textDocument/references" VNil None
                           (VNum 1) (sample_state sample_config))
  = inl (VStr ("vim/lsp.lua:639: not found: " ++ format_q "textDocument/references"
               ++ " request callback for client " ++ format_q "clangd" ++ ".")).
Proof. reflexivity. Qed.


(** *** Going through the clients of a buffer *)

Lemma for_each_buffer_client_eq {A : Type} (bufnr : option Z)
      (callback : Z -> Z -> A -> lua A) (acc : A) (s : lsp_state) :
  for_each_buffer_client bufnr callback acc s =
  match all_buffer_active_clients s !! resolve_bufnr bufnr s with
  | None => Ok acc s
  | Some client_ids =>
      visit_clients callback (resolve_bufnr bufnr s) (elements client_ids) acc s
  end.
Proof.
  unfold for_each_buffer_client, bind at 1, get.
  destruct (all_buffer_active_clients s !! resolve_bufnr bufnr s) as [client_ids|];
    [|reflexivity].
  generalize (elements client_ids) as ids.
  generalize (resolve_bufnr bufnr s) as b. intros b ids. revert acc s.
  induction ids as [|client_id rest IH]; intros acc s; [reflexivity|].
  cbn [visit_clients]. unfold bind, get.
  destruct (active_client client_id s).
  - destruct (callback client_id b acc s); [apply IH|reflexivity].
  - unfold ret. apply IH.
Qed.

(** What holds of the local of the callback before the loop and is kept
    by every call holds after the loop. *)
Lemma visit_clients_inv {A : Type} (P : A -> Prop) (Q : Z -> Prop)
      (callback : Z -> Z -> A -> lua A) (bufnr : Z) (ids : list Z) :
  (forall client_id acc s acc' s',
      Q client_id -> P acc ->
      callback client_id bufnr acc s = Ok acc' s' -> P acc') ->
  Forall Q ids ->
  forall acc s acc' s',
    P acc -> visit_clients callback bufnr ids acc s = Ok acc' s' -> P acc'.
Proof.
  intros Hstep. induction 1 as [|client_id rest Hq _ IH]; intros acc s acc' s' Hp;
    cbn [visit_clients].
  - intros [= <- _]. exact Hp.
  - unfold bind at 1, get. unfold bind at 1.
    destruct (active_client client_id s).
    + destruct (callback client_id bufnr acc s) as [acc1 s1|] eqn:E; [|discriminate].
      apply IH. eapply Hstep; eauto.
    + unfold ret at 1. now apply IH.
Qed.

(** For a buffer without clients [lsp.buf_request] does nothing. *)
Lemma buf_request_without_clients
      (e : env) (bufnr : option Z) (method : string) (params : value)
      (callback : option callback) (s : lsp_state) :
  all_buffer_active_clients s !! resolve_bufnr bufnr s = None \/
  all_buffer_active_clients s !! resolve_bufnr bufnr s = Some ∅ ->
  buf_request e bufnr method params callback s = Ok ∅ s.
Proof.
  unfold buf_request. rewrite for_each_buffer_client_eq.
  intros [-> | ->]; [reflexivity|]. now rewrite elements_empty.
Qed.


Lemma requested_takes (e : env) (method : string) (params : value)
      (given : option callback) (bufnr client_id : Z) (c : client) :
  client_config (requested e method params given bufnr client_id c) = client_config c /\
  resolved_capabilities (requested e method params given bufnr client_id c)
  = resolved_capabilities c.
Proof.
  unfold requested. now destruct (chosen_callback e c method given).
Qed.




Example buf_request_sample :
  value_of (buf_request sample_env (Some 1) "textDocument/references" VNil
                        (Some (UserFn "show")) (sample_state sample_config))
  = inr {[ 1 := 1 ]} /\
  (sent ∘ rpc) <$> clients (state_of (buf_request
                              sample_env (Some 1) "textDocument/references" VNil
                              (Some (UserFn "show")) (sample_state sample_config))) !! 1
  = Some [Request 1 "textDocument/references" VNil] /\
  value_of (buf_request sample_env (Some 1) "textDocument/references" VNil
                        (Some (UserFn "show")) closed_state)
  = inr ∅.
Proof. repeat split; vm_compute; reflexivity. Qed.

Lemma locals_of_new (s : lsp_state) :
  locals_of (length (sync_calls s)) (new_sync_call s) = new_sync_locals.
Proof.
  unfold locals_of, new_sync_call. cbn [sync_calls set_sync_calls].
  now rewrite list_lookup_middle.
Qed.

(** X18. [lsp.buf_request_sync] for a buffer that has no clients returns
    an empty table of results at once, whatever the timeout: nothing is
    sent, and the event loop is not run, so that nothing that is waiting
    there is handled; all that has happened is that the locals of the
    call were made. *)
Theorem buf_request_sync_no_clients
        (e : env) (bufnr : option Z) (method : string) (params : value)
        (timeout_ms : option Z) (turns : list turn) (s : lsp_state) :
  all_buffer_active_clients s !! resolve_bufnr bufnr s = None \/
  all_buffer_active_clients s !! resolve_bufnr bufnr s = Some ∅ ->
  buf_request_sync e bufnr method params timeout_ms turns s =
  Ok (Results ∅) (new_sync_call s).
Proof.
  intros Hnone. unfold buf_request_sync. unfold bind at 1, get.
  unfold bind at 1, put. unfold bind at 1.
  rewrite buf_request_without_clients by exact Hnone.
  unfold bind at 1, vim_wait.
  assert (Hwait : forall polls,
             wait_polls e polls
                        (fun st => Z.of_nat (size (∅ : gmap Z Z))
                                   <=? result_count (locals_of (length (sync_calls s)) st))
                        turns (new_sync_call s)
             = Ok [VBool true] (new_sync_call s)).
  { intros polls.
    assert (Hp : (Z.of_nat (size (∅ : gmap Z Z))
                  <=? result_count (locals_of (length (sync_calls s))
                                              (new_sync_call s))) = true)
      by (now rewrite locals_of_new).
    destruct polls; cbn [wait_polls]; unfold bind, get; now rewrite Hp. }
  rewrite Hwait. cbn [nth_value nth truthy negb]. unfold bind, get, ret.
  now rewrite locals_of_new.
Qed.

Lemma buf_request_sync_no_clients_witness :
  buf_request_sync sample_env (Some 2) "textDocument/references" VNil (Some 1000)
                   [Turn [Exit 1 0 15]] (sample_state sample_config) =
  Ok (Results ∅) (new_sync_call (sample_state sample_config)).
Proof.
  apply (buf_request_sync_no_clients
           sample_env (Some 2) "textDocument/references" VNil (Some 1000)
           [Turn [Exit 1 0 15]] (sample_state sample_config)).
  left. reflexivity.
Defined.


Lemma buf_request_sync_statuses_witness :
  (buf_request_sync sample_env (Some 1) "textDocument/references" VNil (Some 50) []
                    (sample_state sample_config)
   = Ok (Results (request_results (locals_of 0 waiting_state))) waiting_state /\
   Z.of_nat (size ({[ 1 := 1 ]} : gmap Z Z)) <= result_count (locals_of 0 waiting_state)) \/
  (exists reason,
      (reason = "timeout" \/ reason = "interrupted") /\
      Z.of_nat (size ({[ 1 := 1 ]} : gmap Z Z)) > result_count (locals_of 0 waiting_state) /\
      buf_request_sync sample_env (Some 1) "textDocument/references" VNil (Some 50) []
                       (sample_state sample_config)
      = Ok (Failure (Some reason))
           (foldl (fun st entry =>
                     state_of (client_cancel_request entry.1 entry.2 st))
                  waiting_state (map_to_list ({[ 1 := 1 ]} : gmap Z Z)))).
Proof.
  apply (buf_request_sync_statuses
           sample_env (Some 1) "textDocument/references" VNil (Some 50) []
           (sample_state sample_config) waiting_state waiting_state
           {[ 1 := 1 ]} [VBool false; VNum (-1)]).
  - vm_compute. reflexivity.
  - vm_compute. reflexivity.
  - intros client_id [request_id Hid].
    apply lookup_singleton_Some in Hid as [<- _].
    split; [vm_compute; reflexivity|]. vm_compute. eauto.
Defined.

(** *** [lsp.buf_notify] *)

Lemma notified_closing (method : string) (params : value) (c : client) :
  closing (rpc (notified method params c)) = closing (rpc c).
Proof.
  unfold notified. cbn [rpc set_rpc].
  now destruct (rpc_notify_pending method params (rpc c)) as (_ & _ & _ & -> & _).
Qed.

Lemma rpc_open_alter (method : string) (params : value) (k k' : Z)
      (m : gmap Z client) :
  rpc_open k (alter (notified method params) k' m) = rpc_open k m.
Proof.
  unfold rpc_open. rewrite lookup_alter. case_decide; [subst|reflexivity].
  destruct (m !! k); [|reflexivity].
  cbn [fmap option_fmap option_map]. now rewrite notified_closing.
Qed.

Lemma on_rpc_notify_eq (method : string) (params : value) (client_id : Z)
      (s : lsp_state) (c : client) :
  clients s !! client_id = Some c ->
  on_rpc client_id (rpc_notify method params) s =
  Ok [VBool (rpc_open client_id (clients s))]
     (set_clients (alter (notified method params) client_id (clients s)) s).
Proof.
  intros Hc. rewrite (on_rpc_eq _ _ _ _ Hc).
  rewrite (proj1 (rpc_notify_pending _ _ _)). unfold rpc_open. rewrite Hc.
  do 2 f_equal. apply map_eq. intros k. rewrite lookup_alter, lookup_insert.
  case_decide; [subst; now rewrite Hc|reflexivity].
Qed.

(** The loop of [buf_notify] over a list of client ids. *)
Lemma visit_notify (method : string) (params : value) (bufnr : Z) (ids : list Z) :
  forall (s : lsp_state) (resp : bool),
    (forall k, k ∈ ids -> k ∈ active_clients s -> is_Some (clients s !! k)) ->
    visit_clients
      (fun client_id (_ : Z) (resp : bool) =>
         bind (on_rpc client_id (rpc_notify method params))
              (fun r => if truthy (nth_value 0 r) then ret true else ret resp))
      bufnr ids resp s =
    Ok (resp || existsb (fun k => active_client k s && rpc_open k (clients s)) ids)
       (set_clients
          (foldl (fun m k => if active_client k s
                             then alter (notified method params) k m else m)
                 (clients s) ids) s).
Proof.
  induction ids as [|k ids IH]; intros s resp Hobj; cbn [visit_clients existsb foldl].
  - rewrite orb_false_r. unfold ret. now destruct s.
  - unfold bind at 1, get. unfold bind at 1.
    destruct (active_client k s) eqn:Hact.
    + destruct (Hobj k) as [c Hc]; [left|now apply bool_decide_eq_true_1 in Hact|].
      unfold bind at 1. rewrite (on_rpc_notify_eq _ _ _ _ _ Hc).
      cbn [nth_value nth].
      set (s1 := set_clients (alter (notified method params) k (clients s)) s).
      assert (Hact1 : forall j, active_client j s1 = active_client j s) by reflexivity.
      assert (Hopen1 : forall j, rpc_open j (clients s1) = rpc_open j (clients s))
        by (intros j; apply rpc_open_alter).
      assert (Hobj1 : forall j, j ∈ ids -> j ∈ active_clients s1 ->
                                is_Some (clients s1 !! j)).
      { intros j Hj Hja. subst s1. cbn [clients set_clients].
        rewrite lookup_alter. destruct (Hobj j) as [cj Hcj]; [now right|exact Hja|].
        case_decide; [subst; rewrite Hcj; cbn; eauto|eauto]. }
      assert (Hrest : existsb (fun j => active_client j s1 && rpc_open j (clients s1)) ids
                      = existsb (fun j => active_client j s && rpc_open j (clients s)) ids).
      { clear -Hact1 Hopen1. induction ids as [|j l IHl]; cbn [existsb];
          [reflexivity|]. now rewrite Hact1, Hopen1, IHl. }
      destruct (rpc_open k (clients s)) eqn:Hopen; cbn [truthy andb orb]; unfold ret at 1;
        rewrite (IH s1 _ Hobj1), Hrest; cbn [orb]; rewrite ?orb_true_r; reflexivity.
    + unfold ret at 1. cbn [andb orb]. apply IH.
      intros j Hj. apply Hobj. now right.
Qed.

Lemma foldl_alter_lookup {V : Type} (f : V -> V) (P : Z -> bool) (ids : list Z) :
  NoDup ids ->
  forall (m : gmap Z V) (k : Z),
    foldl (fun m k => if P k then alter f k m else m) m ids !! k =
    if bool_decide (k ∈ ids) && P k then f <$> m !! k else m !! k.
Proof.
  induction 1 as [|j ids Hj _ IH]; intros m k; cbn [foldl].
  - now rewrite bool_decide_eq_false_2 by apply not_elem_of_nil.
  - rewrite IH. destruct (decide (k = j)) as [->|Hne].
    + rewrite (bool_decide_eq_false_2 (j ∈ ids)) by exact Hj.
      rewrite (bool_decide_eq_true_2 (j ∈ j :: ids)) by left. cbn [andb].
      destruct (P j); [now rewrite lookup_alter_eq|reflexivity].
    + rewrite (bool_decide_ext (k ∈ j :: ids) (k ∈ ids))
        by (rewrite elem_of_cons; intuition congruence).
      destruct (P j); [now rewrite lookup_alter_ne by congruence|reflexivity].
Qed.

(** X19. [lsp.buf_notify] on a buffer with a table of clients: every
    client of the table that is active is notified once, which appends
    the notification to what was written to its server unless its RPC
    client has shut down; no other client and nothing else in the state
    is touched; the value returned is [true] exactly when one of the
    notified clients had not shut down. *)
Theorem buf_notify_clients
        (bufnr : option Z) (method : string) (params : value)
        (s : lsp_state) (client_ids : gset Z) :
  all_buffer_active_clients s !! resolve_bufnr bufnr s = Some client_ids ->
  (forall k, k ∈ client_ids -> k ∈ active_clients s -> is_Some (clients s !! k)) ->
  exists (resp : bool) (after : gmap Z client),
    buf_notify bufnr method params s = Ok resp (set_clients after s) /\
    (resp = true <->
     exists k, k ∈ client_ids /\ k ∈ active_clients s /\
               rpc_open k (clients s) = true) /\
    (forall k c,
        clients s !! k = Some c ->
        after !! k =
        Some (if bool_decide (k ∈ client_ids) && active_client k s
              then set_rpc
                     {| message_index := message_index (rpc c);
                        pending := pending (rpc c);
                        sent := sent (rpc c)
                                ++ (if closing (rpc c) then []
                                    else [Notification method params]);
                        closing := closing (rpc c) |} c
              else c)) /\
    (forall k, clients s !! k = None -> after !! k = None).
Proof.
  intros Htable Hobj. unfold buf_notify. rewrite for_each_buffer_client_eq, Htable.
  rewrite visit_notify
    by (intros k Hk; apply Hobj; now apply elem_of_elements).
  eexists. eexists. split; [reflexivity|]. cbn [orb].
  assert (Hlookup : forall k,
             foldl (fun m k => if active_client k s
                               then alter (notified method params) k m else m)
                   (clients s) (elements client_ids) !! k =
             if bool_decide (k ∈ client_ids) && active_client k s
             then notified method params <$> clients s !! k else clients s !! k).
  { intros k. rewrite foldl_alter_lookup by apply NoDup_elements.
    now rewrite (bool_decide_ext (k ∈ elements client_ids) (k ∈ client_ids))
      by apply elem_of_elements. }
  split; [|split].
  - rewrite existsb_exists. split.
    + intros (k & Hin & Hk). apply andb_prop in Hk as [Hact Hopen].
      exists k. split; [apply elem_of_elements; now apply list_elem_of_In|].
      split; [now apply bool_decide_eq_true_1 in Hact|exact Hopen].
    + intros (k & Hin & Hact & Hopen). exists k.
      split; [apply list_elem_of_In; now apply elem_of_elements|].
      apply andb_true_intro. split; [now apply bool_decide_eq_true_2|exact Hopen].
  - intros k c Hc. rewrite Hlookup, Hc.
    destruct (bool_decide (k ∈ client_ids) && active_client k s); [|reflexivity].
    cbn. f_equal. unfold notified. f_equal.
    destruct (rpc_notify_pending method params (rpc c)) as (_ & Hp & Hm & Hcl & Hs).
    destruct (rpc_notify method params (rpc c)).2 as [mi pe se cl].
    cbn in *. now subst.
  - intros k Hnone. rewrite Hlookup, Hnone.
    now destruct (bool_decide (k ∈ client_ids) && active_client k s).
Qed.

Lemma buf_notify_clients_witness :
  exists (resp : bool) (after : gmap Z client),
    buf_notify (Some 1) "textDocument/didSave" VNil (sample_state sample_config)
    = Ok resp (set_clients after (sample_state sample_config)) /\
    (resp = true <->
     exists k, k ∈ ({[ 1 ]} : gset Z) /\
               k ∈ active_clients (sample_state sample_config) /\
               rpc_open k (clients (sample_state sample_config)) = true) /\
    (forall k c,
        clients (sample_state sample_config) !! k = Some c ->
        after !! k =
        Some (if bool_decide (k ∈ ({[ 1 ]} : gset Z))
                 && active_client k (sample_state sample_config)
              then set_rpc
                     {| message_index := message_index (rpc c);
                        pending := pending (rpc c);
                        sent := sent (rpc c)
                                ++ (if closing (rpc c) then []
                                    else [Notification "textDocument/didSave" VNil]);
                        closing := closing (rpc c) |} c
              else c)) /\
    (forall k, clients (sample_state sample_config) !! k = None -> after !! k = None).
Proof.
  apply (buf_notify_clients (Some 1) "textDocument/didSave" VNil
                            (sample_state sample_config) {[ 1 ]}).
  - reflexivity.
  - intros k Hk _. apply elem_of_singleton in Hk as ->. vm_compute. eauto.
Defined.

Example buf_notify_sample :
  value_of (buf_notify (Some 1) "textDocument/didSave" VNil
                       (sample_state sample_config)) = inr true /\
  value_of (buf_notify (Some 2) "textDocument/didSave" VNil
                       (sample_state sample_config)) = inr false.
Proof. split; vm_compute; reflexivity. Qed.


(** *** [once] *)

Lemma once_calls_remembered {S : Type}
      (fn : list value -> M value S (list value)) (calls : list (list value)) :
  forall (s : S) (v : value),
    truthy v = true ->
    once_calls fn calls (s, v) = ((fun _ => inr v) <$> calls, (s, v)).
Proof.
  induction calls as [|args calls IH]; intros s v Hv; [reflexivity|].
  assert (Hcall : once_call fn args (s, v) = Ok v (s, v))
    by (unfold once_call; now rewrite Hv).
  cbn [once_calls]. rewrite Hcall. cbn [value_of state_of].
  rewrite IH by exact Hv. reflexivity.
Qed.

(** X20. [once(fn)] remembers the first result of [fn] that is neither
    [nil] nor [false]: once a call has made [fn] return such a value,
    every later call, whatever its arguments, returns that value without
    calling [fn], so that the state [fn] works on stays as that call
    left it.  A result that is [nil] or [false] is not remembered: the
    next call runs [fn] again. *)
Theorem once_memoizes {S : Type} (fn : list value -> M value S (list value))
        (args : list value) (calls : list (list value)) (s s' : S)
        (r : list value) (remembered : value) :
  truthy remembered = false ->
  fn args s = Ok r s' ->
  (truthy (nth_value 0 r) = true ->
   once_calls fn (args :: calls) (s, remembered) =
   (inr (nth_value 0 r) :: ((fun _ => inr (nth_value 0 r)) <$> calls),
    (s', nth_value 0 r))) /\
  (truthy (nth_value 0 r) = false ->
   once_calls fn (args :: calls) (s, remembered) =
   (inr (nth_value 0 r) :: (once_calls fn calls (s', nth_value 0 r)).1,
    (once_calls fn calls (s', nth_value 0 r)).2) /\
   forall args', once_call fn args' (s', nth_value 0 r) =
                 match fn args' s' with
                 | Ok r' s'' => Ok (nth_value 0 r') (s'', nth_value 0 r')
                 | Raised err s'' => Raised err (s'', nth_value 0 r)
                 end).
Proof.
  intros Hvalue Hfn.
  assert (Hfirst : once_call fn args (s, remembered) =
                   Ok (nth_value 0 r) (s', nth_value 0 r)).
  { unfold once_call. now rewrite Hvalue, Hfn. }
  split.
  - intros Hr. cbn [once_calls]. rewrite Hfirst. cbn [value_of state_of].
    rewrite once_calls_remembered by exact Hr. reflexivity.
  - intros Hr. split.
    + cbn [once_calls]. rewrite Hfirst. cbn [value_of state_of].
      now destruct (once_calls fn calls (s', nth_value 0 r)).
    + intros args'. unfold once_call. now rewrite Hr.
Qed.

Lemma once_memoizes_witness :
  once_calls (fun args s => Ok [nth_value 0 args] (s + 1))
             ([VStr "utf-8"] :: [[VStr "utf-16"]; [VNil]]) (0, VNil) =
  (inr (nth_value 0 [VStr "utf-8"])
       :: ((fun _ => inr (nth_value 0 [VStr "utf-8"])) <$> [[VStr "utf-16"]; [VNil]]),
   (1, nth_value 0 [VStr "utf-8"])).
Proof.
  destruct (once_memoizes (fun args s => Ok [nth_value 0 args] (s + 1))
                          [VStr "utf-8"] [[VStr "utf-16"]; [VNil]] 0 1
                          [VStr "utf-8"] VNil) as [Hkept _];
    [reflexivity|reflexivity|].
  apply Hkept. reflexivity.
Defined.


(** *** [client.stop] *)

Lemma client_stop_open (force : bool) (c : stopping_client) :
  is_closing (handle c) = false ->
  client_stop force c =
  if force || negb (initialized c) || tried_graceful_shutdown c
  then kill 15 c else request_shutdown c.
Proof. intros Hopen. unfold client_stop. now rewrite Hopen. Qed.

Lemma client_stops_open (forces : list bool) :
  forall c : stopping_client,
    is_closing (handle c) = false ->
    exists (terms : nat) (requests : list frame),
      signals (handle (client_stops forces c)) =
        signals (handle c) ++ repeat 15 terms /\
      written (client_stops forces c) = written c ++ requests /\
      (requests = [] \/
       requests = [Request (request_index c + 1) "shutdown" VNil]) /\
      (tried_graceful_shutdown c = true \/ initialized c = false -> requests = []) /\
      (terms + length requests = length forces)%nat /\
      is_closing (handle (client_stops forces c)) = false.
Proof.
  induction forces as [|force forces IH]; intros c Hopen.
  - exists 0%nat, []. cbn. rewrite !app_nil_r. auto 10.
  - change (client_stops (force :: forces) c)
      with (client_stops forces (client_stop force c)).
    rewrite (client_stop_open force c Hopen).
    destruct (force || negb (initialized c) || tried_graceful_shutdown c) eqn:Hkill.
    + destruct (IH (kill 15 c) Hopen) as (n & reqs & Hs & Hw & Hr & Hnone & Hlen & Hcl).
      exists (S n), reqs. cbn [kill handle signals written request_index
                               tried_graceful_shutdown initialized] in *.
      rewrite Hs, <- app_assoc. repeat split; auto. cbn [length]. lia.
    + destruct (IH (request_shutdown c) Hopen)
        as (n & reqs & Hs & Hw & Hr & Hnone & Hlen & Hcl).
      cbn [request_shutdown handle signals written request_index
           tried_graceful_shutdown initialized] in *.
      rewrite (Hnone (or_introl eq_refl)) in *.
      exists n, [Request (request_index c + 1) "shutdown" VNil].
      rewrite app_nil_r in Hw. repeat split; auto.
      * intros [Ht|Hi]; [rewrite Ht in Hkill|rewrite Hi in Hkill];
          destruct force; cbn in Hkill; try discriminate;
          rewrite ?orb_true_r in Hkill; discriminate.
      * cbn [length] in *. lia.
Qed.

(** X21. [client.stop] asks once and then insists.  On a handle that is
    closing it does nothing.  Otherwise, over any number of calls, every
    call either sends SIGTERM (15) to the process or sends the
    [shutdown] request; the request is sent at most once, and never to a
    client that is not initialized or has been asked before; and the call
    after a plain [client.stop()] that sent the request sends SIGTERM. *)
Theorem client_stop_escalates (forces : list bool) (c : stopping_client) :
  (is_closing (handle c) = true -> client_stops forces c = c) /\
  (is_closing (handle c) = false ->
   exists (terms : nat) (requests : list frame),
     signals (handle (client_stops forces c)) =
       signals (handle c) ++ repeat 15 terms /\
     written (client_stops forces c) = written c ++ requests /\
     (requests = [] \/
      requests = [Request (request_index c + 1) "shutdown" VNil]) /\
     (tried_graceful_shutdown c = true \/ initialized c = false -> requests = []) /\
     (terms + length requests = length forces)%nat) /\
  (is_closing (handle c) = false -> initialized c = true ->
   tried_graceful_shutdown c = false ->
   forall force,
     written (client_stops [false; force] c) =
       written c ++ [Request (request_index c + 1) "shutdown" VNil] /\
     signals (handle (client_stops [false; force] c)) =
       signals (handle c) ++ [15]).
Proof.
  split; [|split].
  - intros Hclosing. unfold client_stops.
    induction forces as [|force forces IH]; [reflexivity|].
    cbn [foldl]. unfold client_stop at 2. now rewrite Hclosing.
  - intros Hopen.
    destruct (client_stops_open forces c Hopen)
      as (n & reqs & Hs & Hw & Hr & Hnone & Hlen & _).
    exists n, reqs. auto.
  - intros Hopen Hinit Htried force.
    change (client_stops [false; force] c)
      with (client_stop force (client_stop false c)).
    rewrite (client_stop_open false c Hopen), Hinit, Htried. cbn [negb orb].
    rewrite (client_stop_open force (request_shutdown c) Hopen).
    cbn [request_shutdown tried_graceful_shutdown]. rewrite orb_true_r.
    split; reflexivity.
Qed.

Lemma client_stop_escalates_witness :
  written (client_stops [false; false]
             {| initialized := true; tried_graceful_shutdown := false;
                handle := {| is_closing := false; signals := [] |};
                request_index := 4; awaiting_shutdown := []; written := [] |})
  = [] ++ [Request (4 + 1) "shutdown" VNil] /\
  signals (handle (client_stops [false; false]
             {| initialized := true; tried_graceful_shutdown := false;
                handle := {| is_closing := false; signals := [] |};
                request_index := 4; awaiting_shutdown := []; written := [] |}))
  = [] ++ [15].
Proof.
  destruct (client_stop_escalates
              [] {| initialized := true; tried_graceful_shutdown := false;
                    handle := {| is_closing := false; signals := [] |};
                    request_index := 4; awaiting_shutdown := []; written := [] |})
    as (_ & _ & Htwice).
  apply (Htwice eq_refl eq_refl eq_refl false).
Defined.


(** *** [buf_get_full_text] *)

Lemma concat_then_sep (lines : list Util.lua_string) (sep : Util.lua_string) :
  lines <> [] ->
  (Util.concat lines sep ++ sep)%list = Util.concat (lines ++ [[]]) sep.
Proof.
  intros Hne. rewrite UtilFacts.concat_snoc, app_nil_r.
  induction lines as [|x lines IH]; [congruence|].
  destruct lines as [|y lines]; [cbn; now rewrite app_nil_r|].
  change (Util.concat (x :: y :: lines) sep)
    with (x ++ sep ++ Util.concat (y :: lines) sep)%list.
  cbn [Util.fields_then_sep]. rewrite <- !app_assoc. do 2 f_equal.
  now apply IH.
Qed.

(** X23. The text [buf_get_full_text] sends for a buffer: with ['eol']
    set it is the text of the same lines followed by one empty line with
    ['eol'] unset, so the text alone does not tell the two buffers
    apart; for a fixed ['eol'], buffers whose lines hold no newline byte
    and whose texts are equal have the same lines. *)
Theorem buf_get_full_text_lines (l1 l2 : list Util.lua_string) (eol : bool) :
  l1 <> [] -> l2 <> [] ->
  Forall (fun line => ascii_of_nat 10 ∉ line) l1 ->
  Forall (fun line => ascii_of_nat 10 ∉ line) l2 ->
  buf_get_full_text l1 true = buf_get_full_text (l1 ++ [[]]) false /\
  (buf_get_full_text l1 eol = buf_get_full_text l2 eol -> l1 = l2).
Proof.
  intros Hn1 Hn2 H1 H2. unfold buf_get_full_text. split.
  - now apply concat_then_sep.
  - destruct eol.
    + rewrite !concat_then_sep by assumption. intros E.
      apply (UtilFacts.concat_byte_inj (ascii_of_nat 10)) in E.
      * now apply app_inj_tail in E as [E _].
      * now destruct l1.
      * now destruct l2.
      * apply Forall_app. split; [exact H1|]. repeat constructor. apply not_elem_of_nil.
      * apply Forall_app. split; [exact H2|]. repeat constructor. apply not_elem_of_nil.
    + now apply (UtilFacts.concat_byte_inj (ascii_of_nat 10)).
Qed.

Lemma buf_get_full_text_lines_witness :
  buf_get_full_text [Util.str "a"; Util.str "b"] true =
  buf_get_full_text ([Util.str "a"; Util.str "b"] ++ [[]]) false /\
  (buf_get_full_text [Util.str "a"; Util.str "b"] true =
   buf_get_full_text [Util.str "a"; Util.str "b"] true ->
   [Util.str "a"; Util.str "b"] = [Util.str "a"; Util.str "b"]).
Proof.
  apply (buf_get_full_text_lines [Util.str "a"; Util.str "b"]
                                 [Util.str "a"; Util.str "b"] true).
  - discriminate.
  - discriminate.
  - repeat constructor; vm_compute; intros H;
      repeat (apply elem_of_cons in H as [H|H]; [discriminate H|]);
      now apply elem_of_nil in H.
  - repeat constructor; vm_compute; intros H;
      repeat (apply elem_of_cons in H as [H|H]; [discriminate H|]);
      now apply elem_of_nil in H.
Defined.

Example buf_get_full_text_eol :
  buf_get_full_text [Util.str "a"; Util.str "b"] true = Util.str "a
b
" /\
  buf_get_full_text [Util.str "a"; Util.str "b"] false = Util.str "a
b".
Proof. split; reflexivity. Qed.

(** *** [lsp.buf_get_clients] *)

(** [resolve_bufnr] leaves a buffer number it returned as it is. *)
Lemma resolve_bufnr_idempotent (bufnr : option Z) (s : lsp_state) :
  resolve_bufnr (Some (resolve_bufnr bufnr s)) s = resolve_bufnr bufnr s.
Proof.
  unfold resolve_bufnr. destruct bufnr as [n|].
  - destruct (Z.eqb_spec n 0) as [->|Hn].
    + now destruct (Z.eqb_spec (current_buf s) 0) as [->|_].
    + now destruct (Z.eqb_spec n 0).
  - now destruct (Z.eqb_spec (current_buf s) 0) as [->|_].
Qed.

Lemma visit_clients_collect (bufnr : Z) (ids : list Z) (acc : gset Z)
      (s : lsp_state) :
  visit_clients (fun client_id _ result => ret ({[client_id]} ∪ result))
                bufnr ids acc s
  = Ok (acc ∪ (list_to_set ids ∩ active_clients s)) s.
Proof.
  revert acc. induction ids as [|client_id rest IH]; intros acc.
  - cbn. f_equal. apply leibniz_equiv. intros k.
    rewrite elem_of_union, elem_of_intersection, elem_of_empty. tauto.
  - cbn [visit_clients]. unfold bind at 1, get. unfold bind at 1.
    unfold active_client. case_bool_decide as Hin.
    + unfold ret at 1. rewrite IH. f_equal. apply leibniz_equiv. intros k.
      rewrite list_to_set_cons.
      rewrite !elem_of_union, !elem_of_intersection, elem_of_union, elem_of_singleton.
      split; [intros [[->|H]|H]; tauto|tauto].
    + unfold ret at 1. rewrite IH. f_equal. apply leibniz_equiv. intros k.
      rewrite list_to_set_cons.
      rewrite !elem_of_union, !elem_of_intersection, elem_of_union, elem_of_singleton.
      split; [tauto|intros [H|[[->|H] Hk]]; tauto].
Qed.

(** X24. [lsp.buf_get_clients] returns the clients of the buffer that
    are active, and those only: its table has a key for a client id
    exactly when the id is in the buffer's table of clients and
    [active_clients] maps it; the call changes nothing. *)
Theorem buf_get_clients_active (bufnr : option Z) (s : lsp_state) :
  exists result,
    buf_get_clients bufnr s = Ok result s /\
    forall client_id,
      client_id ∈ result <->
      buf_is_attached (resolve_bufnr bufnr s) client_id s = true /\
      active_client client_id s = true.
Proof.
  unfold buf_get_clients, bind, get. rewrite for_each_buffer_client_eq.
  rewrite resolve_bufnr_idempotent.
  unfold buf_is_attached, active_client.
  destruct (all_buffer_active_clients s !! resolve_bufnr bufnr s) as [client_ids|].
  - rewrite visit_clients_collect. eexists. split; [reflexivity|].
    intros client_id. rewrite !bool_decide_eq_true.
    rewrite elem_of_union, elem_of_intersection, elem_of_list_to_set, elem_of_elements.
    split; [intros [H|H]; [now apply elem_of_empty in H|exact H]|now right].
  - exists ∅. split; [reflexivity|]. intros client_id.
    split; [intros H; now apply elem_of_empty in H|intros [H _]; discriminate H].
Qed.

Example buf_get_clients_sample :
  value_of (buf_get_clients (Some 1) (exited 1 (sample_state sample_config)))
  = inr ∅ /\
  value_of (buf_get_clients (Some 1) (sample_state sample_config))
  = inr {[ 1 ]}.
Proof. split; vm_compute; reflexivity. Qed.

End LspFacts.
